(** * The symmetric group engine: permutations.py and stabilizer.py

    A shallow embedding of the two core modules and of the scheduler model
    built on them, followed by the verification of the properties stated
    about them.

    Representation choices.
    - A Python [dict] with integer keys and values is a [gmap Z Z].  Python
      compares dicts with [==] regardless of insertion order, which is the
      extensional equality of [gmap]; iteration order of a dict is the order
      of [map_to_list] (it only ever decides which of several failing
      lookups raises first, or which binding wins in a comprehension with
      colliding keys).
    - Python integers are [Z]; [len] yields a [Z]; [range(1, n + 1)] is
      [seqZ 1 n].
    - A function that may raise returns a [result]; a [while] loop with no
      a-priori bound takes fuel and answers [OutOfFuel] when it runs dry. *)

From stdpp Require Import base gmap sets fin_sets fin_maps list sorting pretty strings.
From Stdlib Require Import ZArith Lia.

Local Open Scope Z_scope.
#[local] Set Warnings "-clear-no-such-hyp".

(** ** Exceptions and results *)

Inductive exn : Type :=
  | ValueError (msg : string)
  | KeyError (key : Z)
  | IndexError
  | ZeroDivisionError.

Inductive result (A : Type) : Type :=
  | Ok (a : A)
  | Raise (e : exn)
  | OutOfFuel.
Arguments Ok {A} a.
Arguments Raise {A} e.
Arguments OutOfFuel {A}.

#[global] Instance result_ret : MRet result := λ A a, Ok a.
#[global] Instance result_bind : MBind result := λ A B f m,
  match m with
  | Ok a => f a
  | Raise e => Raise e
  | OutOfFuel => OutOfFuel
  end.
#[global] Instance result_fmap : FMap result := λ A B f m,
  match m with
  | Ok a => Ok (f a)
  | Raise e => Raise e
  | OutOfFuel => OutOfFuel
  end.

Definition is_Ok {A} (r : result A) : Prop := ∃ a, r = Ok a.
Definition raises {A} (r : result A) : Prop := ∃ e, r = Raise e.

(** A left-to-right loop over a list threading an accumulator, stopping at
    the first exception: [for x in l: acc = f(acc, x)]. *)
Fixpoint for_each {A B} (f : B → A → result B) (acc : B) (l : list A) : result B :=
  match l with
  | [] => Ok acc
  | x :: l' => acc' ← f acc x; for_each f acc' l'
  end.

(** ** Python built-ins used by the modules *)

Abbreviation dict := (gmap Z Z).

Definition len {A} (l : list A) : Z := Z.of_nat (length l).
Definition dict_len (d : dict) : Z := Z.of_nat (size d).

(** [d.items()], [d.keys()] and [d.values()] seen as sets or lists. *)
Definition items (d : dict) : list (Z * Z) := map_to_list d.
Definition keys (d : dict) : gset Z := dom d.
Definition values (d : dict) : gset Z := map_img d.

(** [dict(pairs)] and dict comprehensions: later bindings overwrite
    earlier ones. *)
Definition py_dict (l : list (Z * Z)) : dict :=
  foldl (λ d kv, <[kv.1 := kv.2]> d) ∅ l.

(** [d[k]]. *)
Definition getitem (d : dict) (k : Z) : result Z :=
  match d !! k with
  | Some v => Ok v
  | None => Raise (KeyError k)
  end.

(** [print]: the text goes to the console and is no part of any value. *)
Definition print (msg : string) : result unit := Ok tt.

(** [math.factorial]. *)
Definition math_factorial (m : Z) : result Z :=
  if decide (m < 0) then Raise (ValueError "factorial() not defined for negative values")
  else Ok (Z.of_nat (fact (Z.to_nat m))).

(** [a // b]. *)
Definition floordiv (a b : Z) : result Z :=
  if decide (b = 0) then Raise ZeroDivisionError else Ok (a `div` b).

(** Tuples of integers compare lexicographically. *)
Definition item_le (a b : Z * Z) : Prop :=
  a.1 < b.1 ∨ (a.1 = b.1 ∧ a.2 ≤ b.2).
#[global] Instance item_le_dec : RelDecision item_le.
Proof. intros a b. unfold item_le. apply _. Defined.

(** [sorted(...)] on integers and on pairs of integers. *)
Definition sorted_ints (l : list Z) : list Z := merge_sort Z.le l.
Definition sorted_items (l : list (Z * Z)) : list (Z * Z) := merge_sort item_le l.

(** [list.sort(key=...)] is a stable sort on the keys. *)
Fixpoint insert_by_key {A} (kx : Z) (x : A) (l : list (Z * A)) : list (Z * A) :=
  match l with
  | [] => [(kx, x)]
  | (ky, y) :: l' =>
      if decide (kx ≤ ky) then (kx, x) :: (ky, y) :: l'
      else (ky, y) :: insert_by_key kx x l'
  end.
Definition stable_sort_keyed {A} (l : list (Z * A)) : list A :=
  (foldr (λ p acc, insert_by_key p.1 p.2 acc) [] l).*2.

(** [itertools.permutations(iterable, r)]: the [r]-length arrangements of
    the elements of the iterable, in lexicographic order of positions. *)
Fixpoint selections {A} (l : list A) : list (A * list A) :=
  match l with
  | [] => []
  | x :: l' => (x, l') :: (prod_map id (cons x) <$> selections l')
  end.
Fixpoint arrangements {A} (r : nat) (l : list A) : list (list A) :=
  match r with
  | O => [[]]
  | S r' => p ← selections l; cons p.1 <$> arrangements r' p.2
  end.
Definition itertools_permutations {A} (l : list A) : list (list A) :=
  arrangements (length l) l.

(** [l[i]] for a non-negative index. *)
Definition list_getitem {A} (l : list A) (i : nat) : result A :=
  match l !! i with
  | Some x => Ok x
  | None => Raise IndexError
  end.

(** [[x for x in l if cond(x)]] where the condition may raise. *)
Fixpoint filter_result {A} (cond : A → result bool) (l : list A) : result (list A) :=
  match l with
  | [] => Ok []
  | x :: l' =>
      b ← cond x;
      rest ← filter_result cond l';
      Ok (if b : bool then x :: rest else rest)
  end.

(** ** permutations.py *)

Module Permutations.

(** [make_permutation(mapping)] *)
Definition make_permutation (mapping : dict) : result dict :=
  let keys := keys mapping in
  let values := values mapping in
  if decide (keys ≠ values) then
    Raise (ValueError "Not a valid permutation: domain != codomain")
  else Ok mapping.

(** [identity(n)] *)
Definition identity (n : Z) : dict :=
  py_dict ((λ i, (i, i)) <$> seqZ 1 n).

(** [compose(sigma, tau)] *)
Definition compose (sigma tau : dict) : result dict :=
  if decide (keys sigma ≠ keys tau) then
    Raise (ValueError "Permutations must be defined on the same set.")
  else
    py_dict <$> mapM (λ it, v ← getitem sigma it.2; Ok (it.1, v)) (items tau).

(** [inverse(sigma)] *)
Definition inverse (sigma : dict) : dict :=
  py_dict ((λ kv, (kv.2, kv.1)) <$> items sigma).

(** [power(sigma, k)] *)
Definition power (sigma : dict) (k : Z) : result dict :=
  let n := dict_len sigma in
  let result := identity n in
  if decide (k = 0) then Ok result
  else
    let base := if decide (k > 0) then sigma else inverse sigma in
    for_each (λ result _, compose result base) result (seqZ 0 (Z.abs k)).

(** [order(sigma)]: the [while] loop runs on fuel. *)
Fixpoint order_loop (fuel : nat) (sigma e current : dict) (k : Z) : result Z :=
  if decide (current ≠ e) then
    match fuel with
    | O => OutOfFuel
    | S fuel' =>
        current' ← compose current sigma;
        order_loop fuel' sigma e current' (k + 1)
    end
  else Ok k.
Definition order (fuel : nat) (sigma : dict) : result Z :=
  let n := dict_len sigma in
  let e := identity n in
  order_loop fuel sigma e sigma 1.

(** [generate_Sn(n)] *)
Definition generate_Sn (n : Z) : list dict :=
  (λ perm, py_dict (zip (seqZ 1 n) perm)) <$> itertools_permutations (seqZ 1 n).

(** [to_cycles(sigma)].  The inner [while] extends [visited] by a key of
    [sigma] at every turn that does not raise, so [S (size sigma)] turns
    always suffice (lemma [walk_fuel] below). *)
Fixpoint walk (fuel : nat) (sigma : dict) (visited : gset Z) (cycle : list Z)
    (current : Z) : result (gset Z * list Z) :=
  if decide (current ∉ visited) then
    match fuel with
    | O => OutOfFuel
    | S fuel' =>
        nxt ← getitem sigma current;
        walk fuel' sigma ({[current]} ∪ visited) (cycle ++ [current]) nxt
    end
  else Ok (visited, cycle).

Definition to_cycles_step (sigma : dict) (st : gset Z * list (list Z)) (start : Z)
    : result (gset Z * list (list Z)) :=
  let '(visited, cycles) := st in
  if decide (start ∈ visited) then Ok st
  else
    vc ← walk (S (size sigma)) sigma visited [] start;
    Ok (vc.1, if decide (len vc.2 > 1) then cycles ++ [vc.2] else cycles).

Definition to_cycles (sigma : dict) : result (list (list Z)) :=
  snd <$> for_each (to_cycles_step sigma) (∅, []) (sorted_ints (elements (keys sigma))).

(** [cycle_notation_str(sigma)] *)
Definition join (sep : string) (l : list string) : string :=
  match l with
  | [] => ""
  | s :: l' => foldl (λ acc t, acc +:+ sep +:+ t) s l'
  end.
Definition cycle_str (c : list Z) : string :=
  "(" +:+ join " " (pretty <$> c) +:+ ")".
Definition cycle_notation_str (sigma : dict) : result string :=
  cycles ← to_cycles sigma;
  match cycles with
  | [] => Ok "e"
  | _ => Ok (join "" (cycle_str <$> cycles))
  end.

(** [is_subgroup(subset, n)] *)
Definition canonical (s : dict) : list (Z * Z) := sorted_items (items s).

Definition closure_check (subset_set : list (list (Z * Z))) (s t : dict)
    : result bool :=
  st ← compose s t;
  if decide (canonical st ∉ subset_set) then
    a ← cycle_notation_str s;
    b ← cycle_notation_str t;
    c ← cycle_notation_str st;
    _ ← print ("  [FAIL] Not closed: " +:+ a +:+ " ∘ " +:+ b +:+ " = " +:+ c
               +:+ " not in subset.");
    Ok false
  else Ok true.

Definition inverse_check (subset_set : list (list (Z * Z))) (s : dict)
    : result bool :=
  let inv_s := inverse s in
  if decide (canonical inv_s ∉ subset_set) then
    a ← cycle_notation_str s;
    _ ← print ("  [FAIL] Inverse of " +:+ a +:+ " not in subset.");
    Ok false
  else Ok true.

(** [for x in l: if not check(x): return False], answering whether the
    loop ran to its end. *)
Fixpoint all_pass {A} (check : A → result bool) (l : list A) : result bool :=
  match l with
  | [] => Ok true
  | x :: l' => b ← check x; if b : bool then all_pass check l' else Ok false
  end.

Definition is_subgroup (subset : list dict) (n : Z) : result bool :=
  let e := identity n in
  let subset_set := canonical <$> subset in
  if decide (canonical e ∉ subset_set) then
    _ ← print "  [FAIL] Identity not in subset."; Ok false
  else
    closed ← all_pass (λ s, all_pass (closure_check subset_set s) subset) subset;
    if closed : bool then all_pass (inverse_check subset_set) subset
    else Ok false.

End Permutations.

(** ** stabilizer.py *)

Module Stabilizer.
Import Permutations.

(** [compute_stabilizer(Sn, fixed_point)] *)
Fixpoint compute_stabilizer (Sn : list dict) (fixed_point : Z) : result (list dict) :=
  match Sn with
  | [] => Ok []
  | sigma :: Sn' =>
      v ← getitem sigma fixed_point;
      rest ← compute_stabilizer Sn' fixed_point;
      Ok (if decide (v = fixed_point) then sigma :: rest else rest)
  end.

(** [compute_orbit(Sn, point)] *)
Definition compute_orbit (Sn : list dict) (point : Z) : result (gset Z) :=
  list_to_set <$> mapM (λ sigma, getitem sigma point) Sn.

(** [left_coset(sigma, subgroup)] *)
Definition left_coset (sigma : dict) (subgroup : list dict) : result (list dict) :=
  mapM (λ h, compose sigma h) subgroup.

(** [coset_decomposition(Sn, subgroup)] *)
Definition perm_key (sigma : dict) : list (Z * Z) := sorted_items (items sigma).

Definition coset_step (subgroup : list dict)
    (st : gset (list (Z * Z)) * list (list dict)) (sigma : dict)
    : result (gset (list (Z * Z)) * list (list dict)) :=
  let '(covered, cosets) := st in
  let key := perm_key sigma in
  if decide (key ∉ covered) then
    coset ← left_coset sigma subgroup;
    Ok (foldl (λ cov element, {[perm_key element]} ∪ cov) covered coset,
        cosets ++ [coset])
  else Ok st.

Definition coset_sort_key (subgroup_keys : gset (list (Z * Z))) (c : list dict)
    : result Z :=
  match c with
  | [] => Raise IndexError
  | c0 :: _ => Ok (if decide (perm_key c0 ∈ subgroup_keys) then 0 else 1)
  end.

Definition coset_decomposition (Sn subgroup : list dict) : result (list (list dict)) :=
  let subgroup_keys : gset (list (Z * Z)) := list_to_set (perm_key <$> subgroup) in
  st ← for_each (coset_step subgroup) (∅, []) Sn;
  let cosets := st.2 in
  ks ← mapM (coset_sort_key subgroup_keys) cosets;
  Ok (stable_sort_keyed (zip ks cosets)).

(** [verify_stabilizer(n, fixed_point, verbose)] *)
Definition mark (b : bool) : string := if b then "✓" else "✗".
Definition newline : string := String (Ascii.ascii_of_nat 10) EmptyString.
Definition rule : string := Nat.iter 55 (String.append "=") "".
Definition report (verbose : bool) (msg : string) : result unit :=
  if verbose then print msg else Ok tt.

Definition verify_stabilizer (n fixed_point : Z) (verbose : bool) : result bool :=
  let Sn := generate_Sn n in
  stab ← compute_stabilizer Sn fixed_point;
  orb ← compute_orbit Sn fixed_point;
  _ ← report verbose (newline +:+ rule);
  _ ← report verbose ("Stabilizer Verification  —  n = " +:+ pretty n +:+ ",  x = "
                      +:+ pretty fixed_point);
  _ ← report verbose rule;
  sub_check ← is_subgroup stab n;
  _ ← report verbose ("  [" +:+ mark sub_check +:+ "] Stab(" +:+ pretty fixed_point
                      +:+ ") is a subgroup of S_" +:+ pretty n);
  expected_order ← math_factorial (n - 1);
  let order_check := bool_decide (len stab = expected_order) in
  _ ← report verbose ("  [" +:+ mark order_check +:+ "] |Stab(" +:+ pretty fixed_point
                      +:+ ")| = " +:+ pretty (len stab) +:+ "  (expected "
                      +:+ pretty expected_order +:+ " = (" +:+ pretty n +:+ "-1)!)");
  let os_check := bool_decide (len Sn = Z.of_nat (size orb) * len stab) in
  _ ← report verbose ("  [" +:+ mark os_check +:+ "] Orbit-Stabilizer: |S_" +:+ pretty n
                      +:+ "| = |Orb| × |Stab|  →  " +:+ pretty (len Sn) +:+ " = "
                      +:+ pretty (Z.of_nat (size orb)) +:+ " × " +:+ pretty (len stab));
  index ← floordiv (len Sn) (len stab);
  let index_check := bool_decide (index = n) in
  _ ← report verbose ("  [" +:+ mark index_check +:+ "] Index [S_" +:+ pretty n
                      +:+ " : Stab(" +:+ pretty fixed_point +:+ ")] = " +:+ pretty index
                      +:+ "  (expected " +:+ pretty n +:+ ")");
  cosets ← coset_decomposition Sn stab;
  let coset_check := bool_decide (len cosets = n)
                     && bool_decide (foldr Z.add 0 (len <$> cosets) = len Sn) in
  _ ← report verbose ("  [" +:+ mark coset_check +:+ "] Coset decomposition: "
                      +:+ pretty (len cosets) +:+ " cosets × " +:+ pretty (len stab)
                      +:+ " elements = " +:+ pretty (len Sn));
  Ok (forallb id [sub_check; order_check; os_check; index_check; coset_check]).

(** [print_cosets(n, fixed_point)] *)
Definition print_cosets_entry (fixed_point : Z) (idx : Z) (coset : list dict)
    : result unit :=
  label ←
    (if decide (idx = 0) then
       Ok ("Stab(" +:+ pretty fixed_point +:+ ")       ← admissible (mutex respected)")
     else
       rep ← list_getitem coset 0;
       occupant ← getitem rep fixed_point;
       Ok ("coset " +:+ pretty idx +:+ "  ← VIOLATION: process " +:+ pretty occupant
           +:+ " in slot " +:+ pretty fixed_point));
  elements ← mapM cycle_notation_str coset;
  _ ← print ("  " +:+ label);
  print ("    { " +:+ join ",  " elements +:+ " }" +:+ newline).

Definition print_cosets (n fixed_point : Z) : result unit :=
  let Sn := generate_Sn n in
  stab ← compute_stabilizer Sn fixed_point;
  cosets ← coset_decomposition Sn stab;
  _ ← print (newline +:+ "Coset decomposition of S_" +:+ pretty n +:+ " by Stab("
             +:+ pretty fixed_point +:+ "):" +:+ newline);
  for_each (λ _ ic, print_cosets_entry fixed_point ic.1 ic.2) tt
    (zip (seqZ 0 (len cosets)) cosets).

End Stabilizer.


(** ** scheduler_model.py

    The module [cyclic_group] is an external collaborator: its functions
    [generate_cyclic_subgroup] and [verify_cyclic_subgroup] are parameters
    of the definitions that call them. *)

Module Scheduler.
Import Permutations Stabilizer.

(** The attributes of a [SchedulerModel] instance. *)
Record SchedulerModel : Type := {
  self_n : Z;
  self_Sn : list dict;
  self_e : dict;
  self_stab : list dict;
  self_cyclic : list dict
}.

(** The dict returned by [classify]. *)
Record Classification : Type := {
  permutation : string;
  is_deadlock_flag : bool;
  is_mutex_flag : bool;
  is_round_robin_flag : bool
}.

(** [SchedulerModel.__init__(self, n)] *)
Definition init (generate_cyclic_subgroup : Z → result (list dict)) (n : Z)
    : result SchedulerModel :=
  if decide (n < 2) then Raise (ValueError "Need at least 2 processes (n ≥ 2).")
  else
    let Sn := generate_Sn n in
    let e := identity n in
    stab ← compute_stabilizer Sn 1;
    cyclic ← generate_cyclic_subgroup n;
    Ok {| self_n := n; self_Sn := Sn; self_e := e; self_stab := stab;
          self_cyclic := cyclic |}.

(** [scheduling_space_size(self)] and [all_schedules(self)] *)
Definition scheduling_space_size (self : SchedulerModel) : Z := len (self_Sn self).
Definition all_schedules (self : SchedulerModel) : list dict := self_Sn self.

(** [is_mutex_admissible(self, sigma, critical_slot)] *)
Definition is_mutex_admissible (self : SchedulerModel) (sigma : dict)
    (critical_slot : Z) : result bool :=
  v ← getitem sigma critical_slot;
  Ok (bool_decide (v = critical_slot)).

(** [mutex_admissible_schedules(self, critical_slot)] *)
Definition mutex_admissible_schedules (self : SchedulerModel) (critical_slot : Z)
    : result (list dict) :=
  compute_stabilizer (self_Sn self) critical_slot.

(** [is_round_robin(self, sigma)] and [round_robin_schedules(self)] *)
Definition is_round_robin (self : SchedulerModel) (sigma : dict) : bool :=
  let cyclic_keys := (λ s, sorted_items (items s)) <$> self_cyclic self in
  bool_decide (sorted_items (items sigma) ∈ cyclic_keys).
Definition round_robin_schedules (self : SchedulerModel) : list dict :=
  self_cyclic self.

(** [is_deadlock(self, sigma)] and [deadlock_state(self)] *)
Definition is_deadlock (self : SchedulerModel) (sigma : dict) : bool :=
  bool_decide (sigma = self_e self).
Definition deadlock_state (self : SchedulerModel) : dict := self_e self.

(** [classify(self, sigma)] and [classify_all(self)] *)
Definition classify (self : SchedulerModel) (sigma : dict) : result Classification :=
  p ← cycle_notation_str sigma;
  let d := is_deadlock self sigma in
  m ← is_mutex_admissible self sigma 1;
  let r := is_round_robin self sigma in
  Ok {| permutation := p; is_deadlock_flag := d; is_mutex_flag := m;
        is_round_robin_flag := r |}.

Definition classify_all (self : SchedulerModel) : result (list Classification) :=
  mapM (classify self) (self_Sn self).

(** [run_full_verification(n_values, verbose)].  The body of the loop over
    [n_values] maps the running [all_passed] to its next value. *)
Definition fixes_all (n : Z) (s : dict) : result bool :=
  all_pass (λ i, v ← getitem s i; Ok (bool_decide (v = i))) (seqZ 1 n).

Definition run_full_verification_body
    (verify_cyclic_subgroup : Z → bool → result bool) (verbose : bool)
    (all_passed : bool) (n : Z) : result bool :=
  let Sn := generate_Sn n in
  fn ← math_factorial n;
  let c1 := bool_decide (len Sn = fn) in
  c2 ← verify_stabilizer n 1 verbose;
  c3 ← verify_cyclic_subgroup n verbose;
  let e := identity n in
  fixall ← filter_result (fixes_all n) Sn;
  c4 ← (if decide (len fixall = 1) then
          f0 ← list_getitem fixall 0; Ok (bool_decide (f0 = e))
        else Ok false);
  let passed := c1 && c2 && c3 && c4 in
  let all_passed := all_passed && passed in
  _ ← (if verbose then
         fn' ← math_factorial n;
         _ ← print (newline +:+ "  Claim 1 — |S_" +:+ pretty n +:+ "| = " +:+ pretty n
                    +:+ "! = " +:+ pretty fn' +:+ ": " +:+ mark c1);
         print ("  Claim 4 — unique identity in S_" +:+ pretty n +:+ ":  " +:+ mark c4)
       else Ok tt);
  Ok all_passed.

Definition run_full_verification
    (verify_cyclic_subgroup : Z → bool → result bool)
    (n_values : option (list Z)) (verbose : bool) : result unit :=
  let n_values := match n_values with None => [2; 3; 4; 5; 6] | Some l => l end in
  _ ← print (Nat.iter 60 (String.append "=") "");
  _ ← print "  OS Synchronization as Symmetry Restrictions in S_n";
  _ ← print (Nat.iter 60 (String.append "=") "");
  all_passed ← for_each (run_full_verification_body verify_cyclic_subgroup verbose)
                 true n_values;
  _ ← print (newline +:+ Nat.iter 60 (String.append "=") "");
  _ ← (if all_passed : bool then
         print ("  All claims verified for n ∈ [" +:+ join ", " (pretty <$> n_values)
                +:+ "]  ✓")
       else print "  Some verifications FAILED.  ✗");
  print (Nat.iter 60 (String.append "=") "").

End Scheduler.

Import Permutations Stabilizer.

(** * Specification vocabulary *)

(** The set {1, ..., n}. *)
Definition domain (n : Z) : gset Z := list_to_set (seqZ 1 n).

(** The mappings [make_permutation] accepts. *)
Definition valid (sigma : dict) : Prop := keys sigma = values sigma.

(** The valid permutations on {1, ..., n}. *)
Definition perm_on (n : Z) (sigma : dict) : Prop :=
  keys sigma = domain n ∧ values sigma = domain n.

(** The pointwise composite i ↦ sigma(tau(i)). *)
Definition comp (sigma tau : dict) : dict := omap (sigma !!.) tau.

(** The [m]-fold composite of [sigma] with itself, accumulated on the left
    as the loops of [power] and [order] do, and its extension to negative
    exponents through [inverse]. *)
Definition pow (n : Z) (sigma : dict) (m : nat) : dict :=
  Nat.iter m (λ r, comp r sigma) (identity n).
Definition zpow (n : Z) (sigma : dict) (k : Z) : dict :=
  if decide (0 ≤ k) then pow n sigma (Z.to_nat k)
  else pow n (inverse sigma) (Z.to_nat (- k)).

(** [chain sigma c last]: [sigma] maps every point of [c] to the point
    listed after it, and the final point of [c] to [last]. *)
Fixpoint chain (sigma : dict) (c : list Z) (last : Z) : Prop :=
  match c with
  | [] => True
  | x :: c' => sigma !! x = Some (hd last c') ∧ chain sigma c' last
  end.

(** A cycle as [to_cycles] lists it: at least two distinct points, each
    mapped by [sigma] to the one listed next and the final one to the
    first, the first being the smallest. *)
Definition good_cycle (sigma : dict) (c : list Z) : Prop :=
  (2 ≤ length c)%nat ∧ NoDup c ∧ chain sigma c (hd 0 c) ∧ ∀ x, x ∈ c → hd 0 c ≤ x.

(** The state of the outer loop of [to_cycles] once the keys [pre] have
    been scanned. *)
Record cycles_inv (sigma : dict) (pre : list Z) (V : gset Z)
    (cycles : list (list Z)) : Prop := {
  inv_closed : ∀ i v, sigma !! i = Some v → v ∈ V → i ∈ V;
  inv_scanned : ∀ x, x ∈ pre → x ∈ V;
  inv_moved : ∀ x, x ∈ V → sigma !! x ≠ Some x → x ∈ concat cycles;
  inv_visited : ∀ x, x ∈ concat cycles → x ∈ V;
  inv_good : Forall (good_cycle sigma) cycles;
  inv_disjoint : NoDup (concat cycles);
  inv_heads : ∀ c, c ∈ cycles → hd 0 c ∈ pre;
  inv_sorted : StronglySorted Z.lt (hd 0 <$> cycles)
}.

(** The state of the loop of [coset_decomposition] over a group of
    permutations of {1, ..., n} and a subgroup [H], once the elements
    [pre] of the group have been scanned. *)
Definition cosets_inv (n : Z) (H : list dict) (pre : list dict)
    (covered : gset (list (Z * Z))) (cosets : list (list dict)) : Prop :=
  covered = list_to_set (perm_key <$> concat cosets) ∧
  Forall (λ c, ∃ sigma, perm_on n sigma ∧ c = comp sigma <$> H) cosets ∧
  NoDup (concat cosets) ∧
  ∀ sigma, sigma ∈ pre → sigma ∈ concat cosets.

(** The transposition of [x] and [y] on {1, ..., n}. *)
Definition swap (n x y : Z) : dict := <[x := y]> (<[y := x]> (identity n)).

(** The members of a list of permutations that fix [x]. *)
Definition fixing (x : Z) (Sn : list dict) : list dict :=
  filter (λ sigma, sigma !! x = Some x) Sn.

(** * Verification *)

(** ** The result monad and the loops *)

Lemma bind_Ok {A B} (m : result A) (k : A → result B) b :
  m ≫= k = Ok b ↔ ∃ a, m = Ok a ∧ k a = Ok b.
Proof.
  destruct m as [a| |]; simpl; split; try (intros (? & ? & ?)); try done.
  - eauto.
  - by simplify_eq.
Qed.

Lemma fmap_Ok {A B} (g : A → B) (m : result A) b :
  g <$> m = Ok b ↔ ∃ a, m = Ok a ∧ b = g a.
Proof.
  destruct m as [a| |]; simpl; split; try (intros (? & ? & ?)); try done.
  - intros [= <-]. eauto.
  - by simplify_eq.
Qed.

Section result_facts.
Context {A B : Type}.
Implicit Types (f : A → result B) (l : list A).

Lemma mapM_Ok f l k :
  mapM f l = Ok k ↔ Forall2 (λ x y, f x = Ok y) l k.
Proof.
  revert k. induction l as [|x l IH]; intros k; simpl.
  - split; [intros [= <-]; constructor | by inversion 1].
  - split.
    + intros (y & Hy & (k' & Hk' & [= <-])%bind_Ok)%bind_Ok.
      constructor; [done | by apply IH].
    + inversion 1 as [|? y ? k' Hy Hk']; simplify_eq.
      change (f x ≫= (λ y, mapM f l ≫= λ k, Ok (y :: k)) = Ok (y :: k')).
      rewrite Hy. simpl. apply IH in Hk'. by rewrite Hk'.
Qed.

Lemma mapM_Ok_total f (g : A → B) l :
  (∀ x, x ∈ l → f x = Ok (g x)) → mapM f l = Ok (g <$> l).
Proof.
  intros Hf. apply mapM_Ok. induction l as [|x l IH]; csimpl; constructor.
  - apply Hf. left.
  - apply IH. intros y Hy. apply Hf. by right.
Qed.

Lemma mapM_no_fuel f l :
  (∀ x, x ∈ l → f x ≠ OutOfFuel) → mapM f l ≠ OutOfFuel.
Proof.
  induction l as [|x l IH]; intros Hf; [done|].
  change (f x ≫= (λ y, mapM f l ≫= λ k, Ok (y :: k)) ≠ OutOfFuel).
  destruct (f x) eqn:Hx; simpl; [|done|].
  - destruct (mapM f l) eqn:Hl; simpl; try done.
    exfalso. apply IH; [|done]. intros y Hy. apply Hf. by right.
  - exfalso. by apply (Hf x); [left|].
Qed.
End result_facts.

(** ** Dictionaries *)

Lemma py_dict_foldl (d : dict) l :
  foldl (λ d kv, <[kv.1 := kv.2]> d) d l = list_to_map (reverse l) ∪ d.
Proof.
  revert d. induction l as [|[k v] l IH]; intros d; simpl.
  - by rewrite (left_id_L ∅ (∪)).
  - rewrite IH, reverse_cons, list_to_map_app. simpl.
    rewrite <-(assoc_L (∪)). f_equal.
    by rewrite insert_empty, <-insert_union_singleton_l.
Qed.

Lemma py_dict_list_to_map l :
  NoDup l.*1 → py_dict l = list_to_map l.
Proof.
  intros Hl. unfold py_dict. rewrite py_dict_foldl, (right_id_L ∅ (∪)).
  apply list_to_map_proper; [|apply reverse_Permutation].
  by rewrite fmap_reverse, reverse_Permutation.
Qed.

Lemma lookup_py_dict l k v :
  NoDup l.*1 → py_dict l !! k = Some v ↔ (k, v) ∈ l.
Proof.
  intros Hl. rewrite py_dict_list_to_map by done.
  by rewrite <-elem_of_list_to_map.
Qed.

Lemma getitem_Ok (d : dict) k v : getitem d k = Ok v ↔ d !! k = Some v.
Proof. unfold getitem. destruct (d !! k); split; congruence. Qed.

Lemma getitem_no_fuel (d : dict) k : getitem d k ≠ OutOfFuel.
Proof. unfold getitem. by destruct (d !! k). Qed.

(** ** Valid mappings are bijections of their key set *)

Lemma values_list_NoDup (sigma : dict) :
  valid sigma → NoDup (items sigma).*2.
Proof.
  intros Hv. unfold items.
  apply NoDup_ListNoDup.
  apply (@NoDup_incl_NoDup _ (elements (dom sigma))).
  - apply NoDup_ListNoDup, NoDup_elements.
  - rewrite length_fmap, length_map_to_list.
    pose proof (size_dom sigma) as Hs. unfold size at 1, set_size in Hs.
    simpl in Hs. lia.
  - intros k Hk%list_elem_of_In%elem_of_elements. apply list_elem_of_In.
    unfold valid, keys, values in Hv. rewrite Hv in Hk.
    apply elem_of_map_img in Hk as [i Hi].
    apply list_elem_of_fmap. exists (i, k). split; [done|].
    by apply elem_of_map_to_list.
Qed.

Lemma valid_inj (sigma : dict) i j v :
  valid sigma → sigma !! i = Some v → sigma !! j = Some v → i = j.
Proof.
  intros Hv Hi%elem_of_map_to_list Hj%elem_of_map_to_list.
  apply list_elem_of_lookup in Hi as [p Hp], Hj as [q Hq].
  pose proof (values_list_NoDup sigma Hv) as Hnd. unfold items in Hnd.
  assert (p = q) as ->.
  { eapply (NoDup_lookup _ p q v Hnd);
      rewrite list_lookup_fmap; [by rewrite Hp | by rewrite Hq]. }
  congruence.
Qed.

Lemma valid_closed (sigma : dict) i v :
  valid sigma → sigma !! i = Some v → is_Some (sigma !! v).
Proof.
  intros Hv Hi. apply elem_of_dom. unfold valid, keys, values in Hv.
  rewrite Hv. by eapply elem_of_map_img_2.
Qed.

Lemma perm_on_valid n sigma : perm_on n sigma → valid sigma.
Proof. intros [H1 H2]. unfold valid. congruence. Qed.

Lemma elem_of_domain n i : i ∈ domain n ↔ 1 ≤ i ≤ n.
Proof. unfold domain. rewrite elem_of_list_to_set, elem_of_seqZ. lia. Qed.

Lemma perm_on_lookup n sigma i :
  perm_on n sigma → 1 ≤ i ≤ n → ∃ v, sigma !! i = Some v ∧ 1 ≤ v ≤ n.
Proof.
  intros [Hk Hv] Hi%elem_of_domain. unfold keys, values in *. rewrite <-Hk in Hi.
  apply elem_of_dom in Hi as [v Hi]. exists v. split; [done|].
  apply elem_of_domain. rewrite <-Hv. by eapply elem_of_map_img_2.
Qed.

Lemma perm_on_lookup_Some n sigma i v :
  perm_on n sigma → sigma !! i = Some v → 1 ≤ i ≤ n ∧ 1 ≤ v ≤ n.
Proof.
  intros [Hk Hv] Hi. unfold keys, values in *.
  rewrite <-!elem_of_domain, <-Hk at 1. rewrite <-Hv. split.
  - apply elem_of_dom; eauto.
  - by eapply elem_of_map_img_2.
Qed.

(** ** [compose] computes the pointwise composite *)

Lemma lookup_comp sigma tau i :
  comp sigma tau !! i = tau !! i ≫= (sigma !!.).
Proof. unfold comp. apply lookup_omap. Qed.

Lemma compose_comp sigma tau :
  keys sigma = keys tau →
  (∀ i t, tau !! i = Some t → is_Some (sigma !! t)) →
  compose sigma tau = Ok (comp sigma tau).
Proof.
  intros Hk Hcl. unfold compose. rewrite decide_False by (by intros ?).
  rewrite (mapM_Ok_total _ (λ it, (it.1, sigma !!! it.2))).
  - simpl. f_equal. apply map_eq. intros i. apply option_eq. intros v.
    rewrite lookup_py_dict.
    + rewrite lookup_comp, bind_Some, list_elem_of_fmap. split.
      * intros ([i' t] & [= -> ->] & Hit%elem_of_map_to_list). simpl.
        exists t. split; [done|]. destruct (Hcl _ _ Hit) as [w Hw].
        by rewrite (lookup_total_correct _ _ _ Hw).
      * intros (t & Hit & Hv). exists (i, t). simpl.
        rewrite (lookup_total_correct _ _ _ Hv). split; [done|].
        by apply elem_of_map_to_list.
    + rewrite <-list_fmap_compose. apply NoDup_fst_map_to_list.
  - intros [i t] Hit%elem_of_map_to_list. simpl.
    destruct (Hcl _ _ Hit) as [w Hw].
    rewrite (lookup_total_correct _ _ _ Hw).
    apply getitem_Ok in Hw. by rewrite Hw.
Qed.

Lemma compose_Ok_inv sigma tau rho :
  compose sigma tau = Ok rho →
  keys sigma = keys tau ∧ rho = comp sigma tau ∧
  ∀ i t, tau !! i = Some t → is_Some (sigma !! t).
Proof.
  intros Hc. pose proof Hc as Hc'. unfold compose in Hc.
  destruct (decide (keys sigma ≠ keys tau)) as [|Hk]; [done|].
  apply dec_stable in Hk.
  apply fmap_Ok in Hc as (l & Hl & ->). apply mapM_Ok in Hl.
  assert (∀ i t, tau !! i = Some t → is_Some (sigma !! t)) as Hcl.
  { intros i t Hit%elem_of_map_to_list.
    apply list_elem_of_lookup_1 in Hit as [p Hp].
    destruct (Forall2_lookup_l _ _ _ _ _ Hl Hp) as (y & _ & Hy).
    apply bind_Ok in Hy as (v & Hv%getitem_Ok & _). eauto. }
  rewrite (compose_comp sigma tau Hk Hcl) in Hc'. by simplify_eq.
Qed.

Lemma compose_no_fuel sigma tau : compose sigma tau ≠ OutOfFuel.
Proof.
  unfold compose. case_decide; [done|].
  intros H'. destruct (mapM _ _) eqn:Hm; try done.
  revert Hm. apply mapM_no_fuel. intros [i t] _. simpl.
  pose proof (getitem_no_fuel sigma t). by destruct (getitem sigma t).
Qed.

Lemma compose_mismatch sigma tau :
  keys sigma ≠ keys tau →
  compose sigma tau = Raise (ValueError "Permutations must be defined on the same set.").
Proof. intros Hk. unfold compose. by rewrite decide_True. Qed.

Lemma compose_valid sigma tau :
  valid sigma → valid tau → keys sigma = keys tau →
  compose sigma tau = Ok (comp sigma tau).
Proof.
  intros Hs Ht Hk. apply compose_comp; [done|].
  intros i t Hit. apply elem_of_dom. unfold keys in Hk. rewrite Hk.
  apply elem_of_dom. by eapply valid_closed.
Qed.

(** ** The group laws *)

Lemma comp_assoc sigma tau rho :
  comp (comp sigma tau) rho = comp sigma (comp tau rho).
Proof.
  apply map_eq. intros i. rewrite !lookup_comp.
  destruct (rho !! i) as [r|]; simpl; [|done]. by rewrite lookup_comp.
Qed.

Lemma lookup_identity n i :
  identity n !! i = if decide (1 ≤ i ≤ n) then Some i else None.
Proof.
  unfold identity. apply option_eq. intros v.
  assert (NoDup ((λ i, (i, i)) <$> seqZ 1 n).*1) as Hnd.
  { rewrite <-list_fmap_compose. rewrite (list_fmap_ext _ id (seqZ 1 n)) by done.
    rewrite list_fmap_id. apply NoDup_seqZ. }
  rewrite lookup_py_dict by done. rewrite list_elem_of_fmap. split.
  - intros (j & Heq & Hj%elem_of_seqZ). simplify_eq.
    rewrite decide_True by lia. done.
  - case_decide; [|done]. intros [= <-]. exists i. split; [done|].
    apply elem_of_seqZ. lia.
Qed.

Lemma lookup_identity_Some n i v :
  identity n !! i = Some v ↔ v = i ∧ 1 ≤ i ≤ n.
Proof.
  rewrite lookup_identity. destruct (decide (1 ≤ i ≤ n)); split.
  - by intros [= ->].
  - by intros [-> _].
  - done.
  - by intros [_ ?].
Qed.

Lemma dom_identity n : dom (identity n) = domain n.
Proof.
  apply set_eq. intros i. rewrite elem_of_dom, elem_of_domain, lookup_identity.
  destruct (decide (1 ≤ i ≤ n)); split; intros H'; try done.
Qed.

Lemma perm_on_identity n : perm_on n (identity n).
Proof.
  split; [apply dom_identity|]. unfold values.
  apply set_eq. intros i. rewrite elem_of_map_img, elem_of_domain. split.
  - intros (j & Hj%lookup_identity_Some). lia.
  - intros Hi. exists i. by apply lookup_identity_Some.
Qed.

Lemma comp_identity_r n sigma :
  keys sigma = domain n → comp sigma (identity n) = sigma.
Proof.
  intros Hk. apply map_eq. intros i. rewrite lookup_comp, lookup_identity.
  destruct (decide (1 ≤ i ≤ n)) as [Hi|Hi]; simpl; [done|].
  symmetry. apply not_elem_of_dom. unfold keys in Hk.
  by rewrite Hk, elem_of_domain.
Qed.

Lemma comp_identity_l n sigma :
  values sigma = domain n → comp (identity n) sigma = sigma.
Proof.
  intros Hv. apply map_eq. intros i. rewrite lookup_comp.
  destruct (sigma !! i) as [v|] eqn:Hi; simpl; [|done].
  apply lookup_identity_Some. split; [done|].
  apply elem_of_domain. rewrite <-Hv. by eapply elem_of_map_img_2.
Qed.

Lemma lookup_inverse sigma v k :
  valid sigma → inverse sigma !! v = Some k ↔ sigma !! k = Some v.
Proof.
  intros Hs. unfold inverse. rewrite lookup_py_dict.
  - rewrite list_elem_of_fmap. split.
    + intros ([k' v'] & Heq & Hkv%elem_of_map_to_list). by simplify_eq.
    + intros Hkv. exists (k, v). split; [done|]. by apply elem_of_map_to_list.
  - rewrite <-list_fmap_compose.
    rewrite (list_fmap_ext _ snd (items sigma)) by done.
    by apply values_list_NoDup.
Qed.

Lemma perm_on_inverse n sigma : perm_on n sigma → perm_on n (inverse sigma).
Proof.
  intros Hp. pose proof (perm_on_valid _ _ Hp) as Hv. destruct Hp as [Hk Him].
  unfold perm_on, keys, values in *. split; apply set_eq; intros i.
  - rewrite <-Him, elem_of_dom, elem_of_map_img. unfold is_Some.
    by setoid_rewrite (lookup_inverse sigma i _ Hv).
  - rewrite <-Hk, elem_of_dom, elem_of_map_img. unfold is_Some.
    by setoid_rewrite (λ v, lookup_inverse sigma v i Hv).
Qed.

Lemma comp_inverse_r n sigma :
  perm_on n sigma → comp sigma (inverse sigma) = identity n.
Proof.
  intros Hp. pose proof (perm_on_valid _ _ Hp) as Hv.
  apply map_eq. intros i. apply option_eq. intros v.
  rewrite lookup_comp, bind_Some, lookup_identity_Some.
  setoid_rewrite (lookup_inverse sigma i _ Hv). split.
  - intros (k & Hk1 & Hk2). simplify_eq. split; [done|].
    by apply (perm_on_lookup_Some n sigma k i).
  - intros [-> Hi]. destruct Hp as [_ Him]. unfold values in Him.
    apply elem_of_domain in Hi. rewrite <-Him in Hi.
    apply elem_of_map_img in Hi as [k Hk]. eauto.
Qed.

Lemma comp_inverse_l n sigma :
  perm_on n sigma → comp (inverse sigma) sigma = identity n.
Proof.
  intros Hp. pose proof (perm_on_valid _ _ Hp) as Hv.
  apply map_eq. intros i. apply option_eq. intros v.
  rewrite lookup_comp, bind_Some, lookup_identity_Some.
  setoid_rewrite (lookup_inverse sigma _ v Hv). split.
  - intros (k & Hk1 & Hk2). split.
    + by eapply valid_inj.
    + by apply (perm_on_lookup_Some n sigma i k).
  - intros [-> Hi]. destruct (perm_on_lookup n sigma i Hp Hi) as (w & Hw & _). eauto.
Qed.

Lemma perm_on_comp n sigma tau :
  perm_on n sigma → perm_on n tau → perm_on n (comp sigma tau).
Proof.
  intros Hs Ht. unfold perm_on, keys, values. split; apply set_eq; intros i.
  - rewrite elem_of_dom, elem_of_domain, lookup_comp. split.
    + intros [v (t & Ht' & _)%bind_Some]. by apply (perm_on_lookup_Some n tau i t).
    + intros Hi. destruct (perm_on_lookup n tau i Ht Hi) as (t & Hit & Hrt).
      destruct (perm_on_lookup n sigma t Hs Hrt) as (v & Htv & _).
      exists v. rewrite Hit. done.
  - rewrite elem_of_map_img, elem_of_domain. setoid_rewrite lookup_comp. split.
    + intros [k (t & _ & Htv)%bind_Some]. by apply (perm_on_lookup_Some n sigma t i).
    + intros Hi. destruct Hs as [Hsk Hsv]. unfold values in Hsv.
      apply elem_of_domain in Hi. rewrite <-Hsv in Hi.
      apply elem_of_map_img in Hi as [t Hti].
      assert (1 ≤ t ≤ n) as Ht'.
      { apply elem_of_domain. unfold keys in Hsk. rewrite <-Hsk. apply elem_of_dom. eauto. }
      destruct Ht as [Htk Htv]. unfold values in Htv.
      apply elem_of_domain in Ht'. rewrite <-Htv in Ht'.
      apply elem_of_map_img in Ht' as [k Hkt].
      exists k. by rewrite Hkt.
Qed.

Lemma compose_perm_on n sigma tau :
  perm_on n sigma → perm_on n tau → compose sigma tau = Ok (comp sigma tau).
Proof.
  intros Hs Ht. apply compose_valid; [by eapply perm_on_valid..|].
  destruct Hs as [-> _], Ht as [-> _]. done.
Qed.

(** ** Construction and composition *)

(** C10: [make_permutation] raises exactly when the key set of the mapping
    differs from its value set, and otherwise returns an equal copy of the
    mapping.  The key set need not be {1, ..., n}: the mapping {5: 7, 7: 5}
    is accepted although its key set is no [domain n]. *)
Theorem make_permutation_accepts_iff (mapping : dict) :
  (keys mapping = values mapping ↔ make_permutation mapping = Ok mapping) ∧
  (keys mapping ≠ values mapping ↔ raises (make_permutation mapping)) ∧
  make_permutation {[5 := 7; 7 := 5]} = Ok {[5 := 7; 7 := 5]} ∧
  ∀ n, keys ({[5 := 7; 7 := 5]} : dict) ≠ domain n.
Proof.
  unfold make_permutation, raises. repeat split.
  - intros Hk. by rewrite decide_False by (by intros ?).
  - by case_decide as Hk.
  - intros Hk. rewrite decide_True by done. eauto.
  - case_decide as Hk; [done|]. by intros [? ?].
  - intros n Hk. unfold keys in Hk.
    assert (5 ∈ domain n) as H5%elem_of_domain.
    { rewrite <-Hk. apply elem_of_dom. by eexists. }
    assert (2 ∈ domain n) as H2 by (apply elem_of_domain; lia).
    rewrite <-Hk in H2. apply elem_of_dom in H2 as [v Hv]. done.
Qed.

(** C7: on valid mappings with one key set, [compose sigma tau] is the
    mapping i ↦ sigma(tau(i)) on that key set (tau first, sigma second);
    on valid mappings with different key sets it raises the domain
    mismatch error, and it raises in no other case. *)
Theorem compose_spec (sigma tau : dict) :
  valid sigma → valid tau →
  (keys sigma = keys tau →
     ∃ rho, compose sigma tau = Ok rho ∧ keys rho = keys tau ∧
       ∀ i, i ∈ keys tau →
         ∃ t v, tau !! i = Some t ∧ sigma !! t = Some v ∧ rho !! i = Some v) ∧
  (keys sigma ≠ keys tau →
     compose sigma tau =
       Raise (ValueError "Permutations must be defined on the same set.")) ∧
  (raises (compose sigma tau) ↔ keys sigma ≠ keys tau).
Proof.
  intros Hs Ht. split; [|split].
  - intros Hk. exists (comp sigma tau). split; [by apply compose_valid|].
    unfold keys in *.
    assert (∀ i, i ∈ keys tau →
      ∃ t v, tau !! i = Some t ∧ sigma !! t = Some v ∧ comp sigma tau !! i = Some v)
      as Hpt.
    { intros i Hi. unfold keys in Hi. apply elem_of_dom in Hi as [t Hit].
      assert (is_Some (sigma !! t)) as [v Htv].
      { apply elem_of_dom. rewrite Hk. apply elem_of_dom.
        by eapply valid_closed. }
      exists t, v. rewrite lookup_comp, Hit. done. }
    split; [|done]. apply set_eq. intros i. split.
    + intros [v Hv]%elem_of_dom. rewrite lookup_comp in Hv.
      apply bind_Some in Hv as (t & Hit & _). apply elem_of_dom. eauto.
    + intros Hi. destruct (Hpt i Hi) as (t & v & _ & _ & Hv). apply elem_of_dom. eauto.
  - apply compose_mismatch.
  - split.
    + intros [e He] Hk. by rewrite compose_valid in He.
    + intros Hk. rewrite compose_mismatch by done. by eexists.
Qed.

Lemma compose_spec_witness :
  valid {[1 := 2; 2 := 1; 3 := 3]} ∧ valid {[1 := 1; 2 := 3; 3 := 2]} ∧
  (raises (compose {[1 := 2; 2 := 1; 3 := 3]} {[1 := 1; 2 := 3; 3 := 2]}) ↔
   keys ({[1 := 2; 2 := 1; 3 := 3]} : dict) ≠ keys ({[1 := 1; 2 := 3; 3 := 2]} : dict)).
Proof.
  split; [vm_compute; reflexivity|]. split; [vm_compute; reflexivity|].
  apply (compose_spec {[1 := 2; 2 := 1; 3 := 3]} {[1 := 1; 2 := 3; 3 := 2]});
    vm_compute; reflexivity.
Defined.

(** C3: on the valid permutations of {1, ..., n}, [compose] is associative,
    [identity n] is its two-sided unit and [inverse] gives two-sided
    inverses; none of the compositions involved raises. *)
Theorem compose_group_axioms (n : Z) (sigma tau rho : dict) :
  perm_on n sigma → perm_on n tau → perm_on n rho →
  (∃ r, (compose sigma tau ≫= λ st, compose st rho) = Ok r ∧
        (compose tau rho ≫= λ tr, compose sigma tr) = Ok r) ∧
  compose sigma (identity n) = Ok sigma ∧
  compose (identity n) sigma = Ok sigma ∧
  compose sigma (inverse sigma) = Ok (identity n) ∧
  compose (inverse sigma) sigma = Ok (identity n).
Proof.
  intros Hs Ht Hr.
  pose proof (perm_on_identity n) as He.
  pose proof (perm_on_inverse n sigma Hs) as Hi.
  repeat split.
  - exists (comp (comp sigma tau) rho).
    rewrite !(compose_perm_on n) by done. simpl.
    rewrite !(compose_perm_on n) by auto using perm_on_comp.
    by rewrite comp_assoc.
  - rewrite (compose_perm_on n), (comp_identity_r n) by (done || apply Hs). done.
  - rewrite (compose_perm_on n), (comp_identity_l n) by (done || apply Hs). done.
  - by rewrite (compose_perm_on n), (comp_inverse_r n).
  - by rewrite (compose_perm_on n), (comp_inverse_l n).
Qed.

Lemma compose_group_axioms_witness :
  perm_on 3 {[1 := 2; 2 := 1; 3 := 3]} ∧ perm_on 3 {[1 := 1; 2 := 3; 3 := 2]} ∧
  perm_on 3 {[1 := 2; 2 := 3; 3 := 1]} ∧
  compose {[1 := 2; 2 := 1; 3 := 3]} (inverse {[1 := 2; 2 := 1; 3 := 3]})
    = Ok (identity 3).
Proof.
  assert (∀ s : dict, bool_decide (perm_on 3 s) = true → perm_on 3 s) as Hd.
  { intros s. apply bool_decide_eq_true_1. }
  split; [apply Hd; vm_compute; reflexivity|].
  split; [apply Hd; vm_compute; reflexivity|].
  split; [apply Hd; vm_compute; reflexivity|].
  apply (compose_group_axioms 3 {[1 := 2; 2 := 1; 3 := 3]}
           {[1 := 1; 2 := 3; 3 := 2]} {[1 := 2; 2 := 3; 3 := 1]});
    apply Hd; vm_compute; reflexivity.
Defined.

(** ** Powers *)

Lemma pow_S n sigma m : pow n sigma (S m) = comp (pow n sigma m) sigma.
Proof. done. Qed.

Lemma perm_on_pow n sigma m : perm_on n sigma → perm_on n (pow n sigma m).
Proof.
  intros Hs. induction m as [|m IH]; [apply perm_on_identity|].
  rewrite pow_S. by apply perm_on_comp.
Qed.

Lemma pow_add n sigma a b :
  perm_on n sigma → pow n sigma (a + b) = comp (pow n sigma a) (pow n sigma b).
Proof.
  intros Hs. induction b as [|b IH].
  - rewrite Nat.add_0_r. symmetry. apply comp_identity_r.
    apply (perm_on_pow n sigma a Hs).
  - rewrite Nat.add_succ_r, !pow_S, IH. apply comp_assoc.
Qed.

Lemma pow_1 n sigma : perm_on n sigma → pow n sigma 1 = sigma.
Proof. intros Hs. apply comp_identity_l, Hs. Qed.

Lemma pow_S_l n sigma m :
  perm_on n sigma → pow n sigma (S m) = comp sigma (pow n sigma m).
Proof.
  intros Hs. change (S m) with (1 + m)%nat. by rewrite pow_add, pow_1.
Qed.

Lemma pow_mul n sigma m q :
  perm_on n sigma → pow n sigma m = identity n → pow n sigma (q * m) = identity n.
Proof.
  intros Hs Hm. induction q as [|q IH]; [done|].
  simpl. rewrite pow_add, Hm, IH by done. apply comp_identity_r, dom_identity.
Qed.

(** Powers of two mutually inverse permutations cancel. *)
Lemma pow_cancel n sigma tau m :
  perm_on n sigma → perm_on n tau → comp sigma tau = identity n →
  comp (pow n sigma m) (pow n tau m) = identity n.
Proof.
  intros Hs Ht Hst. induction m as [|m IH].
  - apply comp_identity_r, dom_identity.
  - rewrite pow_S, (pow_S_l n tau) by done.
    rewrite comp_assoc, <-(comp_assoc sigma), Hst.
    rewrite (comp_identity_l n); [done|]. apply (perm_on_pow n tau m Ht).
Qed.

Lemma pow_mixed n sigma tau p q :
  perm_on n sigma → perm_on n tau → comp sigma tau = identity n →
  comp (pow n sigma p) (pow n tau q) =
    if decide (q ≤ p)%nat then pow n sigma (p - q) else pow n tau (q - p).
Proof.
  intros Hs Ht Hst. case_decide as Hpq.
  - replace p with ((p - q) + q)%nat at 1 by lia.
    rewrite pow_add, comp_assoc, pow_cancel by done.
    apply comp_identity_r. apply (perm_on_pow n sigma _ Hs).
  - replace q with (p + (q - p))%nat at 1 by lia.
    rewrite (pow_add n tau), <-comp_assoc, pow_cancel by done.
    apply comp_identity_l. apply (perm_on_pow n tau _ Ht).
Qed.

Lemma zpow_add n sigma a b :
  perm_on n sigma →
  zpow n sigma (a + b) = comp (zpow n sigma a) (zpow n sigma b).
Proof.
  intros Hs. pose proof (perm_on_inverse n sigma Hs) as Hi.
  pose proof (comp_inverse_r n sigma Hs) as Hr.
  pose proof (comp_inverse_l n sigma Hs) as Hl.
  unfold zpow.
  destruct (decide (0 ≤ a)) as [Ha|Ha], (decide (0 ≤ b)) as [Hb|Hb].
  - rewrite decide_True by lia. rewrite Z2Nat.inj_add by done. by apply pow_add.
  - rewrite (pow_mixed n sigma (inverse sigma)) by done.
    destruct (decide (0 ≤ a + b)); [rewrite decide_True by lia|rewrite decide_False by lia];
      f_equal; lia.
  - rewrite (pow_mixed n (inverse sigma) sigma) by done.
    destruct (decide (0 ≤ a + b)).
    + destruct (decide (Z.to_nat b ≤ Z.to_nat (- a))%nat).
      * assert (a + b = 0) as -> by lia. simpl.
        replace (Z.to_nat (- a) - Z.to_nat b)%nat with 0%nat by lia. done.
      * f_equal. lia.
    + rewrite decide_True by lia. f_equal. lia.
  - rewrite decide_False by lia.
    replace (Z.to_nat (- (a + b))) with (Z.to_nat (- a) + Z.to_nat (- b))%nat by lia.
    by apply pow_add.
Qed.

(** ** [power] computes [zpow] *)

Lemma size_domain n : size (domain n) = Z.to_nat n.
Proof.
  unfold domain. rewrite size_list_to_set by apply NoDup_seqZ.
  apply length_seqZ.
Qed.

Lemma identity_len n sigma :
  perm_on n sigma → identity (dict_len sigma) = identity n.
Proof.
  intros [Hk _]. unfold dict_len, keys in *.
  rewrite <-size_dom, Hk, size_domain. apply map_eq. intros i.
  rewrite !lookup_identity. repeat case_decide; try done; lia.
Qed.

Lemma for_each_compose n sigma r (l : list Z) :
  perm_on n sigma → perm_on n r →
  for_each (λ result _, compose result sigma) r l
    = Ok (Nat.iter (length l) (λ r, comp r sigma) r).
Proof.
  intros Hs. revert r. induction l as [|x l IH]; intros r Hr; [done|].
  simpl for_each. rewrite (compose_perm_on n) by done. simpl.
  rewrite IH by (by apply perm_on_comp). f_equal.
  change (Nat.iter (length l) (λ r0 : dict, comp r0 sigma) (comp r sigma)
          = Nat.iter (S (length l)) (λ r0 : dict, comp r0 sigma) r).
  by rewrite Nat.iter_succ_r.
Qed.

Lemma power_zpow n sigma k :
  perm_on n sigma → power sigma k = Ok (zpow n sigma k).
Proof.
  intros Hs. unfold power, zpow. rewrite (identity_len n) by done.
  case_decide as Hk; [by subst|].
  pose proof (perm_on_inverse n sigma Hs). pose proof (perm_on_identity n).
  destruct (decide (k > 0)).
  - rewrite decide_True by lia.
    rewrite (for_each_compose n), length_seqZ by done.
    by replace (Z.to_nat (Z.abs k)) with (Z.to_nat k) by lia.
  - rewrite decide_False by lia.
    rewrite (for_each_compose n), length_seqZ by done.
    by replace (Z.to_nat (Z.abs k)) with (Z.to_nat (- k)) by lia.
Qed.

Lemma perm_on_zpow n sigma k : perm_on n sigma → perm_on n (zpow n sigma k).
Proof.
  intros Hs. unfold zpow. case_decide; apply perm_on_pow; [done|].
  by apply perm_on_inverse.
Qed.

(** C5: for a valid permutation of {1, ..., n} and all integers a and b,
    power(sigma, a + b) is the composite of power(sigma, a) with
    power(sigma, b); power(sigma, -1) is inverse(sigma) and power(sigma, 0)
    is identity(n). *)
Theorem power_laws (n : Z) (sigma : dict) (a b : Z) :
  perm_on n sigma →
  (∃ r, power sigma (a + b) = Ok r ∧
        (pa ← power sigma a; pb ← power sigma b; compose pa pb) = Ok r) ∧
  power sigma (-1) = Ok (inverse sigma) ∧
  power sigma 0 = Ok (identity n).
Proof.
  intros Hs. rewrite !(power_zpow n) by done. split; [|split].
  - exists (zpow n sigma (a + b)). split; [done|]. simpl.
    rewrite (compose_perm_on n) by (by apply perm_on_zpow).
    by rewrite zpow_add.
  - f_equal. unfold zpow. rewrite decide_False by lia.
    apply pow_1. by apply perm_on_inverse.
  - done.
Qed.

Lemma power_laws_witness :
  perm_on 4 {[1 := 2; 2 := 3; 3 := 4; 4 := 1]} ∧
  power {[1 := 2; 2 := 3; 3 := 4; 4 := 1]} (-1)
    = Ok (inverse {[1 := 2; 2 := 3; 3 := 4; 4 := 1]}).
Proof.
  split; [split; vm_compute; reflexivity|].
  apply (power_laws 4 {[1 := 2; 2 := 3; 3 := 4; 4 := 1]} 3 (-5)).
  split; vm_compute; reflexivity.
Defined.

(** ** Pointwise view and the period of a point *)

Lemma perm_on_total n (sigma : dict) i :
  perm_on n sigma → 1 ≤ i ≤ n →
  sigma !! i = Some (sigma !!! i) ∧ 1 ≤ sigma !!! i ≤ n.
Proof.
  intros Hs Hi. destruct (perm_on_lookup n sigma i Hs Hi) as (v & Hv & Hr).
  by rewrite (lookup_total_correct _ _ _ Hv).
Qed.

Lemma iter_range n (sigma : dict) m i :
  perm_on n sigma → 1 ≤ i ≤ n → 1 ≤ Nat.iter m (sigma !!!.) i ≤ n.
Proof.
  intros Hs Hi. induction m as [|m IH]; [done|].
  simpl. by apply perm_on_total.
Qed.

Lemma lookup_pow n (sigma : dict) m i :
  perm_on n sigma → 1 ≤ i ≤ n →
  pow n sigma m !! i = Some (Nat.iter m (sigma !!!.) i).
Proof.
  intros Hs. revert i. induction m as [|m IH]; intros i Hi.
  - simpl. by apply lookup_identity_Some.
  - rewrite pow_S, lookup_comp, Nat.iter_succ_r.
    destruct (perm_on_total n sigma i Hs Hi) as [-> Hr]. simpl. by apply IH.
Qed.

Lemma total_inj n (sigma : dict) i j :
  perm_on n sigma → 1 ≤ i ≤ n → 1 ≤ j ≤ n → sigma !!! i = sigma !!! j → i = j.
Proof.
  intros Hs Hi Hj Heq.
  destruct (perm_on_total n sigma i Hs Hi) as [Hi' _].
  destruct (perm_on_total n sigma j Hs Hj) as [Hj' _].
  rewrite Heq in Hi'. eapply valid_inj; [by eapply perm_on_valid|done..].
Qed.

Lemma iter_cancel n (sigma : dict) a d i :
  perm_on n sigma → 1 ≤ i ≤ n →
  Nat.iter (a + d) (sigma !!!.) i = Nat.iter a (sigma !!!.) i →
  Nat.iter d (sigma !!!.) i = i.
Proof.
  intros Hs Hi. induction a as [|a IH]; [done|].
  simpl. intros Heq. apply IH. by eapply total_inj, Heq; try apply iter_range.
Qed.

Lemma not_NoDup_dup (l : list Z) :
  ¬ NoDup l → ∃ a b x, (a < b)%nat ∧ l !! a = Some x ∧ l !! b = Some x.
Proof.
  induction l as [|x l IH]; intros Hnd.
  - destruct Hnd. constructor.
  - destruct (decide (x ∈ l)) as [[b Hb]%list_elem_of_lookup_1|Hx].
    + exists 0%nat, (S b), x. split; [lia|done].
    + destruct IH as (a & b & y & Hab & Ha & Hb).
      { intros Hl. apply Hnd. by constructor. }
      exists (S a), (S b), y. split; [lia|done].
Qed.

Lemma pigeonhole n (l : list Z) :
  (∀ x, x ∈ l → 1 ≤ x ≤ n) → (Z.to_nat n < length l)%nat →
  ∃ a b x, (a < b)%nat ∧ l !! a = Some x ∧ l !! b = Some x.
Proof.
  intros Hin Hlen. apply not_NoDup_dup. intros Hnd.
  apply NoDup_ListNoDup in Hnd.
  pose proof (NoDup_incl_length (l' := seqZ 1 n) Hnd) as Hle.
  rewrite length_seqZ in Hle. enough (length l ≤ Z.to_nat n)%nat by lia.
  apply Hle. intros x Hx%list_elem_of_In. apply list_elem_of_In, elem_of_seqZ.
  specialize (Hin x Hx). lia.
Qed.

Lemma period n (sigma : dict) i :
  perm_on n sigma → 1 ≤ i ≤ n →
  ∃ p, (1 ≤ p ≤ Z.to_nat n)%nat ∧ Nat.iter p (sigma !!!.) i = i.
Proof.
  intros Hs Hi.
  destruct (pigeonhole n ((λ j, Nat.iter j (sigma !!!.) i) <$> seq 0 (S (Z.to_nat n))))
    as (a & b & x & Hab & Ha & Hb).
  - intros x (j & -> & _)%list_elem_of_fmap. by apply iter_range.
  - rewrite length_fmap, length_seq. lia.
  - rewrite list_lookup_fmap in Ha, Hb.
    apply fmap_Some in Ha as (a' & [-> Hla]%lookup_seq & ->).
    apply fmap_Some in Hb as (b' & [-> Hlb]%lookup_seq & Heq).
    simpl in *. exists (b - a)%nat. split; [lia|].
    apply (iter_cancel n sigma a); [done..|].
    by replace (a + (b - a))%nat with b by lia.
Qed.

Lemma iter_mul_fixed (f : Z → Z) p q i :
  Nat.iter p f i = i → Nat.iter (q * p) f i = i.
Proof.
  intros Hp. induction q as [|q IH]; [done|].
  simpl. by rewrite Nat.iter_add, IH.
Qed.

Lemma divide_fact p N : (1 ≤ p ≤ N)%nat → (p | fact N)%nat.
Proof.
  induction N as [|N IH]; intros Hp; [lia|].
  destruct (decide (p = S N)) as [->|Hne].
  - exists (fact N). simpl. lia.
  - destruct IH as [q Hq]; [lia|]. exists (S N * q)%nat.
    change (fact (S N)) with (S N * fact N)%nat. rewrite Hq. lia.
Qed.

Lemma pow_fact n sigma :
  perm_on n sigma → pow n sigma (fact (Z.to_nat n)) = identity n.
Proof.
  intros Hs. apply map_eq. intros i. rewrite lookup_identity.
  destruct (decide (1 ≤ i ≤ n)) as [Hi|Hi].
  - rewrite (lookup_pow n) by done. f_equal.
    destruct (period n sigma i Hs Hi) as (p & Hp & Hfix).
    destruct (divide_fact p (Z.to_nat n) Hp) as [q ->].
    by apply iter_mul_fixed.
  - apply not_elem_of_dom. destruct (perm_on_pow n sigma (fact (Z.to_nat n)) Hs) as [Hk _].
    unfold keys in Hk. by rewrite Hk, elem_of_domain.
Qed.

(** ** [order] *)

Lemma least_witness (P : nat → Prop) `{!∀ k, Decision (P k)} (M : nat) :
  P M → ∃ m, P m ∧ (m ≤ M)%nat ∧ ∀ j, (j < m)%nat → ¬ P j.
Proof.
  induction M as [M IH] using lt_wf_ind. intros HM.
  destruct (decide (Exists P (seq 0 M))) as [(j & Hj & HPj)%Exists_exists|Hno].
  - apply elem_of_seq in Hj.
    destruct (IH j ltac:(lia) HPj) as (m & Hm & Hle & Hmin).
    exists m. split; [done|]. split; [lia|done].
  - exists M. split; [done|]. split; [lia|]. intros j Hj HPj.
    apply Hno, Exists_exists. exists j. split; [|done]. apply elem_of_seq. lia.
Qed.

(** The order of a permutation: the least positive exponent giving the
    identity.  It exists and divides n!. *)
Lemma order_exists n sigma :
  perm_on n sigma →
  ∃ m, (1 ≤ m)%nat ∧ pow n sigma m = identity n ∧
       (∀ j, (1 ≤ j < m)%nat → pow n sigma j ≠ identity n) ∧
       (m | fact (Z.to_nat n))%nat.
Proof.
  intros Hs.
  destruct (least_witness (λ k, (1 ≤ k)%nat ∧ pow n sigma k = identity n)
              (fact (Z.to_nat n))) as (m & [Hm1 Hm] & Hle & Hmin).
  { split; [apply lt_O_fact | by apply pow_fact]. }
  exists m. split; [done|]. split; [done|]. split.
  - intros j [Hj1 Hj2] Hj. apply (Hmin j Hj2). done.
  - set (M := fact (Z.to_nat n)).
    assert (M = (M `div` m) * m + M `mod` m)%nat as HM.
    { rewrite Nat.mul_comm. apply Nat.div_mod_eq. }
    assert (M `mod` m < m)%nat as Hr by (apply Nat.mod_upper_bound; lia).
    destruct (decide (M `mod` m = 0)%nat) as [Hz|Hnz].
    + exists (M `div` m)%nat. lia.
    + exfalso. apply (Hmin (M `mod` m)%nat Hr). split; [lia|].
      pose proof (pow_fact n sigma Hs) as HMid. fold M in HMid.
      rewrite HM, pow_add, (pow_mul n sigma m) in HMid by done.
      rewrite (comp_identity_l n) in HMid; [done|].
      apply (perm_on_pow n sigma _ Hs).
Qed.

Lemma order_loop_run n sigma m d j fuel :
  perm_on n sigma →
  pow n sigma m = identity n →
  (∀ j, (1 ≤ j < m)%nat → pow n sigma j ≠ identity n) →
  (1 ≤ j)%nat → (j + d = m)%nat → (d ≤ fuel)%nat →
  order_loop fuel sigma (identity n) (pow n sigma j) (Z.of_nat j) = Ok (Z.of_nat m).
Proof.
  intros Hs Hm Hmin. revert j fuel. induction d as [|d IH]; intros j fuel Hj Hjd Hfuel.
  - replace j with m by lia. destruct fuel; simpl; by rewrite Hm, decide_False by auto.
  - destruct fuel as [|fuel]; [lia|]. simpl.
    rewrite decide_True by (apply Hmin; lia).
    rewrite (compose_perm_on n) by (done || by apply perm_on_pow). simpl.
    rewrite <-pow_S. replace (Z.of_nat j + 1) with (Z.of_nat (S j)) by lia.
    apply IH; lia.
Qed.

(** With too little fuel the loop gives up; it never returns a wrong value. *)
Lemma order_loop_short n sigma m j fuel :
  perm_on n sigma →
  (∀ j, (1 ≤ j < m)%nat → pow n sigma j ≠ identity n) →
  (1 ≤ j)%nat → (j + fuel < m)%nat →
  order_loop fuel sigma (identity n) (pow n sigma j) (Z.of_nat j) = OutOfFuel.
Proof.
  intros Hs Hmin. revert j. induction fuel as [|fuel IH]; intros j Hj Hlt; simpl.
  - by rewrite decide_True by (apply Hmin; lia).
  - rewrite decide_True by (apply Hmin; lia).
    rewrite (compose_perm_on n) by (done || by apply perm_on_pow). simpl.
    rewrite <-pow_S. replace (Z.of_nat j + 1) with (Z.of_nat (S j)) by lia.
    apply IH; lia.
Qed.

(** C4: for a valid permutation of {1, ..., n}, the loop of [order] stops
    (any fuel from k - 1 on suffices, less fuel runs dry) and returns the
    least positive k with power(sigma, k) = identity(n); k divides n!; for
    n ≤ 1 the identity has order 1. *)
Theorem order_least (n : Z) (sigma : dict) :
  perm_on n sigma →
  ∃ k : Z,
    0 < k ∧
    (∀ fuel, (Z.to_nat k - 1 ≤ fuel)%nat → order fuel sigma = Ok k) ∧
    (∀ fuel, (fuel < Z.to_nat k - 1)%nat → order fuel sigma = OutOfFuel) ∧
    power sigma k = Ok (identity n) ∧
    (∀ j, 0 < j < k → power sigma j ≠ Ok (identity n)) ∧
    (k | Z.of_nat (fact (Z.to_nat n))) ∧
    (n ≤ 1 → ∀ fuel, order fuel (identity n) = Ok 1).
Proof.
  intros Hs. destruct (order_exists n sigma Hs) as (m & Hm1 & Hm & Hmin & Hdiv).
  exists (Z.of_nat m). rewrite Nat2Z.id.
  assert (∀ fuel, order fuel sigma
            = order_loop fuel sigma (identity n) (pow n sigma 1) (Z.of_nat 1)) as Hord.
  { intros fuel. unfold order. by rewrite (identity_len n), pow_1. }
  repeat split.
  - lia.
  - intros fuel Hfuel. rewrite Hord.
    apply (order_loop_run n sigma m (m - 1)); (done || lia).
  - intros fuel Hfuel. rewrite Hord.
    apply (order_loop_short n sigma m); (done || lia).
  - rewrite (power_zpow n) by done. unfold zpow.
    rewrite decide_True by lia. by rewrite Nat2Z.id, Hm.
  - intros j Hj. rewrite (power_zpow n) by done. unfold zpow.
    rewrite decide_True by lia. intros [= Hpj].
    apply (Hmin (Z.to_nat j)); [lia|done].
  - destruct Hdiv as [q Hq]. exists (Z.of_nat q). lia.
  - intros Hn fuel. unfold order. rewrite (identity_len n) by apply perm_on_identity.
    destruct fuel; simpl; by rewrite decide_False by auto.
Qed.

Lemma order_least_witness :
  perm_on 4 {[1 := 2; 2 := 3; 3 := 4; 4 := 1]} ∧
  ∃ k : Z, 0 < k ∧
    (∀ fuel, (Z.to_nat k - 1 ≤ fuel)%nat →
       order fuel {[1 := 2; 2 := 3; 3 := 4; 4 := 1]} = Ok k).
Proof.
  split; [split; vm_compute; reflexivity|].
  destruct (order_least 4 {[1 := 2; 2 := 3; 3 := 4; 4 := 1]}) as (k & Hk & Hrun & _).
  - split; vm_compute; reflexivity.
  - exists k. split; [exact Hk | exact Hrun].
Defined.

Example order_4_cycle : order 3 {[1 := 2; 2 := 3; 3 := 4; 4 := 1]} = Ok 4.
Proof. vm_compute. reflexivity. Qed.

(** ** [itertools.permutations] *)

Section arrangements.
Context {A : Type}.
Implicit Types (l p : list A) (a : A).

Lemma selections_fst l : (selections l).*1 = l.
Proof.
  induction l as [|x l IH]; [done|]. simpl. f_equal.
  rewrite <-list_fmap_compose. etrans; [|exact IH].
  apply list_fmap_ext. by intros ? [? ?] _.
Qed.

Lemma length_selections l : length (selections l) = length l.
Proof. by rewrite <-(selections_fst l) at 2; rewrite length_fmap. Qed.

Lemma elem_of_selections a rest l :
  (a, rest) ∈ selections l ↔ ∃ l1 l2, l = l1 ++ a :: l2 ∧ rest = l1 ++ l2.
Proof.
  revert rest. induction l as [|x l IH]; intros rest; simpl.
  - split; [by intros ?%elem_of_nil|]. by intros ([|??] & ? & ? & _).
  - rewrite elem_of_cons, list_elem_of_fmap. split.
    + intros [Heq|([b r] & Heq & Hin)]; simplify_eq/=.
      * by exists [], l.
      * apply IH in Hin as (l1 & l2 & -> & ->). by exists (x :: l1), l2.
    + intros ([|y l1] & l2 & Heq & ->); simplify_eq/=; [by left|]. right.
      exists (a, l1 ++ l2). split; [done|]. apply IH. eauto.
Qed.

Lemma selections_Permutation q l : q ∈ selections l → l ≡ₚ q.1 :: q.2.
Proof.
  destruct q as [a rest]. intros (l1 & l2 & -> & ->)%elem_of_selections.
  simpl. by rewrite Permutation_middle.
Qed.

Lemma selections_inj q1 q2 l :
  NoDup l → q1 ∈ selections l → q2 ∈ selections l → q1.1 = q2.1 → q1 = q2.
Proof.
  intros Hnd [i Hi]%list_elem_of_lookup_1 [j Hj]%list_elem_of_lookup_1 Heq.
  rewrite <-(selections_fst l) in Hnd.
  assert (i = j) as ->; [|congruence].
  eapply (NoDup_lookup _ i j (q1.1) Hnd); rewrite list_lookup_fmap.
  - by rewrite Hi.
  - by rewrite Hj, Heq.
Qed.

Lemma elem_of_arrangements r l p :
  length l = r → p ∈ arrangements r l ↔ p ≡ₚ l.
Proof.
  revert l p. induction r as [|r IH]; intros l p Hlen; simpl.
  - apply nil_length_inv in Hlen as ->. rewrite list_elem_of_singleton. split.
    + by intros ->.
    + by intros ->%Permutation_nil_r.
  - rewrite list_elem_of_bind. split.
    + intros ([a rest] & (p' & -> & Hp')%list_elem_of_fmap & Hq).
      pose proof (selections_Permutation _ _ Hq) as Hl. simpl in *.
      apply IH in Hp'; [by rewrite Hl, Hp'|].
      apply Permutation_length in Hl. simpl in Hl. lia.
    + intros Hp. destruct p as [|a p'].
      { apply Permutation_length in Hp. simpl in Hp. lia. }
      assert (a ∈ l) as (l1 & l2 & ->)%list_elem_of_split.
      { rewrite <-Hp. left. }
      exists (a, l1 ++ l2). split.
      * simpl. apply list_elem_of_fmap. exists p'. split; [done|].
        apply IH.
        -- rewrite length_app in *. simpl in Hlen. lia.
        -- rewrite <-Permutation_middle in Hp. by apply Permutation_cons_inv in Hp.
      * apply elem_of_selections. eauto.
Qed.

Lemma NoDup_arrangements r l : NoDup l → NoDup (arrangements r l).
Proof.
  revert l. induction r as [|r IH]; intros l Hnd; simpl.
  - apply NoDup_singleton.
  - apply NoDup_bind.
    + intros q1 q2 p Hq1 Hq2 (p1 & -> & _)%list_elem_of_fmap
        (p2 & [= Heq _] & _)%list_elem_of_fmap.
      by eapply selections_inj.
    + intros q Hq. apply (NoDup_fmap_2 _), IH.
      apply selections_Permutation in Hq. rewrite Hq in Hnd.
      by apply NoDup_cons_1_2 in Hnd.
    + apply (NoDup_fmap_1 fst). by rewrite selections_fst.
Qed.

Lemma length_bind_const {B C} (f : B → list C) (k : list B) c :
  (∀ x, x ∈ k → length (f x) = c) → length (k ≫= f) = (length k * c)%nat.
Proof.
  induction k as [|x k IH]; intros Hf; [done|].
  rewrite bind_cons, length_app, IH, Hf; [done|left|].
  intros y Hy. apply Hf. by right.
Qed.

Lemma length_arrangements r l :
  length l = r → length (arrangements r l) = fact r.
Proof.
  revert l. induction r as [|r IH]; intros l Hlen; [done|].
  simpl arrangements. rewrite (length_bind_const _ _ (fact r)).
  - by rewrite length_selections, Hlen.
  - intros q Hq. rewrite length_fmap. apply IH.
    apply selections_Permutation, Permutation_length in Hq. simpl in Hq. lia.
Qed.

End arrangements.

(** ** [generate_Sn] *)

Lemma lookup_zip_dict n (perm : list Z) i v :
  length perm = Z.to_nat n →
  py_dict (zip (seqZ 1 n) perm) !! i = Some v ↔
  ∃ j : nat, i = 1 + Z.of_nat j ∧ perm !! j = Some v.
Proof.
  intros Hlen. rewrite lookup_py_dict.
  - rewrite list_elem_of_lookup. split.
    + intros (j & Hj). apply lookup_zip_with_Some in Hj as (x & y & [= -> ->] & Hx & Hy).
      apply lookup_seqZ in Hx as [-> _]. eauto.
    + intros (j & -> & Hj). exists j. apply lookup_zip_with_Some.
      exists (1 + Z.of_nat j), v. split; [done|]. split; [|done].
      apply lookup_seqZ. split; [done|]. apply lookup_lt_Some in Hj. lia.
  - rewrite fst_zip; [apply NoDup_seqZ|]. rewrite length_seqZ. lia.
Qed.

Lemma zip_dict_inj n (p1 p2 : list Z) :
  length p1 = Z.to_nat n → length p2 = Z.to_nat n →
  py_dict (zip (seqZ 1 n) p1) = py_dict (zip (seqZ 1 n) p2) → p1 = p2.
Proof.
  intros H1 H2 Heq. apply list_eq. intros j. apply option_eq. intros v.
  assert (∀ p, length p = Z.to_nat n →
    p !! j = Some v ↔ py_dict (zip (seqZ 1 n) p) !! (1 + Z.of_nat j) = Some v) as Hp.
  { intros p Hlen. rewrite lookup_zip_dict by done. split; [eauto|].
    intros (j' & Hj' & Hv). by replace j with j' by lia. }
  by rewrite !Hp, Heq.
Qed.

Lemma zip_dict_perm_on n (perm : list Z) :
  perm ≡ₚ seqZ 1 n → perm_on n (py_dict (zip (seqZ 1 n) perm)).
Proof.
  intros Hp. assert (length perm = Z.to_nat n) as Hlen.
  { by rewrite Hp, length_seqZ. }
  unfold perm_on, keys, values. split; apply set_eq; intros i.
  - rewrite elem_of_dom, elem_of_domain. unfold is_Some.
    setoid_rewrite (lookup_zip_dict n perm i _ Hlen). split.
    + intros (v & j & -> & Hj%lookup_lt_Some). lia.
    + intros Hi. destruct (lookup_lt_is_Some_2 perm (Z.to_nat (i - 1))) as [v Hv]; [lia|].
      exists v, (Z.to_nat (i - 1)). split; [lia|done].
  - rewrite elem_of_map_img, elem_of_domain.
    setoid_rewrite (λ k, lookup_zip_dict n perm k i Hlen).
    transitivity (i ∈ seqZ 1 n); [|rewrite elem_of_seqZ; lia].
    rewrite <-Hp, list_elem_of_lookup. split.
    + intros (k & j & _ & Hj). eauto.
    + intros [j Hj]. eauto.
Qed.

Lemma perm_on_zip_dict n sigma :
  perm_on n sigma →
  ∃ perm, perm ≡ₚ seqZ 1 n ∧ py_dict (zip (seqZ 1 n) perm) = sigma.
Proof.
  intros Hs. exists ((sigma !!!.) <$> seqZ 1 n).
  assert (length ((sigma !!!.) <$> seqZ 1 n) = Z.to_nat n) as Hlen.
  { by rewrite length_fmap, length_seqZ. }
  split.
  - apply NoDup_Permutation; [|apply NoDup_seqZ|].
    + apply NoDup_fmap_2_strong; [|apply NoDup_seqZ].
      intros i j Hi%elem_of_seqZ Hj%elem_of_seqZ. apply (total_inj n); (done || lia).
    + intros v. rewrite list_elem_of_fmap, elem_of_seqZ. split.
      * intros (i & -> & Hi%elem_of_seqZ).
        destruct (perm_on_total n sigma i Hs) as [_ ?]; lia.
      * intros Hv. destruct Hs as [Hk Himg]. unfold keys, values in *.
        assert (v ∈ map_img (SA := gset Z) sigma) as [i Hi]%elem_of_map_img.
        { rewrite Himg, elem_of_domain. lia. }
        exists i. split; [by rewrite (lookup_total_correct _ _ _ Hi)|].
        apply elem_of_seqZ. enough (1 ≤ i ≤ n) by lia.
        apply elem_of_domain. rewrite <-Hk. apply elem_of_dom. eauto.
  - apply map_eq. intros i. apply option_eq. intros v.
    rewrite lookup_zip_dict by done. split.
    + intros (j & -> & Hj). rewrite list_lookup_fmap in Hj.
      apply fmap_Some in Hj as (i & [-> Hlt]%lookup_seqZ & ->).
      apply (perm_on_total n); [done|lia].
    + intros Hi. destruct (perm_on_lookup_Some n sigma i v Hs Hi) as [Hr _].
      exists (Z.to_nat (i - 1)). split; [lia|].
      rewrite list_lookup_fmap, lookup_seqZ_lt by lia. simpl.
      f_equal. replace (1 + Z.of_nat (Z.to_nat (i - 1))) with i by lia.
      by apply lookup_total_correct.
Qed.

Lemma elem_of_generate_Sn n sigma : sigma ∈ generate_Sn n ↔ perm_on n sigma.
Proof.
  unfold generate_Sn, itertools_permutations. rewrite list_elem_of_fmap. split.
  - intros (perm & -> & Hp%elem_of_arrangements); [|done]. by apply zip_dict_perm_on.
  - intros (perm & Hp & <-)%perm_on_zip_dict. exists perm. split; [done|].
    by apply elem_of_arrangements.
Qed.

Lemma NoDup_generate_Sn n : NoDup (generate_Sn n).
Proof.
  unfold generate_Sn, itertools_permutations.
  apply NoDup_fmap_2_strong; [|apply NoDup_arrangements, NoDup_seqZ].
  intros p1 p2 Hp1%elem_of_arrangements Hp2%elem_of_arrangements; [|done..].
  apply (zip_dict_inj n).
  - by rewrite Hp1, length_seqZ.
  - by rewrite Hp2, length_seqZ.
Qed.

Lemma length_generate_Sn n : length (generate_Sn n) = fact (Z.to_nat n).
Proof.
  unfold generate_Sn, itertools_permutations.
  by rewrite length_fmap, length_arrangements, length_seqZ.
Qed.

(** C6: [generate_Sn n] is a duplicate-free list of exactly n! mappings;
    its members are exactly the valid permutations of {1, ..., n} (each is
    accepted by [make_permutation], and each is one-to-one); being a
    function of n alone, two calls at the same n give the same list. *)
Theorem generate_Sn_complete (n : Z) :
  NoDup (generate_Sn n) ∧
  len (generate_Sn n) = Z.of_nat (fact (Z.to_nat n)) ∧
  (∀ sigma, sigma ∈ generate_Sn n ↔ keys sigma = domain n ∧ values sigma = domain n) ∧
  (∀ sigma, sigma ∈ generate_Sn n →
     make_permutation sigma = Ok sigma ∧
     ∀ i j v, sigma !! i = Some v → sigma !! j = Some v → i = j) ∧
  (∀ n', n' = n → generate_Sn n' = generate_Sn n).
Proof.
  split; [apply NoDup_generate_Sn|].
  split; [unfold len; by rewrite length_generate_Sn|].
  split; [apply elem_of_generate_Sn|]. split; [|by intros ? ->].
  intros sigma Hs%elem_of_generate_Sn%perm_on_valid. split.
  - unfold make_permutation. by rewrite decide_False by (by intros ?).
  - intros i j v. by apply valid_inj.
Qed.

(** ** Cycle decomposition *)

Lemma chain_snoc sigma c cur nxt :
  chain sigma c cur → sigma !! cur = Some nxt → chain sigma (c ++ [cur]) nxt.
Proof.
  intros Hc Hn. induction c as [|x c IH]; simpl in *; [done|].
  destruct Hc as [Hx Hc]. split; [|by apply IH].
  by destruct c.
Qed.

Lemma chain_lookup sigma c cur j x :
  chain sigma c cur → c !! j = Some x →
  sigma !! x = Some (default cur (c !! S j)).
Proof.
  revert j. induction c as [|y c IH]; intros j Hc Hj; [done|].
  destruct Hc as [Hy Hc]. destruct j as [|j]; simplify_eq/=.
  - by destruct c.
  - by apply IH.
Qed.

Lemma hd_snoc (c : list Z) x d : hd d (c ++ [x]) = hd x c.
Proof. by destruct c. Qed.

Lemma walk_fuel sigma fuel visited cycle current :
  (size (dom sigma ∖ visited) < fuel)%nat →
  walk fuel sigma visited cycle current ≠ OutOfFuel.
Proof.
  revert visited cycle current.
  induction fuel as [|fuel IH]; intros visited cycle current Hsz; [lia|].
  simpl. case_decide as Hcur; [|done].
  destruct (sigma !! current) as [nxt|] eqn:Hn; unfold getitem; rewrite Hn; [|done].
  simpl. apply IH.
  assert (dom sigma ∖ ({[current]} ∪ visited) ⊂ dom sigma ∖ visited) as Hsub.
  { apply elem_of_dom_2 in Hn. set_solver. }
  apply subset_size in Hsub. lia.
Qed.

Lemma walk_spec sigma V0 s fuel visited cycle current :
  valid sigma →
  (∀ i v, sigma !! i = Some v → v ∈ V0 → i ∈ V0) →
  s ∉ V0 →
  visited = V0 ∪ list_to_set cycle →
  (size (dom sigma ∖ visited) < fuel)%nat →
  NoDup cycle → (∀ x, x ∈ cycle → x ∉ V0) →
  chain sigma cycle current → hd current cycle = s → current ∈ dom sigma →
  ∃ c, walk fuel sigma visited cycle current = Ok (V0 ∪ list_to_set c, c) ∧
       NoDup c ∧ (∀ x, x ∈ c → x ∉ V0) ∧ chain sigma c s ∧ hd s c = s ∧ c ≠ [].
Proof.
  intros Hv Hpre Hs. revert visited cycle current.
  induction fuel as [|fuel IH];
    intros visited cycle current -> Hsz Hnd Hout Hch Hhd Hcur; [lia|].
  simpl. destruct (decide (current ∉ V0 ∪ list_to_set cycle)) as [Hnew|Hold].
  - apply elem_of_dom in Hcur as [nxt Hn]. unfold getitem. rewrite Hn. simpl.
    apply IH.
    + rewrite list_to_set_app_L. set_solver.
    + assert (dom sigma ∖ ({[current]} ∪ (V0 ∪ list_to_set cycle))
              ⊂ dom sigma ∖ (V0 ∪ list_to_set cycle)) as Hsub.
      { apply elem_of_dom_2 in Hn. set_solver. }
      apply subset_size in Hsub. lia.
    + apply NoDup_app. split; [done|]. split; [|apply NoDup_singleton].
      intros x Hx ->%list_elem_of_singleton. set_solver.
    + intros x [Hx| ->%list_elem_of_singleton]%elem_of_app; [by apply Hout|].
      set_solver.
    + by apply chain_snoc.
    + rewrite hd_snoc. by destruct cycle.
    + apply elem_of_dom. by eapply valid_closed.
  - apply dec_stable in Hold. exists cycle.
    assert (cycle ≠ []) as Hne.
    { intros ->. simpl in *. subst. set_solver. }
    assert (current = s) as ->; [|by destruct cycle].
    destruct (lookup_lt_is_Some_2 cycle (length cycle - 1)) as [z Hz].
    { destruct cycle; [done|]. simpl. lia. }
    pose proof (chain_lookup _ _ _ _ _ Hch Hz) as Hzc.
    replace (S (length cycle - 1)) with (length cycle) in Hzc
      by (destruct cycle; [done|]; simpl; lia).
    rewrite lookup_ge_None_2 in Hzc by done. simpl in Hzc.
    apply elem_of_union in Hold as [Hold|Hold].
    { exfalso. apply (Hout z); [by eapply list_elem_of_lookup_2|]. by eapply Hpre. }
    apply elem_of_list_to_set, list_elem_of_lookup_1 in Hold as [j Hj].
    destruct j as [|j].
    { destruct cycle; simplify_eq/=. done. }
    exfalso. destruct (lookup_lt_is_Some_2 cycle j) as [y Hy].
    { apply lookup_lt_Some in Hj. lia. }
    pose proof (chain_lookup _ _ _ _ _ Hch Hy) as Hyc. rewrite Hj in Hyc. simpl in Hyc.
    assert (y = z) as -> by (by eapply valid_inj).
    assert (j = length cycle - 1)%nat as -> by (by eapply NoDup_lookup).
    apply lookup_lt_Some in Hj. lia.
Qed.

Lemma chain_dom sigma c last x : chain sigma c last → x ∈ c → x ∈ dom sigma.
Proof.
  intros Hc [j Hj]%list_elem_of_lookup_1.
  apply elem_of_dom. rewrite (chain_lookup _ _ _ _ _ Hc Hj). done.
Qed.

Lemma cycles_inv_skip sigma pre V cycles s :
  cycles_inv sigma pre V cycles → s ∈ V → cycles_inv sigma (pre ++ [s]) V cycles.
Proof.
  intros [Icl Iscan Imv Ivis Igood Idis Iheads Isorted] Hs. split; try done.
  - intros x [?| ->%list_elem_of_singleton]%elem_of_app; auto.
  - intros c Hc. apply elem_of_app. left. auto.
Qed.

Lemma cycles_inv_walk sigma pre rest V cycles s c :
  valid sigma →
  StronglySorted Z.le (pre ++ s :: rest) → NoDup (pre ++ s :: rest) →
  (∀ x, x ∈ dom sigma → x ∈ pre ++ s :: rest) →
  cycles_inv sigma pre V cycles → s ∉ V →
  NoDup c → (∀ x, x ∈ c → x ∉ V) → chain sigma c s → hd s c = s → c ≠ [] →
  cycles_inv sigma (pre ++ [s]) (V ∪ list_to_set c)
    (if decide (len c > 1) then cycles ++ [c] else cycles).
Proof.
  intros Hv Hsort Hnd Hks [Icl Iscan Imv Ivis Igood Idis Iheads Isorted] Hs Hc Hout Hch Hhd Hne.
  assert (hd 0 c = s) as Hhd0 by (by destruct c).
  assert (s ∈ c) as Hsc by (destruct c; [done|]; simplify_eq/=; left).
  assert (∀ x, x ∈ c → s ≤ x) as Hmin.
  { intros x Hx. pose proof (chain_dom _ _ _ _ Hch Hx) as Hd%Hks.
    apply elem_of_app in Hd as [Hd|Hd]; [by apply Iscan, Hout in Hd|].
    apply StronglySorted_app_1_r, StronglySorted_cons in Hsort as [Hall _].
    apply elem_of_cons in Hd as [->|Hd]; [lia|].
    rewrite Forall_forall in Hall. by apply Hall. }
  assert (∀ x, x ∈ concat (if decide (len c > 1) then cycles ++ [c] else cycles)
            ↔ x ∈ concat cycles ∨ (x ∈ c ∧ len c > 1)) as Hcat.
  { intros x. case_decide as Hlen.
    - rewrite concat_app, elem_of_app. simpl. rewrite app_nil_r. tauto.
    - split; [auto|]. intros [?|[_ ?]]; [done|lia]. }
  split.
  - intros i v Hi [Hin|[j Hj]%elem_of_list_to_set%list_elem_of_lookup_1]%elem_of_union.
    { apply elem_of_union. left. by eapply Icl. }
    apply elem_of_union. right. apply elem_of_list_to_set.
    destruct j as [|j].
    + destruct (lookup_lt_is_Some_2 c (length c - 1)) as [z Hz].
      { destruct c; [done|]. simpl. lia. }
      pose proof (chain_lookup _ _ _ _ _ Hch Hz) as Hzc.
      replace (S (length c - 1)) with (length c) in Hzc
        by (destruct c; [done|]; simpl; lia).
      rewrite lookup_ge_None_2 in Hzc by done. simpl in Hzc.
      assert (v = s) as -> by (destruct c; simplify_eq/=; done).
      assert (i = z) as -> by (by eapply valid_inj).
      by eapply list_elem_of_lookup_2.
    + destruct (lookup_lt_is_Some_2 c j) as [y Hy].
      { apply lookup_lt_Some in Hj. lia. }
      pose proof (chain_lookup _ _ _ _ _ Hch Hy) as Hyc. rewrite Hj in Hyc.
      assert (i = y) as -> by (by eapply valid_inj).
      by eapply list_elem_of_lookup_2.
  - intros x [?| ->%list_elem_of_singleton]%elem_of_app; set_solver.
  - intros x [Hx|Hx%elem_of_list_to_set]%elem_of_union Hmv; apply Hcat; [auto|].
    right. split; [done|]. destruct c as [|y [|y' c]]; [done| |unfold len; simpl; lia].
    simplify_eq/=. apply list_elem_of_singleton in Hx as ->. by destruct Hch.
  - intros x [Hx|[Hx _]]%Hcat; set_solver.
  - case_decide as Hlen; [|done]. apply Forall_app. split; [done|].
    apply Forall_singleton. unfold len in Hlen. unfold good_cycle. rewrite Hhd0.
    repeat split; (done || lia).
  - case_decide as Hlen; [|done]. rewrite concat_app. simpl. rewrite app_nil_r.
    apply NoDup_app. split; [done|]. split; [|done].
    intros x Hx%Ivis Hx'. by apply (Hout x).
  - intros c' Hc'. apply elem_of_app.
    case_decide as Hlen; [|left; auto].
    apply elem_of_app in Hc' as [?| ->%list_elem_of_singleton]; [left; auto|].
    right. rewrite Hhd0. by left.
  - case_decide as Hlen; [|done]. rewrite fmap_app. simpl.
    apply StronglySorted_app_2; [|done|repeat constructor].
    intros h1 h2 (c' & -> & Hc')%list_elem_of_fmap ->%list_elem_of_singleton.
    rewrite Hhd0. apply Iheads in Hc'.
    assert (hd 0 c' ≤ s).
    { eapply (StronglySorted_app_1_elem_of _ _ _ _ _ Hsort); [done|left]. }
    assert (hd 0 c' ≠ s); [|lia].
    intros Heq. rewrite Heq in Hc'. apply NoDup_app in Hnd as (_ & Hdis & _).
    apply (Hdis s Hc'). left.
Qed.

Lemma sorted_keys_spec (sigma : dict) :
  StronglySorted Z.le (sorted_ints (elements (keys sigma))) ∧
  NoDup (sorted_ints (elements (keys sigma))) ∧
  ∀ x, x ∈ sorted_ints (elements (keys sigma)) ↔ x ∈ dom sigma.
Proof.
  unfold sorted_ints, keys. split; [apply (StronglySorted_merge_sort _)|]. split.
  - rewrite merge_sort_Permutation. apply NoDup_elements.
  - intros x. by rewrite merge_sort_Permutation, elem_of_elements.
Qed.

Lemma to_cycles_step_eq sigma V cycles s :
  to_cycles_step sigma (V, cycles) s =
    if decide (s ∈ V) then Ok (V, cycles)
    else vc ← walk (S (size sigma)) sigma V [] s;
         Ok (vc.1, if decide (len vc.2 > 1) then cycles ++ [vc.2] else cycles).
Proof. done. Qed.

Lemma to_cycles_loop sigma rest pre V cycles :
  valid sigma →
  StronglySorted Z.le (pre ++ rest) → NoDup (pre ++ rest) →
  (∀ x, x ∈ pre ++ rest ↔ x ∈ dom sigma) →
  cycles_inv sigma pre V cycles →
  ∃ V' cycles',
    for_each (to_cycles_step sigma) (V, cycles) rest = Ok (V', cycles') ∧
    cycles_inv sigma (pre ++ rest) V' cycles'.
Proof.
  intros Hv. revert pre V cycles.
  induction rest as [|s rest IH]; intros pre V cycles Hsort Hnd Hks Hinv.
  - exists V, cycles. by rewrite app_nil_r.
  - assert (pre ++ s :: rest = (pre ++ [s]) ++ rest) as Heq
      by (by rewrite <-app_assoc).
    cbn [for_each]. rewrite to_cycles_step_eq.
    destruct (decide (s ∈ V)) as [Hs|Hs]; cbn [mbind result_bind].
    + rewrite Heq in *. apply IH; [done..|]. by apply cycles_inv_skip.
    + destruct (walk_spec sigma V s (S (size sigma)) V [] s)
        as (c & -> & Hc & Hout & Hch & Hhd & Hne); try done.
      * apply Hinv.
      * set_solver.
      * rewrite <-(size_dom (D := gset Z)).
        assert (size (dom sigma ∖ V) ≤ size (dom sigma))%nat; [|lia].
        apply subseteq_size. set_solver.
      * constructor.
      * intros x ?%elem_of_nil. done.
      * apply Hks, elem_of_app. right. left.
      * cbn [mbind result_bind fst snd]. pose proof (cycles_inv_walk sigma pre rest V cycles s c Hv Hsort Hnd
          (λ x, proj2 (Hks x)) Hinv Hs Hc Hout Hch Hhd Hne) as Hinv'.
        rewrite Heq in *. by apply IH.
Qed.

Lemma cycles_inv_init sigma : cycles_inv sigma [] ∅ [].
Proof.
  split.
  - intros i v _ ?%elem_of_empty. done.
  - intros x ?%elem_of_nil. done.
  - intros x ?%elem_of_empty. done.
  - intros x ?%elem_of_nil. done.
  - constructor.
  - constructor.
  - intros c ?%elem_of_nil. done.
  - constructor.
Qed.

Lemma to_cycles_valid sigma :
  valid sigma →
  ∃ V cycles, to_cycles sigma = Ok cycles ∧
    cycles_inv sigma (sorted_ints (elements (keys sigma))) V cycles.
Proof.
  intros Hv. destruct (sorted_keys_spec sigma) as (Hsort & Hnd & Hks).
  destruct (to_cycles_loop sigma (sorted_ints (elements (keys sigma))) [] ∅ [])
    as (V & cycles & Hrun & Hinv); try done.
  { apply cycles_inv_init. }
  exists V, cycles. unfold to_cycles. by rewrite Hrun.
Qed.

Lemma good_cycle_next sigma c j x :
  good_cycle sigma c → c !! j = Some x →
  sigma !! x = c !! (S j `mod` length c)%nat ∧ sigma !! x ≠ Some x.
Proof.
  intros (Hlen & Hnd & Hch & _) Hj.
  pose proof (lookup_lt_Some _ _ _ Hj) as Hlt.
  rewrite (chain_lookup _ _ _ _ _ Hch Hj).
  destruct (decide (S j = length c)) as [Heq|Hne].
  - rewrite Heq, Nat.Div0.mod_same, lookup_ge_None_2 by lia. simpl.
    destruct c as [|y c]; [done|]. simpl. split; [done|].
    intros [= ->]. assert (0 = j)%nat; [|simpl in *; lia].
    by eapply (NoDup_lookup _ 0%nat j x Hnd).
  - rewrite Nat.mod_small by lia.
    destruct (lookup_lt_is_Some_2 c (S j)) as [y Hy]; [lia|].
    rewrite Hy. simpl. split; [done|]. intros [= ->].
    assert (S j = j); [|lia]. by eapply (NoDup_lookup _ (S j) j x Hnd).
Qed.

Lemma elem_of_concat {A} (x : A) (ls : list (list A)) :
  x ∈ concat ls ↔ ∃ l, x ∈ l ∧ l ∈ ls.
Proof.
  induction ls as [|l ls IH]; simpl.
  - split; [by intros ?%elem_of_nil|]. by intros (? & _ & ?%elem_of_nil).
  - rewrite elem_of_app, IH. split.
    + intros [?|(l' & ? & ?)]; [exists l|exists l']; split; (done || by constructor).
    + intros (l' & Hx & [->|?]%elem_of_cons); [by left|right; eauto].
Qed.

Lemma to_cycles_identity n : to_cycles (identity n) = Ok [].
Proof.
  destruct (to_cycles_valid (identity n)) as (V & cycles & -> & Hinv).
  { eapply perm_on_valid, perm_on_identity. }
  f_equal. destruct cycles as [|c cycles]; [done|]. exfalso.
  pose proof (inv_good _ _ _ _ Hinv) as [Hc _]%Forall_cons.
  destruct c as [|x c]; [destruct Hc; simpl in *; lia|].
  destruct (good_cycle_next _ _ 0%nat x Hc eq_refl) as [Hx Hne].
  apply Hne. assert (is_Some (identity n !! x)) as [v Hv].
  { destruct Hc as (Hlen & _). rewrite Hx. apply lookup_lt_is_Some_2.
    apply Nat.mod_upper_bound. simpl in *. lia. }
  rewrite Hv. by apply lookup_identity_Some in Hv as [-> _].
Qed.

(** C9: on a valid permutation of {1, ..., n}, [to_cycles] returns the
    disjoint cycles of the permutation: every cycle has at least two
    points, sigma maps each listed point to the next one and the final
    one to the first, no point is listed twice, the listed points are
    exactly the points sigma moves, the first point of a cycle is its
    smallest and the first points ascend along the list.  The identity has
    no cycle, and its notation is "e" for every n. *)
Theorem to_cycles_spec (n : Z) :
  (∀ sigma, perm_on n sigma →
     ∃ cycles, to_cycles sigma = Ok cycles ∧
       Forall (λ c, 2 ≤ length c)%nat cycles ∧
       (∀ c j x, c ∈ cycles → c !! j = Some x →
          sigma !! x = c !! (S j `mod` length c)%nat) ∧
       NoDup (concat cycles) ∧
       (∀ x, x ∈ concat cycles ↔ ∃ v, sigma !! x = Some v ∧ v ≠ x) ∧
       (∀ c x, c ∈ cycles → x ∈ c → hd 0 c ≤ x) ∧
       StronglySorted Z.lt (hd 0 <$> cycles)) ∧
  to_cycles (identity n) = Ok [] ∧
  cycle_notation_str (identity n) = Ok "e".
Proof.
  split; [|split; [apply to_cycles_identity|]].
  - intros sigma Hs%perm_on_valid.
    destruct (to_cycles_valid sigma Hs) as (V & cycles & Hrun & Hinv).
    destruct (sorted_keys_spec sigma) as (_ & _ & Hks).
    destruct Hinv as [Icl Iscan Imv Ivis Igood Idis Iheads Isorted].
    rewrite Forall_forall in Igood.
    exists cycles. split; [done|]. repeat split.
    + apply Forall_forall. intros c Hc. by destruct (Igood c Hc).
    + intros c j x Hc Hj. by destruct (good_cycle_next sigma c j x (Igood c Hc) Hj).
    + done.
    + intros (c & Hx & Hc)%elem_of_concat.
      apply list_elem_of_lookup_1 in Hx as [j Hj].
      destruct (good_cycle_next sigma c j x (Igood c Hc) Hj) as [Hn Hne].
      destruct (sigma !! x) as [v|] eqn:Hv.
      * exists v. split; [done|]. by intros ->.
      * symmetry in Hn. apply lookup_ge_None in Hn.
        destruct (Igood c Hc) as (Hlen & _).
        pose proof (Nat.mod_upper_bound (S j) (length c)). lia.
    + intros (v & Hv & Hne). apply Imv.
      * apply Iscan, Hks, elem_of_dom. eauto.
      * rewrite Hv. by intros [= ->].
    + intros c x Hc Hx. destruct (Igood c Hc) as (_ & _ & _ & Hmin). by apply Hmin.
    + done.
  - unfold cycle_notation_str. by rewrite to_cycles_identity.
Qed.

Lemma to_cycles_spec_witness :
  perm_on 4 {[1 := 2; 2 := 3; 3 := 1; 4 := 4]} ∧
  ∃ cycles, to_cycles {[1 := 2; 2 := 3; 3 := 1; 4 := 4]} = Ok cycles ∧
            Forall (λ c, 2 ≤ length c)%nat cycles.
Proof.
  split; [split; vm_compute; reflexivity|].
  destruct (to_cycles_spec 4) as [Hspec _].
  destruct (Hspec {[1 := 2; 2 := 3; 3 := 1; 4 := 4]}) as (cycles & Hrun & Hlen & _).
  - split; vm_compute; reflexivity.
  - exists cycles. split; [exact Hrun | exact Hlen].
Defined.

Example to_cycles_3_cycle :
  to_cycles {[1 := 2; 2 := 3; 3 := 1; 4 := 4]} = Ok [[1; 2; 3]] ∧
  cycle_notation_str {[1 := 2; 2 := 3; 3 := 1; 4 := 4]} = Ok "(1 2 3)".
Proof. split; vm_compute; reflexivity. Qed.

(** ** Canonical keys and the subgroup test *)

Lemma perm_key_inj sigma tau : perm_key sigma = perm_key tau → sigma = tau.
Proof.
  unfold perm_key, sorted_items, items. intros Heq.
  rewrite <-(list_to_map_to_list sigma), <-(list_to_map_to_list tau).
  apply list_to_map_proper; [apply NoDup_fst_map_to_list|].
  by rewrite <-(merge_sort_Permutation item_le (map_to_list sigma)), Heq,
    merge_sort_Permutation.
Qed.

Lemma elem_of_perm_keys sigma (l : list dict) :
  perm_key sigma ∈ perm_key <$> l ↔ sigma ∈ l.
Proof.
  rewrite list_elem_of_fmap. split.
  - by intros (tau & ->%perm_key_inj & ?).
  - intros ?. by exists sigma.
Qed.

Lemma all_pass_Ok {A} (check : A → result bool) (P : A → Prop) l :
  (∀ x, x ∈ l → ∃ b, check x = Ok b ∧ (b = true ↔ P x)) →
  ∃ b, all_pass check l = Ok b ∧ (b = true ↔ ∀ x, x ∈ l → P x).
Proof.
  induction l as [|x l IH]; intros Hc; simpl.
  - exists true. split; [done|]. split; [|done]. by intros _ ? ?%elem_of_nil.
  - destruct (Hc x) as (b & -> & Hb); [left|]. simpl. destruct b.
    + destruct IH as (b & -> & Hb'); [intros; apply Hc; by right|].
      exists b. split; [done|]. rewrite Hb'. split.
      * intros Hl y [->|?]%elem_of_cons; [by apply Hb|auto].
      * intros Hl y Hy. apply Hl. by right.
    + exists false. split; [done|]. split; [done|]. intros Hl.
      apply Hb, Hl. left.
Qed.

Lemma cycle_notation_str_valid sigma :
  valid sigma → ∃ s, cycle_notation_str sigma = Ok s.
Proof.
  intros (V & cycles & Hrun & _)%to_cycles_valid. unfold cycle_notation_str.
  rewrite Hrun. simpl. destruct cycles; eauto.
Qed.

Lemma closure_check_spec n (subset : list dict) s t :
  perm_on n s → perm_on n t →
  ∃ b, closure_check (canonical <$> subset) s t = Ok b ∧
       (b = true ↔ comp s t ∈ subset).
Proof.
  intros Hs Ht. unfold closure_check. rewrite (compose_perm_on n) by done. simpl.
  pose proof (elem_of_perm_keys (comp s t) subset) as Hkey.
  change perm_key with canonical in Hkey. case_decide as Hin.
  - destruct (cycle_notation_str_valid s) as [a ->]; [by eapply perm_on_valid|].
    destruct (cycle_notation_str_valid t) as [b ->]; [by eapply perm_on_valid|].
    destruct (cycle_notation_str_valid (comp s t)) as [c ->].
    { eapply perm_on_valid. by apply perm_on_comp. }
    simpl. exists false. split; [done|]. split; [done|]. by intros ?%Hkey.
  - exists true. split; [done|]. split; [|done].
    intros _. by apply Hkey.
Qed.

Lemma inverse_check_spec n (subset : list dict) s :
  perm_on n s →
  ∃ b, inverse_check (canonical <$> subset) s = Ok b ∧
       (b = true ↔ inverse s ∈ subset).
Proof.
  intros Hs. unfold inverse_check.
  pose proof (elem_of_perm_keys (inverse s) subset) as Hkey.
  change perm_key with canonical in Hkey. case_decide as Hin.
  - destruct (cycle_notation_str_valid s) as [a ->]; [by eapply perm_on_valid|].
    simpl. exists false. split; [done|]. split; [done|]. by intros ?%Hkey.
  - exists true. split; [done|]. split; [|done].
    intros _. by apply Hkey.
Qed.

(** On lists of valid permutations of {1, ..., n}, [is_subgroup] never
    raises and answers whether the three subgroup axioms hold. *)
Lemma is_subgroup_spec n (subset : list dict) :
  (∀ s, s ∈ subset → perm_on n s) →
  ∃ b, is_subgroup subset n = Ok b ∧
    (b = true ↔
       identity n ∈ subset ∧
       (∀ s t, s ∈ subset → t ∈ subset → comp s t ∈ subset) ∧
       (∀ s, s ∈ subset → inverse s ∈ subset)).
Proof.
  intros Hp. unfold is_subgroup.
  pose proof (elem_of_perm_keys (identity n) subset) as Hkey.
  change perm_key with canonical in Hkey. case_decide as Hin.
  { simpl. exists false. split; [done|]. split; [done|]. by intros [?%Hkey _]. }
  apply Hkey in Hin.
  destruct (all_pass_Ok
    (λ s, all_pass (closure_check (canonical <$> subset) s) subset)
    (λ s, ∀ t, t ∈ subset → comp s t ∈ subset) subset) as (b1 & -> & Hb1).
  { intros s Hs. apply all_pass_Ok. intros t Ht.
    apply (closure_check_spec n); auto. }
  simpl. destruct b1.
  - destruct (all_pass_Ok (inverse_check (canonical <$> subset))
      (λ s, inverse s ∈ subset) subset) as (b2 & -> & Hb2).
    { intros s Hs. apply (inverse_check_spec n); auto. }
    exists b2. split; [done|]. rewrite Hb2. split.
    + intros Hinv. split; [done|]. split; [|done].
      intros s t Hs Ht. by apply Hb1.
    + by intros (_ & _ & ?).
  - exists false. split; [done|]. split; [done|]. intros (_ & Hcl & _).
    apply Hb1. intros s Hs t Ht. by apply Hcl.
Qed.

(** ** Left cosets of a subgroup *)

Lemma comp_cancel_l n sigma a b :
  perm_on n sigma → perm_on n a → perm_on n b →
  comp sigma a = comp sigma b → a = b.
Proof.
  intros Hs Ha Hb Heq.
  rewrite <-(comp_identity_l n a), <-(comp_identity_l n b) by (apply Ha || apply Hb).
  rewrite <-(comp_inverse_l n sigma Hs), !comp_assoc. by rewrite Heq.
Qed.

Lemma concat_join {A} (ls : list (list A)) : concat ls = mjoin ls.
Proof. induction ls as [|l ls IH]; [done|]. simpl. by rewrite IH. Qed.

Lemma length_concat_const {A} (ls : list (list A)) c :
  (∀ l, l ∈ ls → length l = c) → length (concat ls) = (length ls * c)%nat.
Proof.
  induction ls as [|l ls IH]; intros Hl; [done|].
  simpl. rewrite length_app, IH, Hl; [done|left|].
  intros l' ?. apply Hl. by right.
Qed.

Section cosets.
Variable n : Z.
Variable H : list dict.
Hypothesis H_perm : ∀ h, h ∈ H → perm_on n h.
Hypothesis H_id : identity n ∈ H.
Hypothesis H_comp : ∀ s t, s ∈ H → t ∈ H → comp s t ∈ H.
Hypothesis H_inv : ∀ s, s ∈ H → inverse s ∈ H.

Lemma left_coset_Ok sigma :
  perm_on n sigma → left_coset sigma H = Ok (comp sigma <$> H).
Proof.
  intros Hs. unfold left_coset. apply mapM_Ok_total.
  intros h Hh. apply (compose_perm_on n); auto.
Qed.

Lemma coset_perm sigma x :
  perm_on n sigma → x ∈ comp sigma <$> H → perm_on n x.
Proof. intros Hs (h & -> & Hh)%list_elem_of_fmap. apply perm_on_comp; auto. Qed.

Lemma coset_rep sigma : perm_on n sigma → sigma ∈ comp sigma <$> H.
Proof.
  intros Hs. apply list_elem_of_fmap. exists (identity n). split; [|done].
  symmetry. apply comp_identity_r, Hs.
Qed.

Lemma coset_NoDup sigma : perm_on n sigma → NoDup H → NoDup (comp sigma <$> H).
Proof.
  intros Hs. apply NoDup_fmap_2_strong. intros a b Ha Hb.
  apply (comp_cancel_l n); auto.
Qed.

Lemma coset_meet sigma tau x :
  perm_on n sigma → perm_on n tau →
  x ∈ comp sigma <$> H → x ∈ comp tau <$> H → sigma ∈ comp tau <$> H.
Proof.
  intros Hs Ht (h & -> & Hh)%list_elem_of_fmap (h' & Heq & Hh')%list_elem_of_fmap.
  apply list_elem_of_fmap. exists (comp h' (inverse h)). split; [|auto].
  rewrite <-comp_assoc, <-Heq, comp_assoc, (comp_inverse_r n) by auto.
  symmetry. apply comp_identity_r, Hs.
Qed.

(** A coset that meets the subgroup is the subgroup. *)
Lemma coset_of_member sigma h :
  perm_on n sigma → h ∈ H → comp sigma h ∈ H →
  ∀ x, x ∈ comp sigma <$> H ↔ x ∈ H.
Proof.
  intros Hs Hh Hsh.
  assert (sigma ∈ H) as HsH.
  { replace sigma with (comp (comp sigma h) (inverse h)); [auto|].
    rewrite comp_assoc, (comp_inverse_r n) by auto. apply comp_identity_r, Hs. }
  intros x. rewrite list_elem_of_fmap. split.
  - intros (h' & -> & Hh'). auto.
  - intros Hx. exists (comp (inverse sigma) x). split; [|auto].
    rewrite <-comp_assoc, (comp_inverse_r n) by done.
    symmetry. apply comp_identity_l, (H_perm x Hx).
Qed.

Lemma covered_foldl (covered : gset (list (Z * Z))) (coset : list dict) :
  foldl (λ cov element, {[perm_key element]} ∪ cov) covered coset
    = covered ∪ list_to_set (perm_key <$> coset).
Proof.
  revert covered. induction coset as [|x coset IH]; intros covered; simpl.
  - set_solver.
  - rewrite IH. set_solver.
Qed.

Lemma coset_step_eq covered cosets sigma :
  coset_step H (covered, cosets) sigma =
    if decide (perm_key sigma ∉ covered) then
      coset ← left_coset sigma H;
      Ok (foldl (λ cov element, {[perm_key element]} ∪ cov) covered coset,
          cosets ++ [coset])
    else Ok (covered, cosets).
Proof. done. Qed.

Lemma coset_loop rest pre covered cosets :
  NoDup H →
  (∀ sigma, sigma ∈ rest → perm_on n sigma) →
  cosets_inv n H pre covered cosets →
  ∃ covered' cosets',
    for_each (coset_step H) (covered, cosets) rest = Ok (covered', cosets') ∧
    cosets_inv n H (pre ++ rest) covered' cosets'.
Proof.
  intros Hnd. revert pre covered cosets.
  induction rest as [|sigma rest IH]; intros pre covered cosets Hrest Hinv.
  - exists covered, cosets. by rewrite app_nil_r.
  - assert (perm_on n sigma) as Hs by (apply Hrest; left).
    assert (pre ++ sigma :: rest = (pre ++ [sigma]) ++ rest) as ->
      by (by rewrite <-app_assoc).
    destruct Hinv as (Hcov & Hall & Hdis & Hpre).
    assert (perm_key sigma ∈ covered ↔ sigma ∈ concat cosets) as Hin.
    { rewrite Hcov, elem_of_list_to_set. apply elem_of_perm_keys. }
    cbn [for_each]. rewrite coset_step_eq.
    destruct (decide (perm_key sigma ∉ covered)) as [Hnew|Hold].
    + rewrite left_coset_Ok by done. cbn [mbind result_bind].
      apply IH; [intros; apply Hrest; by right|]. split; [|split; [|split]].
      * rewrite covered_foldl, Hcov, concat_app, fmap_app, list_to_set_app_L.
        simpl. by rewrite app_nil_r.
      * apply Forall_app. split; [done|]. apply Forall_singleton. eauto.
      * rewrite concat_app. simpl. rewrite app_nil_r.
        apply NoDup_app. split; [done|]. split; [|by apply coset_NoDup].
        intros x (c & Hx & Hc)%elem_of_concat Hx'. apply Hnew, Hin.
        rewrite Forall_forall in Hall. destruct (Hall c Hc) as (tau & Ht & ->).
        apply elem_of_concat. exists (comp tau <$> H). split; [|done].
        by apply (coset_meet sigma tau x).
      * intros tau Htau. rewrite concat_app, elem_of_app. simpl. rewrite app_nil_r.
        apply elem_of_app in Htau as [?| ->%list_elem_of_singleton]; [left; auto|].
        right. by apply coset_rep.
    + cbn [mbind result_bind]. apply dec_stable in Hold.
      apply IH; [intros; apply Hrest; by right|]. split; [done|]. split; [done|].
      split; [done|].
      intros tau [?| ->%list_elem_of_singleton]%elem_of_app; [auto|by apply Hin].
Qed.

End cosets.

(** ** The stable sort on keys *)

Section stable_sort.
Context {A : Type}.
Implicit Types (l : list (Z * A)).

Lemma insert_by_key_Permutation k (x : A) l : insert_by_key k x l ≡ₚ (k, x) :: l.
Proof.
  induction l as [|[k' y] l IH]; simpl; [done|].
  case_decide; [done|]. by rewrite IH, Permutation_swap.
Qed.

Lemma sort_keyed_Permutation l :
  foldr (λ p acc, insert_by_key p.1 p.2 acc) [] l ≡ₚ l.
Proof.
  induction l as [|[k x] l IH]; simpl; [done|].
  by rewrite insert_by_key_Permutation, IH.
Qed.

Lemma insert_by_key_sorted k (x : A) l :
  StronglySorted (λ a b, a.1 ≤ b.1) l →
  StronglySorted (λ a b, a.1 ≤ b.1) (insert_by_key k x l).
Proof.
  induction l as [|[k' y] l IH]; intros Hl; simpl.
  - repeat constructor.
  - apply StronglySorted_cons in Hl as [Hall Hl]. case_decide as Hk.
    + apply StronglySorted_cons. split.
      * constructor; [done|]. eapply Forall_impl; [done|]. simpl. lia.
      * by apply StronglySorted_cons.
    + apply StronglySorted_cons. split; [|by apply IH].
      rewrite insert_by_key_Permutation. constructor; [simpl; lia|done].
Qed.

Lemma sort_keyed_sorted l :
  StronglySorted (λ a b, a.1 ≤ b.1)
    (foldr (λ p acc, insert_by_key p.1 p.2 acc) [] l).
Proof.
  induction l as [|[k x] l IH]; simpl; [constructor|].
  by apply insert_by_key_sorted.
Qed.

Lemma stable_sort_keyed_Permutation l : stable_sort_keyed l ≡ₚ l.*2.
Proof. unfold stable_sort_keyed. by rewrite sort_keyed_Permutation. Qed.

(** The first element of the sorted list carries a least key. *)
Lemma stable_sort_keyed_head l c cs :
  stable_sort_keyed l = c :: cs →
  ∃ k, (k, c) ∈ l ∧ ∀ k' c', (k', c') ∈ l → k ≤ k'.
Proof.
  unfold stable_sort_keyed. intros Heq.
  pose proof (sort_keyed_sorted l) as Hs. pose proof (sort_keyed_Permutation l) as Hp.
  destruct (foldr _ _ l) as [|[k c1] s]; simplify_eq/=.
  exists k. split; [rewrite <-Hp; left|].
  intros k' c' Hin. rewrite <-Hp in Hin.
  apply StronglySorted_cons in Hs as [Hall _].
  apply elem_of_cons in Hin as [[= -> ->]|Hin]; [lia|].
  rewrite Forall_forall in Hall. by apply (Hall _ Hin).
Qed.

Lemma insert_by_key_app k (x : A) l1 l2 :
  Forall (λ p, p.1 < k) l1 → Forall (λ p, k ≤ p.1) l2 →
  insert_by_key k x (l1 ++ l2) = l1 ++ (k, x) :: l2.
Proof.
  intros H1 H2. induction H1 as [|[k' y] l1 Hk' _ IH]; simpl in *.
  - destruct H2 as [|[k' y] l2 Hk' _]; simpl in *; [done|].
    by rewrite decide_True.
  - rewrite decide_False by lia. by rewrite IH.
Qed.

(** Equal keys keep their order: with keys 0 and 1 the sort moves the
    elements of key 0 to the front and changes nothing else. *)
Lemma stable_sort_keyed_01 l :
  (∀ p, p ∈ l → p.1 = 0 ∨ p.1 = 1) →
  stable_sort_keyed l = (filter (λ p, p.1 = 0) l).*2 ++ (filter (λ p, p.1 ≠ 0) l).*2.
Proof.
  unfold stable_sort_keyed. intros H01. rewrite <-fmap_app. f_equal.
  induction l as [|[k x] l IH]; [done|].
  cbn [foldr]. rewrite IH by (intros; apply H01; by right). clear IH.
  assert (k = 0 ∨ k = 1) as Hk by (apply (H01 (k, x)); left).
  assert (∀ p, p ∈ l → p.1 = 0 ∨ p.1 = 1) as Hl by (intros; apply H01; by right).
  clear H01. cbn [fst snd]. rewrite !filter_cons. cbn [fst].
  destruct Hk as [-> | ->].
  - rewrite (decide_True (P := 0 = 0)), (decide_False (P := 0 ≠ 0))
      by (done || by intros []).
    apply (insert_by_key_app 0 x []); [constructor|].
    apply Forall_forall. intros p [[Hp _]%list_elem_of_filter|[_ Hp]%list_elem_of_filter]%elem_of_app;
      [lia|]. destruct (Hl p Hp); lia.
  - rewrite (decide_False (P := 1 = 0)), (decide_True (P := 1 ≠ 0)) by done.
    apply insert_by_key_app; apply Forall_forall.
    + intros p [Hp _]%list_elem_of_filter. lia.
    + intros p [Hne Hp]%list_elem_of_filter. destruct (Hl p Hp); lia.
Qed.

End stable_sort.

(** ** [coset_decomposition] *)

Lemma elem_of_zip_fmap {A B} (g : A → B) (l : list A) k c :
  (k, c) ∈ zip (g <$> l) l → k = g c ∧ c ∈ l.
Proof.
  induction l as [|x l IH]; simpl; [by intros ?%elem_of_nil|].
  intros [[= -> ->]|[-> ?]%IH]%elem_of_cons; split; (done || by constructor).
Qed.

Lemma coset_decomposition_spec n (H : list dict) :
  H ≠ [] → NoDup H →
  (∀ h, h ∈ H → perm_on n h) →
  identity n ∈ H →
  (∀ s t, s ∈ H → t ∈ H → comp s t ∈ H) →
  (∀ s, s ∈ H → inverse s ∈ H) →
  ∃ cosets, coset_decomposition (generate_Sn n) H = Ok cosets ∧
    Forall (λ c, ∃ sigma, perm_on n sigma ∧ c = comp sigma <$> H) cosets ∧
    concat cosets ≡ₚ generate_Sn n ∧
    ∃ c0, cosets !! 0%nat = Some c0 ∧ ∀ x, x ∈ c0 ↔ x ∈ H.
Proof.
  intros Hne Hnd Hperm Hid Hcomp Hinv.
  destruct (coset_loop n H Hperm Hid Hcomp Hinv (generate_Sn n) [] ∅ [] Hnd)
    as (covered & cosets0 & Hrun & Hcov & Hall & Hdis & Hpre).
  { intros sigma. apply elem_of_generate_Sn. }
  { split; [done|]. split; [constructor|]. split; [constructor|].
    by intros ? ?%elem_of_nil. }
  simpl in Hpre. rewrite Forall_forall in Hall.
  set (subgroup_keys := list_to_set (perm_key <$> H) : gset (list (Z * Z))).
  set (key := λ c : list dict,
    match c with
    | [] => 0
    | c0 :: _ => if decide (perm_key c0 ∈ subgroup_keys) then 0 else 1
    end).
  assert (∀ c, c ∈ cosets0 → c ≠ []) as Hcne.
  { intros c (sigma & _ & ->)%Hall. by destruct H. }
  assert (mapM (coset_sort_key subgroup_keys) cosets0 = Ok (key <$> cosets0)) as Hkeys.
  { apply mapM_Ok_total. intros c Hc%Hcne. by destruct c. }
  assert (concat cosets0 ≡ₚ generate_Sn n) as Hpart.
  { apply NoDup_Permutation; [done|apply NoDup_generate_Sn|].
    intros x. split; [|apply Hpre].
    intros (c & Hx & (sigma & Hs & ->)%Hall)%elem_of_concat.
    apply elem_of_generate_Sn. by apply (coset_perm n H Hperm sigma). }
  remember (stable_sort_keyed (zip (key <$> cosets0) cosets0)) as sorted eqn:Hsd.
  assert (sorted ≡ₚ cosets0) as Hsorted.
  { rewrite Hsd, stable_sort_keyed_Permutation, snd_zip; [done|].
    by rewrite length_fmap. }
  exists sorted. split.
  { unfold coset_decomposition. fold subgroup_keys. rewrite Hrun. simpl.
    by rewrite Hkeys, Hsd. }
  split; [apply Forall_forall; intros c Hc; apply Hall; by rewrite <-Hsorted|].
  split; [by rewrite !concat_join, Hsorted, <-concat_join|].
  assert (∀ c x, c ∈ cosets0 → x ∈ c → x ∈ H → ∀ y, y ∈ c ↔ y ∈ H) as Hmeet.
  { intros c x (tau & Ht & ->)%Hall (h & -> & Hh)%list_elem_of_fmap Hx.
    by apply (coset_of_member n H Hperm Hcomp Hinv tau h). }
  assert (∀ c, c ∈ cosets0 → key c = 0 ↔ ∃ x, x ∈ c ∧ x ∈ H) as Hkey.
  { intros c Hc. pose proof (Hcne c Hc). destruct c as [|c0 c']; [done|].
    unfold key, subgroup_keys.
    destruct (decide (perm_key c0 ∈ _)) as [Hc0|Hc0];
      rewrite elem_of_list_to_set, elem_of_perm_keys in Hc0; split; try done.
    - intros _. exists c0. split; [left|done].
    - intros (x & Hx & HxH). exfalso. apply Hc0.
      apply (Hmeet (c0 :: c') x Hc Hx HxH). left. }
  assert (∃ c, c ∈ cosets0 ∧ key c = 0) as (cid & Hcid & Hkid).
  { assert (identity n ∈ concat cosets0) as (c & Hin & Hc)%elem_of_concat.
    { rewrite Hpart. apply elem_of_generate_Sn, perm_on_identity. }
    exists c. split; [done|]. apply Hkey; eauto. }
  destruct sorted as [|c1 rest].
  { apply Permutation_nil_l in Hsorted. rewrite <-Hsorted in Hcid.
    by apply elem_of_nil in Hcid. }
  exists c1. split; [done|].
  symmetry in Hsd.
  destruct (stable_sort_keyed_head _ _ _ Hsd) as (k & [-> Hc1]%elem_of_zip_fmap & Hmin).
  enough (key c1 = 0) as Hk1.
  { apply (Hkey c1 Hc1) in Hk1 as (x & Hx & HxH). by eapply Hmeet. }
  assert (key c1 ≤ 0).
  { rewrite <-Hkid. apply (Hmin (key cid) cid).
    clear -Hcid. induction cosets0 as [|c l IH]; [by apply elem_of_nil in Hcid|].
    simpl. apply elem_of_cons in Hcid as [->|?]; [left|right; auto]. }
  assert (0 ≤ key c1); [|lia].
  unfold key. destruct c1; [done|]. case_decide; lia.
Qed.

Lemma concat_disjoint {A} (ls : list (list A)) i j c1 c2 x :
  NoDup (concat ls) → i ≠ j → ls !! i = Some c1 → ls !! j = Some c2 →
  x ∈ c1 → x ∉ c2.
Proof.
  revert i j. induction ls as [|l ls IH]; intros i j Hnd Hij Hi Hj Hx1 Hx2; [done|].
  simpl in Hnd. apply NoDup_app in Hnd as (_ & Hdis & Hnd).
  destruct i as [|i], j as [|j]; simplify_eq/=.
  - apply (Hdis x Hx1). apply elem_of_concat. exists c2.
    split; [done|]. by eapply list_elem_of_lookup_2.
  - apply (Hdis x Hx2). apply elem_of_concat. exists c1.
    split; [done|]. by eapply list_elem_of_lookup_2.
  - apply (IH i j); auto.
Qed.

Lemma coset_count n (H : list dict) (cosets : list (list dict)) :
  H ≠ [] →
  Forall (λ c, ∃ sigma, perm_on n sigma ∧ c = comp sigma <$> H) cosets →
  concat cosets ≡ₚ generate_Sn n →
  (length cosets * length H = fact (Z.to_nat n))%nat ∧
  floordiv (len (generate_Sn n)) (len H) = Ok (len cosets) ∧
  foldr Z.add 0 (len <$> cosets) = len (generate_Sn n).
Proof.
  intros Hne Hall Hpart. rewrite Forall_forall in Hall.
  assert (length cosets * length H = fact (Z.to_nat n))%nat as Hcount.
  { rewrite <-length_generate_Sn, <-Hpart. symmetry. apply length_concat_const.
    intros c (sigma & _ & ->)%Hall. apply length_fmap. }
  assert (foldr Z.add 0 (len <$> cosets) = len (concat cosets)) as Hsum.
  { clear. induction cosets as [|c cosets IH]; [done|].
    rewrite fmap_cons. cbn [foldr concat]. rewrite IH. unfold len.
    rewrite length_app. lia. }
  split; [done|]. split.
  - unfold floordiv, len. rewrite length_generate_Sn, <-Hcount.
    rewrite decide_False by (destruct H; [done|simpl; lia]).
    f_equal. rewrite Nat2Z.inj_mul. apply Z.div_mul. destruct H; [done|simpl; lia].
  - rewrite Hsum. unfold len. by rewrite Hpart.
Qed.

Lemma is_subgroup_axioms n (H : list dict) :
  (∀ h, h ∈ H → perm_on n h) → is_subgroup H n = Ok true →
  identity n ∈ H ∧
  (∀ s t, s ∈ H → t ∈ H → comp s t ∈ H) ∧
  (∀ s, s ∈ H → inverse s ∈ H).
Proof.
  intros Hperm Hsub. destruct (is_subgroup_spec n H Hperm) as (b & Hb & Hiff).
  rewrite Hb in Hsub. apply Hiff. by simplify_eq.
Qed.

(** C2: for a non-empty duplicate-free list H of members of
    [generate_Sn n] that passes the subgroup test, [coset_decomposition]
    returns len(Sn) // len(H) lists, each of which is a coset of H: it is
    left_coset(sigma, H) for a member sigma of S_n that it contains, and
    has len(H) members.  The cosets are pairwise disjoint, their union is
    S_n, every member of S_n is listed exactly once in all, and the first
    coset has the same members as H. *)
Theorem coset_decomposition_partition (n : Z) (H : list dict) :
  H ≠ [] → NoDup H →
  Forall (λ h, h ∈ generate_Sn n) H →
  is_subgroup H n = Ok true →
  ∃ cosets, coset_decomposition (generate_Sn n) H = Ok cosets ∧
    floordiv (len (generate_Sn n)) (len H) = Ok (len cosets) ∧
    Forall (λ c, ∃ sigma, sigma ∈ generate_Sn n ∧ left_coset sigma H = Ok c ∧
                          sigma ∈ c ∧ len c = len H) cosets ∧
    (∀ i j c1 c2 x, i ≠ j → cosets !! i = Some c1 → cosets !! j = Some c2 →
       x ∈ c1 → x ∉ c2) ∧
    (∀ sigma, sigma ∈ generate_Sn n ↔ ∃ c, c ∈ cosets ∧ sigma ∈ c) ∧
    concat cosets ≡ₚ generate_Sn n ∧
    ∃ c0, cosets !! 0%nat = Some c0 ∧ ∀ x, x ∈ c0 ↔ x ∈ H.
Proof.
  intros Hne Hnd Hsub Hgrp.
  assert (∀ h, h ∈ H → perm_on n h) as Hperm.
  { rewrite Forall_forall in Hsub. intros h Hh. by apply elem_of_generate_Sn, Hsub. }
  destruct (is_subgroup_axioms n H Hperm Hgrp) as (Hid & Hcomp & Hinv).
  destruct (coset_decomposition_spec n H Hne Hnd Hperm Hid Hcomp Hinv)
    as (cosets & Hrun & Hall & Hpart & Hfirst).
  destruct (coset_count n H cosets Hne Hall Hpart) as (_ & Hdiv & _).
  exists cosets. split; [done|]. split; [done|]. split; [|split; [|split; [|done]]].
  - apply Forall_forall. intros c Hc. rewrite Forall_forall in Hall.
    destruct (Hall c Hc) as (sigma & Hs & ->). exists sigma.
    split; [by apply elem_of_generate_Sn|].
    split; [by apply (left_coset_Ok n H Hperm)|].
    split; [by apply (coset_rep n H Hid)|].
    unfold len. by rewrite length_fmap.
  - intros i j c1 c2 x. apply concat_disjoint.
    rewrite Hpart. apply NoDup_generate_Sn.
  - intros sigma. rewrite <-Hpart, elem_of_concat. naive_solver.
Qed.

Lemma coset_decomposition_partition_witness :
  [identity 3; {[1 := 1; 2 := 3; 3 := 2]}] ≠ [] ∧
  NoDup [identity 3; {[1 := 1; 2 := 3; 3 := 2]}] ∧
  Forall (λ h, h ∈ generate_Sn 3) [identity 3; {[1 := 1; 2 := 3; 3 := 2]}] ∧
  is_subgroup [identity 3; {[1 := 1; 2 := 3; 3 := 2]}] 3 = Ok true ∧
  ∃ cosets,
    coset_decomposition (generate_Sn 3) [identity 3; {[1 := 1; 2 := 3; 3 := 2]}]
      = Ok cosets ∧
    floordiv (len (generate_Sn 3)) (len [identity 3; {[1 := 1; 2 := 3; 3 := 2]}])
      = Ok (len cosets).
Proof.
  assert ([identity 3; {[1 := 1; 2 := 3; 3 := 2]}] ≠ []) as H1 by done.
  assert (NoDup [identity 3; {[1 := 1; 2 := 3; 3 := 2]}]) as H2.
  { apply (bool_decide_unpack _). vm_compute. exact I. }
  assert (Forall (λ h, h ∈ generate_Sn 3) [identity 3; {[1 := 1; 2 := 3; 3 := 2]}])
    as H3.
  { apply (bool_decide_unpack _). vm_compute. exact I. }
  assert (is_subgroup [identity 3; {[1 := 1; 2 := 3; 3 := 2]}] 3 = Ok true) as H4.
  { vm_compute. reflexivity. }
  repeat (split; [assumption|]).
  destruct (coset_decomposition_partition 3 [identity 3; {[1 := 1; 2 := 3; 3 := 2]}]
              H1 H2 H3 H4) as (cosets & Hrun & Hdiv & _).
  exists cosets. split; [exact Hrun | exact Hdiv].
Defined.

(** The count is about duplicate-free lists: listing a member of the
    subgroup twice doubles its length but not the number of cosets. *)
Example coset_count_with_duplicates :
  is_subgroup [identity 2; identity 2] 2 = Ok true ∧
  floordiv (len (generate_Sn 2)) (len [identity 2; identity 2]) = Ok 1 ∧
  len <$> coset_decomposition (generate_Sn 2) [identity 2; identity 2] = Ok 2.
Proof. repeat split; vm_compute; reflexivity. Qed.

(** ** Counting the permutations with a prescribed image *)

Section counting.
Context {A : Type} `{!EqDecision A}.
Implicit Types (l : list A) (a : A).

Lemma length_filter_ext {B} (P Q : B → Prop) `{!∀ x, Decision (P x)}
    `{!∀ x, Decision (Q x)} (k : list B) :
  (∀ x, x ∈ k → P x ↔ Q x) → length (filter P k) = length (filter Q k).
Proof.
  induction k as [|x k IH]; intros Hext; [done|].
  rewrite !filter_cons.
  assert (P x ↔ Q x) as Hx by (apply Hext; left).
  assert (length (filter P k) = length (filter Q k)) as Hk.
  { apply IH. intros y Hy. apply Hext. by right. }
  destruct (decide (P x)), (decide (Q x)); simpl; (lia || tauto).
Qed.

Lemma length_filter_all {B} (P : B → Prop) `{!∀ x, Decision (P x)} (k : list B) :
  (∀ x, x ∈ k → P x) → length (filter P k) = length k.
Proof.
  induction k as [|x k IH]; intros HP; [done|].
  rewrite filter_cons, decide_True by (apply HP; left).
  simpl. rewrite IH; [done|]. intros y Hy. apply HP. by right.
Qed.

Lemma length_filter_none {B} (P : B → Prop) `{!∀ x, Decision (P x)} (k : list B) :
  (∀ x, x ∈ k → ¬ P x) → length (filter P k) = 0%nat.
Proof.
  induction k as [|x k IH]; intros HP; [done|].
  rewrite filter_cons, decide_False by (apply HP; left).
  apply IH. intros y Hy. apply HP. by right.
Qed.

Lemma length_filter_fmap {B C} (f : B → C) (P : C → Prop) `{!∀ x, Decision (P x)}
    (k : list B) :
  length (filter P (f <$> k)) = length (filter (λ x, P (f x)) k).
Proof.
  induction k as [|x k IH]; [done|].
  rewrite fmap_cons, !filter_cons. destruct (decide (P (f x))); simpl; lia.
Qed.

Lemma length_filter_bind {B C} (f : B → list C) (P : C → Prop)
    `{!∀ x, Decision (P x)} (k : list B) :
  length (filter P (k ≫= f)) = sum_list_with (λ x, length (filter P (f x))) k.
Proof.
  induction k as [|x k IH]; [done|].
  rewrite bind_cons, filter_app, length_app, IH. done.
Qed.

Lemma sum_list_with_ext {B} (f g : B → nat) (k : list B) :
  (∀ x, x ∈ k → f x = g x) → sum_list_with f k = sum_list_with g k.
Proof.
  induction k as [|x k IH]; intros Hext; [done|].
  simpl. rewrite IH, (Hext x); [done|left|]. intros y Hy. apply Hext. by right.
Qed.

Lemma sum_list_with_fmap {B C} (f : B → C) (g : C → nat) (k : list B) :
  sum_list_with g (f <$> k) = sum_list_with (λ x, g (f x)) k.
Proof. induction k as [|x k IH]; [done|]. csimpl. by rewrite IH. Qed.

Lemma sum_indicator_absent a (u w : nat) l :
  a ∉ l → sum_list_with (λ b, if decide (b = a) then u else w) l = (length l * w)%nat.
Proof.
  induction l as [|b l IH]; intros Ha; [done|].
  apply not_elem_of_cons in Ha as [Hne Ha]. simpl.
  rewrite decide_False by done. rewrite IH by done. lia.
Qed.

Lemma sum_indicator a (u w : nat) l :
  NoDup l → a ∈ l →
  sum_list_with (λ b, if decide (b = a) then u else w) l
    = (u + (length l - 1) * w)%nat.
Proof.
  induction l as [|b l IH]; intros Hnd Ha; [by apply elem_of_nil in Ha|].
  apply NoDup_cons in Hnd as [Hb Hnd]. simpl. destruct (decide (b = a)) as [->|Hne].
  - rewrite sum_indicator_absent by done. lia.
  - apply elem_of_cons in Ha as [->|Ha]; [done|]. rewrite IH by done.
    destruct l; [by apply elem_of_nil in Ha|]. simpl. lia.
Qed.

Lemma count_arrangements r l j a :
  NoDup l → length l = r → a ∈ l → (j < r)%nat →
  length (filter (λ p, p !! j = Some a) (arrangements r l)) = fact (r - 1).
Proof.
  revert l j. induction r as [|r IH]; intros l j Hnd Hlen Ha Hj; [lia|].
  cbn [arrangements]. rewrite length_filter_bind.
  assert (∀ q, q ∈ selections l →
    (q.1 ∉ q.2) ∧ NoDup (q.2) ∧ length (q.2) = r ∧ (q.1 ≠ a → a ∈ q.2)) as Hsel.
  { intros q Hq%selections_Permutation. rewrite Hq in Hnd, Ha.
    apply NoDup_cons in Hnd as [? ?]. split; [done|]. split; [done|]. split.
    - apply Permutation_length in Hq. simpl in Hq. lia.
    - intros Hne. by apply elem_of_cons in Ha as [->|?]. }
  destruct j as [|j].
  - transitivity (sum_list_with (λ b, if decide (b = a) then fact r else 0%nat) l).
    2:{ rewrite sum_indicator by done. replace (S r - 1)%nat with r by lia. lia. }
    rewrite <-(selections_fst l) at 2. rewrite sum_list_with_fmap.
    apply sum_list_with_ext.
    + intros q Hq. rewrite length_filter_fmap. simpl.
      destruct (Hsel q Hq) as (_ & _ & Hr & _).
      case_decide as Hqa.
      * rewrite length_filter_all by (intros; simpl; congruence).
        by apply length_arrangements.
      * apply length_filter_none. intros; simpl; congruence.
  - transitivity (sum_list_with (λ b, if decide (b = a) then 0%nat else fact (r - 1)) l).
    2:{ rewrite sum_indicator, Hlen by done.
        replace (S r - 1)%nat with r by lia. simpl.
        destruct r as [|r]; [lia|]. simpl. rewrite Nat.sub_0_r. lia. }
    rewrite <-(selections_fst l) at 2. rewrite sum_list_with_fmap.
    apply sum_list_with_ext.
    + intros q Hq. rewrite length_filter_fmap. simpl.
      destruct (Hsel q Hq) as (Hfresh & Hnd' & Hr & Hin).
      case_decide as Hqa.
      * apply length_filter_none.
        intros p Hp%elem_of_arrangements; [|done].
        intros Hpj%list_elem_of_lookup_2. rewrite Hp, <-Hqa in Hpj. done.
      * apply IH; auto. lia.
Qed.

End counting.

(** ** Stabilizer and orbit *)

Lemma compute_stabilizer_Ok n (Sn : list dict) x :
  (∀ sigma, sigma ∈ Sn → perm_on n sigma) → 1 ≤ x ≤ n →
  compute_stabilizer Sn x = Ok (fixing x Sn).
Proof.
  intros Hperm Hx. unfold fixing. induction Sn as [|sigma Sn IH]; [done|].
  simpl. destruct (perm_on_lookup n sigma x) as (v & Hv & _); [apply Hperm; left|done|].
  apply getitem_Ok in Hv as Hg. rewrite Hg. simpl.
  rewrite IH by (intros; apply Hperm; by right). simpl. f_equal.
  rewrite filter_cons, Hv.
  destruct (decide (v = x)) as [->|Hne].
  - by rewrite decide_True.
  - rewrite decide_False; [done|]. by intros [= ?].
Qed.

Lemma lookup_swap n x y i :
  swap n x y !! i =
    if decide (i = x) then Some y
    else if decide (i = y) then Some x else identity n !! i.
Proof.
  unfold swap. destruct (decide (i = x)) as [->|Hx].
  - by rewrite lookup_insert_eq.
  - rewrite lookup_insert_ne by done. destruct (decide (i = y)) as [->|Hy].
    + by rewrite lookup_insert_eq.
    + by rewrite lookup_insert_ne.
Qed.

Lemma perm_on_swap n x y : 1 ≤ x ≤ n → 1 ≤ y ≤ n → perm_on n (swap n x y).
Proof.
  intros Hx Hy. unfold perm_on, keys, values. split; apply set_eq; intros i.
  - rewrite elem_of_dom, elem_of_domain, lookup_swap, lookup_identity.
    destruct (decide (i = x)) as [->|?]; [split; [done|intros _; eauto]|].
    destruct (decide (i = y)) as [->|?]; [split; [done|intros _; eauto]|].
    destruct (decide (1 ≤ i ≤ n)); split; try done; try (intros _; eauto).
  - rewrite elem_of_map_img, elem_of_domain. setoid_rewrite lookup_swap. split.
    + intros (k & Hk). rewrite lookup_identity in Hk.
      repeat case_decide; simplify_eq; lia.
    + intros Hi. destruct (decide (i = y)) as [->|Hiy].
      { exists x. by rewrite decide_True. }
      destruct (decide (i = x)) as [->|Hix].
      { exists y. rewrite decide_False, decide_True by done. done. }
      exists i. rewrite !decide_False by done. by apply lookup_identity_Some.
Qed.

Lemma compute_orbit_Ok n x :
  1 ≤ x ≤ n → compute_orbit (generate_Sn n) x = Ok (domain n).
Proof.
  intros Hx. unfold compute_orbit.
  rewrite (mapM_Ok_total _ (λ sigma, sigma !!! x)).
  - simpl. f_equal. apply set_eq. intros y.
    rewrite elem_of_list_to_set, list_elem_of_fmap, elem_of_domain. split.
    + intros (sigma & -> & Hs%elem_of_generate_Sn).
      by apply (perm_on_total n sigma x).
    + intros Hy. exists (swap n x y). split.
      * symmetry. apply lookup_total_correct. rewrite lookup_swap.
        by rewrite decide_True.
      * by apply elem_of_generate_Sn, perm_on_swap.
  - intros sigma Hs%elem_of_generate_Sn.
    destruct (perm_on_total n sigma x Hs Hx) as [Hv _]. by apply getitem_Ok.
Qed.

Lemma elem_of_fixing x (Sn : list dict) sigma :
  sigma ∈ fixing x Sn ↔ sigma !! x = Some x ∧ sigma ∈ Sn.
Proof. unfold fixing. by rewrite list_elem_of_filter. Qed.

Lemma stabilizer_subgroup n x :
  1 ≤ x ≤ n →
  (∀ h, h ∈ fixing x (generate_Sn n) → perm_on n h) ∧
  NoDup (fixing x (generate_Sn n)) ∧
  identity n ∈ fixing x (generate_Sn n) ∧
  (∀ s t, s ∈ fixing x (generate_Sn n) → t ∈ fixing x (generate_Sn n) →
     comp s t ∈ fixing x (generate_Sn n)) ∧
  (∀ s, s ∈ fixing x (generate_Sn n) → inverse s ∈ fixing x (generate_Sn n)).
Proof.
  intros Hx. split; [|split; [|split; [|split]]].
  - intros h [_ Hh]%elem_of_fixing. by apply elem_of_generate_Sn.
  - apply NoDup_filter, NoDup_generate_Sn.
  - apply elem_of_fixing. split; [by apply lookup_identity_Some|].
    apply elem_of_generate_Sn, perm_on_identity.
  - intros s t [Hsx Hs%elem_of_generate_Sn]%elem_of_fixing
      [Htx Ht%elem_of_generate_Sn]%elem_of_fixing.
    apply elem_of_fixing. split.
    + by rewrite lookup_comp, Htx.
    + by apply elem_of_generate_Sn, perm_on_comp.
  - intros s [Hsx Hs%elem_of_generate_Sn]%elem_of_fixing.
    apply elem_of_fixing. split.
    + apply lookup_inverse; [by eapply perm_on_valid|done].
    + by apply elem_of_generate_Sn, perm_on_inverse.
Qed.

Lemma length_stabilizer n x :
  1 ≤ x ≤ n → length (fixing x (generate_Sn n)) = fact (Z.to_nat n - 1).
Proof.
  intros Hx. unfold fixing, generate_Sn, itertools_permutations.
  rewrite length_filter_fmap.
  rewrite (length_filter_ext _ (λ p : list Z, p !! Z.to_nat (x - 1) = Some x)).
  - rewrite length_seqZ. apply count_arrangements.
    + apply NoDup_seqZ.
    + apply length_seqZ.
    + apply elem_of_seqZ. lia.
    + lia.
  - intros p Hp%elem_of_arrangements; [|done].
    rewrite lookup_zip_dict by (by rewrite Hp, length_seqZ). split.
    + intros (j & Hj & Hpj). by replace (Z.to_nat (x - 1)) with j by lia.
    + intros Hpx. exists (Z.to_nat (x - 1)). split; [lia|done].
Qed.

(** ** [verify_stabilizer] *)

Lemma report_Ok verbose msg : report verbose msg = Ok tt.
Proof. by destruct verbose. Qed.

Lemma fact_pred N : (1 ≤ N)%nat → fact N = (N * fact (N - 1))%nat.
Proof. intros HN. destruct N as [|N]; [lia|]. simpl. by rewrite Nat.sub_0_r. Qed.

(** The facts behind the five checks of [verify_stabilizer]. *)
Lemma stabilizer_checks n x :
  1 ≤ x ≤ n →
  is_subgroup (fixing x (generate_Sn n)) n = Ok true ∧
  math_factorial (n - 1) = Ok (len (fixing x (generate_Sn n))) ∧
  len (generate_Sn n) = Z.of_nat (size (domain n)) * len (fixing x (generate_Sn n)) ∧
  floordiv (len (generate_Sn n)) (len (fixing x (generate_Sn n))) = Ok n ∧
  ∃ cosets,
    coset_decomposition (generate_Sn n) (fixing x (generate_Sn n)) = Ok cosets ∧
    len cosets = n ∧
    foldr Z.add 0 (len <$> cosets) = len (generate_Sn n).
Proof.
  intros Hx.
  destruct (stabilizer_subgroup n x Hx) as (Hperm & Hnd & Hid & Hcomp & Hinv).
  pose proof (length_stabilizer n x Hx) as Hlen.
  pose proof (length_generate_Sn n) as HSn.
  pose proof (fact_pred (Z.to_nat n) ltac:(lia)) as Hfact.
  pose proof (lt_O_fact (Z.to_nat n - 1)) as Hpos.
  assert (fixing x (generate_Sn n) ≠ []) as Hne.
  { intros Hnil. rewrite Hnil in Hid. by apply elem_of_nil in Hid. }
  destruct (coset_decomposition_spec n _ Hne Hnd Hperm Hid Hcomp Hinv)
    as (cosets & Hrun & Hall & Hpart & _).
  destruct (coset_count n _ cosets Hne Hall Hpart) as (Hcount & Hdiv & Hsum).
  assert (length cosets = Z.to_nat n) as Hcosets.
  { rewrite Hlen, Hfact in Hcount. nia. }
  split; [|split; [|split; [|split]]].
  - destruct (is_subgroup_spec n _ Hperm) as (b & Hb & Hiff).
    rewrite Hb. f_equal. by apply Hiff.
  - unfold math_factorial, len. rewrite decide_False by lia. rewrite Hlen.
    do 3 f_equal. lia.
  - unfold len. rewrite size_domain, HSn, Hlen, Hfact. lia.
  - rewrite Hdiv. unfold len. f_equal. lia.
  - exists cosets. split; [done|]. split; [unfold len; lia|done].
Qed.

Lemma compute_stabilizer_Sn n x :
  1 ≤ x ≤ n →
  compute_stabilizer (generate_Sn n) x = Ok (fixing x (generate_Sn n)).
Proof.
  intros Hx. apply (compute_stabilizer_Ok n); [|done].
  intros sigma. apply elem_of_generate_Sn.
Qed.

Lemma verify_stabilizer_run n x verbose :
  1 ≤ x ≤ n → verify_stabilizer n x verbose = Ok true.
Proof.
  intros Hx.
  destruct (stabilizer_checks n x Hx)
    as (Hsub & Hfact & Hos & Hidx & cosets & Hrun & Hlen & Hsum).
  unfold verify_stabilizer.
  rewrite compute_stabilizer_Sn, compute_orbit_Ok by done. cbn [mbind result_bind].
  rewrite !report_Ok. cbn [mbind result_bind]. rewrite Hsub. cbn [mbind result_bind].
  rewrite report_Ok, Hfact. cbn [mbind result_bind].
  rewrite !report_Ok, Hidx. cbn [mbind result_bind].
  rewrite report_Ok, Hrun. cbn [mbind result_bind].
  rewrite report_Ok. cbn [mbind result_bind].
  rewrite !bool_decide_eq_true_2 by done. done.
Qed.

(** C1: for n ≥ 1 and a fixed point in {1, ..., n}, [verify_stabilizer]
    returns True: the stabilizer of the point in [generate_Sn n] passes
    [is_subgroup], has (n-1)! elements, satisfies the orbit-stabilizer
    identity, has index n, and its coset decomposition has n cosets whose
    sizes sum to n!. *)
Theorem verify_stabilizer_true (n fixed_point : Z) (verbose : bool) :
  1 ≤ n → 1 ≤ fixed_point ≤ n →
  verify_stabilizer n fixed_point verbose = Ok true ∧
  ∃ stab orb cosets,
    compute_stabilizer (generate_Sn n) fixed_point = Ok stab ∧
    compute_orbit (generate_Sn n) fixed_point = Ok orb ∧
    is_subgroup stab n = Ok true ∧
    len stab = Z.of_nat (fact (Z.to_nat (n - 1))) ∧
    len (generate_Sn n) = Z.of_nat (size orb) * len stab ∧
    floordiv (len (generate_Sn n)) (len stab) = Ok n ∧
    coset_decomposition (generate_Sn n) stab = Ok cosets ∧
    len cosets = n ∧
    foldr Z.add 0 (len <$> cosets) = Z.of_nat (fact (Z.to_nat n)).
Proof.
  intros Hn Hx.
  destruct (stabilizer_checks n fixed_point Hx)
    as (Hsub & Hfact & Hos & Hidx & cosets & Hrun & Hlen & Hsum).
  pose proof (compute_stabilizer_Sn n fixed_point Hx) as Hstab.
  pose proof (compute_orbit_Ok n fixed_point Hx) as Horb.
  split; [by apply verify_stabilizer_run|].
  exists (fixing fixed_point (generate_Sn n)), (domain n), cosets.
  repeat (split; [done|]).
  split.
  { unfold math_factorial in Hfact. rewrite decide_False in Hfact by lia.
    by simplify_eq. }
  repeat (split; [done|]).
  rewrite Hsum. unfold len. by rewrite length_generate_Sn.
Qed.

Lemma verify_stabilizer_true_witness :
  1 ≤ 3 ∧ 1 ≤ 2 ≤ 3 ∧ verify_stabilizer 3 2 true = Ok true.
Proof.
  split; [lia|]. split; [lia|].
  apply (verify_stabilizer_true 3 2 true); lia.
Defined.

(** The fuel given to the inner loop of [to_cycles] is never exhausted,
    whatever the mapping. *)
Lemma to_cycles_no_fuel sigma : to_cycles sigma ≠ OutOfFuel.
Proof.
  unfold to_cycles.
  assert (∀ l st, for_each (to_cycles_step sigma) st l ≠ OutOfFuel) as Hloop.
  { induction l as [|s l IH]; intros [V cycles]; [done|].
    cbn [for_each]. rewrite to_cycles_step_eq. case_decide.
    - cbn [mbind result_bind]. apply IH.
    - destruct (walk _ _ _ _ _) as [vc| |] eqn:Hw; cbn [mbind result_bind];
        [apply IH|done|].
      exfalso. revert Hw. apply walk_fuel.
      rewrite <-(size_dom (D := gset Z)).
      assert (size (dom sigma ∖ V) ≤ size (dom sigma))%nat; [|lia].
      apply subseteq_size. set_solver. }
  intros Hf. destruct (for_each _ _ _) eqn:Hrun; try done. by eapply Hloop.
Qed.

(** ** The worked scenarios *)

Example compose_12_23 :
  compose {[1 := 2; 2 := 1; 3 := 3]} {[1 := 1; 2 := 3; 3 := 2]}
    = Ok {[1 := 2; 2 := 3; 3 := 1]} ∧
  cycle_notation_str {[1 := 2; 2 := 3; 3 := 1]} = Ok "(1 2 3)".
Proof. split; vm_compute; reflexivity. Qed.

Example stabilizer_of_1_in_S3 :
  compute_stabilizer (generate_Sn 3) 1
    = Ok [identity 3; {[1 := 1; 2 := 3; 3 := 2]}].
Proof. vm_compute. reflexivity. Qed.

Example cosets_of_stabilizer_in_S3 :
  (fmap (M := list) (fmap (M := list) cycle_notation_str)) <$>
    coset_decomposition (generate_Sn 3) [identity 3; {[1 := 1; 2 := 3; 3 := 2]}]
  = Ok [[Ok "e"; Ok "(2 3)"]; [Ok "(1 2)"; Ok "(1 2 3)"]; [Ok "(1 3 2)"; Ok "(1 3)"]].
Proof. vm_compute. reflexivity. Qed.

(** * Further properties of the code *)

(** ** [inverse] and [compose] on arbitrary key sets *)

Lemma valid_inverse sigma :
  valid sigma → keys (inverse sigma) = keys sigma ∧ values (inverse sigma) = keys sigma.
Proof.
  intros Hv. pose proof Hv as Hkv. unfold valid, keys, values in *.
  split; apply set_eq; intros i.
  - rewrite Hkv, elem_of_dom, elem_of_map_img. unfold is_Some.
    by setoid_rewrite (lookup_inverse sigma i _ Hv).
  - rewrite elem_of_dom, elem_of_map_img. unfold is_Some.
    by setoid_rewrite (λ v, lookup_inverse sigma v i Hv).
Qed.

Lemma valid_comp sigma tau :
  valid sigma → valid tau → keys sigma = keys tau →
  keys (comp sigma tau) = keys tau ∧ values (comp sigma tau) = keys tau.
Proof.
  intros Hs Ht Hk. unfold keys, values in *. split; apply set_eq; intros i.
  - rewrite !elem_of_dom, lookup_comp. split.
    + intros [v (t & Hit & _)%bind_Some]. eauto.
    + intros [t Hit]. rewrite Hit. simpl. apply elem_of_dom. rewrite Hk.
      apply elem_of_dom. by eapply valid_closed.
  - rewrite elem_of_map_img. setoid_rewrite lookup_comp. split.
    + intros [k (t & _ & Htv)%bind_Some]. rewrite <-Hk.
      unfold valid, keys, values in Hs. rewrite Hs. by eapply elem_of_map_img_2.
    + intros Hi. rewrite <-Hk in Hi. pose proof Hi as Hi'.
      unfold valid, keys, values in Hs. rewrite Hs in Hi.
      apply elem_of_map_img in Hi as [t Hti].
      assert (t ∈ dom tau) as Ht'.
      { rewrite <-Hk. apply elem_of_dom. eauto. }
      unfold valid, keys, values in Ht. rewrite Ht in Ht'.
      apply elem_of_map_img in Ht' as [k Hkt].
      exists k. by rewrite Hkt.
Qed.

(** X1: on every mapping that [make_permutation] accepts, whatever its key
    set, [inverse] is an involution, and the inverse is again accepted by
    [make_permutation] and has the same key set. *)
Theorem inverse_round_trip (sigma : dict) :
  valid sigma →
  inverse (inverse sigma) = sigma ∧
  make_permutation (inverse sigma) = Ok (inverse sigma) ∧
  keys (inverse sigma) = keys sigma.
Proof.
  intros Hv. destruct (valid_inverse sigma Hv) as [Hk Hi].
  assert (valid (inverse sigma)) as Hvi by (unfold valid; congruence).
  split; [|split; [|done]].
  - apply map_eq. intros i. apply option_eq. intros v.
    by rewrite (lookup_inverse _ _ _ Hvi), (lookup_inverse _ _ _ Hv).
  - unfold make_permutation. by rewrite decide_False by (by intros ?).
Qed.

Lemma inverse_round_trip_witness :
  valid {[5 := 7; 7 := 9; 9 := 5]} ∧
  inverse (inverse {[5 := 7; 7 := 9; 9 := 5]}) = {[5 := 7; 7 := 9; 9 := 5]}.
Proof.
  split; [vm_compute; reflexivity|].
  apply (inverse_round_trip {[5 := 7; 7 := 9; 9 := 5]}). vm_compute. reflexivity.
Defined.

(** X2: the composite of two accepted mappings with one key set is again
    accepted by [make_permutation] and keeps the key set, also when the
    key set is not {1, ..., n}. *)
Theorem compose_closed (sigma tau : dict) :
  valid sigma → valid tau → keys sigma = keys tau →
  ∃ rho, compose sigma tau = Ok rho ∧ make_permutation rho = Ok rho ∧
         keys rho = keys sigma.
Proof.
  intros Hs Ht Hk. exists (comp sigma tau). split; [by apply compose_valid|].
  destruct (valid_comp sigma tau Hs Ht Hk) as [Hkc Hvc]. split; [|congruence].
  unfold make_permutation. rewrite decide_False; [done|]. intros Hne. apply Hne. congruence.
Qed.

Lemma compose_closed_witness :
  valid {[5 := 7; 7 := 5]} ∧ valid {[5 := 5; 7 := 7]} ∧
  keys ({[5 := 7; 7 := 5]} : dict) = keys ({[5 := 5; 7 := 7]} : dict) ∧
  ∃ rho, compose {[5 := 7; 7 := 5]} {[5 := 5; 7 := 7]} = Ok rho ∧
         make_permutation rho = Ok rho ∧ keys rho = keys ({[5 := 7; 7 := 5]} : dict).
Proof.
  split; [vm_compute; reflexivity|]. split; [vm_compute; reflexivity|].
  split; [vm_compute; reflexivity|].
  apply (compose_closed {[5 := 7; 7 := 5]} {[5 := 5; 7 := 7]}); vm_compute; reflexivity.
Defined.

(** X3: inverting a composite composes the inverses in the opposite
    order: inverse(compose(sigma, tau)) = compose(inverse(tau),
    inverse(sigma)), for accepted mappings with one key set. *)
Theorem inverse_compose (sigma tau : dict) :
  valid sigma → valid tau → keys sigma = keys tau →
  inverse <$> compose sigma tau = compose (inverse tau) (inverse sigma) ∧
  is_Ok (compose sigma tau).
Proof.
  intros Hs Ht Hk.
  destruct (valid_inverse sigma Hs) as [Hks Hvs].
  destruct (valid_inverse tau Ht) as [Hkt Hvt].
  destruct (valid_comp sigma tau Hs Ht Hk) as [Hkc Hvc].
  rewrite !compose_valid by (done || unfold valid; congruence).
  split; [|by eexists]. simpl. f_equal.
  assert (valid (comp sigma tau)) as Hc by (unfold valid; congruence).
  apply map_eq. intros v. apply option_eq. intros i.
  rewrite (lookup_inverse _ _ _ Hc), !lookup_comp, !bind_Some.
  setoid_rewrite (lookup_inverse _ _ _ Hs). setoid_rewrite (lookup_inverse _ _ _ Ht).
  naive_solver.
Qed.

Lemma inverse_compose_witness :
  valid {[1 := 2; 2 := 3; 3 := 1]} ∧ valid {[1 := 2; 2 := 1; 3 := 3]} ∧
  keys ({[1 := 2; 2 := 3; 3 := 1]} : dict) = keys ({[1 := 2; 2 := 1; 3 := 3]} : dict) ∧
  inverse <$> compose {[1 := 2; 2 := 3; 3 := 1]} {[1 := 2; 2 := 1; 3 := 3]}
    = compose (inverse {[1 := 2; 2 := 1; 3 := 3]}) (inverse {[1 := 2; 2 := 3; 3 := 1]}).
Proof.
  split; [vm_compute; reflexivity|]. split; [vm_compute; reflexivity|].
  split; [vm_compute; reflexivity|].
  apply (inverse_compose {[1 := 2; 2 := 3; 3 := 1]} {[1 := 2; 2 := 1; 3 := 3]});
    vm_compute; reflexivity.
Defined.

Lemma mapM_first_failure {A B} (f : A → result B) (P : exn → Prop) l :
  (∀ x, x ∈ l → is_Ok (f x) ∨ ∃ e, f x = Raise e ∧ P e) →
  (∃ x, x ∈ l ∧ ¬ is_Ok (f x)) →
  ∃ e, mapM f l = Raise e ∧ P e.
Proof.
  induction l as [|x l IH]; intros Hall (y & Hy & Hbad).
  { by apply elem_of_nil in Hy. }
  change (mapM f (x :: l)) with (f x ≫= (λ y, mapM f l ≫= λ k, Ok (y :: k))).
  destruct (Hall x) as [[b Hb]|(e & He & HP)]; [left| |].
  - rewrite Hb. cbn [mbind result_bind].
    destruct IH as (e & He & HP).
    + intros z Hz. apply Hall. by right.
    + apply elem_of_cons in Hy as [->|Hy]; [|by eauto].
      exfalso. apply Hbad. by exists b.
    + exists e. by rewrite He.
  - exists e. by rewrite He.
Qed.

(** X4: what [compose] does on arbitrary dicts.  With different key sets
    it raises the ValueError; with one key set it returns the mapping
    i ↦ sigma[tau[i]] when every value of tau is a key of sigma, and
    otherwise raises the KeyError of a value of tau that sigma lacks. *)
Theorem compose_behaviour (sigma tau : dict) :
  (keys sigma ≠ keys tau →
     compose sigma tau =
       Raise (ValueError "Permutations must be defined on the same set.")) ∧
  (keys sigma = keys tau →
     (∀ i t, tau !! i = Some t → is_Some (sigma !! t)) →
     ∃ rho, compose sigma tau = Ok rho ∧
            ∀ i, rho !! i = tau !! i ≫= (sigma !!.)) ∧
  (keys sigma = keys tau →
     (∃ i t, tau !! i = Some t ∧ sigma !! t = None) →
     ∃ t, compose sigma tau = Raise (KeyError t) ∧ sigma !! t = None ∧
          ∃ i, tau !! i = Some t).
Proof.
  split; [apply compose_mismatch|]. split.
  - intros Hk Hcl. exists (comp sigma tau). split; [by apply compose_comp|].
    apply lookup_comp.
  - intros Hk (i & t & Hit & Ht). unfold compose.
    rewrite decide_False by (by intros ?).
    destruct (mapM_first_failure
      (λ it : Z * Z, getitem sigma it.2 ≫= λ v, Ok (it.1, v))
      (λ e, ∃ t, e = KeyError t ∧ sigma !! t = None ∧ ∃ i, tau !! i = Some t)
      (items tau)) as (e & He & t' & -> & Ht' & Hi').
    + intros [j u] Hju%elem_of_map_to_list. simpl. unfold getitem.
      destruct (sigma !! u) as [v|] eqn:Hu; [left; by eexists|].
      right. exists (KeyError u). split; [done|]. exists u. eauto.
    + exists (i, t). split; [by apply elem_of_map_to_list|].
      simpl. unfold getitem. rewrite Ht. by intros [? ?].
    + exists t'. change (mapM _ (items tau)) with
        (mapM (λ it : Z * Z, getitem sigma it.2 ≫= λ v, Ok (it.1, v)) (items tau)).
      by rewrite He.
Qed.

Example compose_missing_key :
  compose {[1 := 1; 2 := 2]} {[1 := 3; 2 := 1]} = Raise (KeyError 3).
Proof. vm_compute. reflexivity. Qed.

(** ** [power] and [order] *)

(** X5: [power] works exactly on the key sets {1, ..., len(sigma)}.  For an
    accepted mapping, power(sigma, 0) is identity(len(sigma)) in any case;
    for k ≠ 0 the call raises the ValueError of [compose] when the key set
    of sigma is not {1, ..., len(sigma)}, and returns otherwise. *)
Theorem power_domain (sigma : dict) (k : Z) :
  valid sigma →
  power sigma 0 = Ok (identity (dict_len sigma)) ∧
  (k ≠ 0 → keys sigma ≠ domain (dict_len sigma) →
     power sigma k =
       Raise (ValueError "Permutations must be defined on the same set.")) ∧
  (keys sigma = domain (dict_len sigma) → is_Ok (power sigma k)).
Proof.
  intros Hv. split; [done|]. split.
  - intros Hk Hdom. unfold power. rewrite decide_False by done.
    rewrite (seqZ_cons 0 (Z.abs k)) by lia. cbn [for_each].
    rewrite compose_mismatch; [done|].
    unfold keys at 1. rewrite dom_identity. intros Heq. apply Hdom.
    case_decide; [done|]. by destruct (valid_inverse sigma Hv) as [<- _].
  - intros Hdom. assert (perm_on (dict_len sigma) sigma) as Hp.
    { split; [done|]. unfold valid in Hv. congruence. }
    rewrite (power_zpow _ _ _ Hp). by eexists.
Qed.

Lemma power_domain_witness :
  valid {[5 := 7; 7 := 5]} ∧
  power {[5 := 7; 7 := 5]} 0 = Ok (identity (dict_len {[5 := 7; 7 := 5]})).
Proof.
  split; [vm_compute; reflexivity|].
  apply (power_domain {[5 := 7; 7 := 5]} 3). vm_compute. reflexivity.
Defined.

Lemma pow_inverse_identity n sigma j :
  perm_on n sigma →
  pow n (inverse sigma) j = identity n ↔ pow n sigma j = identity n.
Proof.
  intros Hs. pose proof (perm_on_inverse n sigma Hs) as Hi.
  pose proof (pow_cancel n sigma (inverse sigma) j Hs Hi (comp_inverse_r n sigma Hs)) as H1.
  split; intros Heq; rewrite Heq in H1.
  - rewrite (comp_identity_r n) in H1; [done|]. apply (perm_on_pow n sigma j Hs).
  - rewrite (comp_identity_l n) in H1; [done|]. apply (perm_on_pow n _ j Hi).
Qed.

Lemma pow_identity_iff_divide n sigma m j :
  perm_on n sigma → (1 ≤ m)%nat →
  pow n sigma m = identity n →
  (∀ i, (1 ≤ i < m)%nat → pow n sigma i ≠ identity n) →
  pow n sigma j = identity n ↔ (m | j)%nat.
Proof.
  intros Hs Hm1 Hm Hmin. split.
  - intros Hj.
    assert (j = (j `div` m) * m + j `mod` m)%nat as Hdm.
    { rewrite Nat.mul_comm. apply Nat.div_mod_eq. }
    assert (j `mod` m < m)%nat as Hr by (apply Nat.mod_upper_bound; lia).
    destruct (decide (j `mod` m = 0)%nat) as [Hz|Hnz].
    + exists (j `div` m)%nat. lia.
    + exfalso. apply (Hmin (j `mod` m)%nat); [lia|].
      rewrite Hdm, pow_add, (pow_mul n sigma m) in Hj by done.
      rewrite (comp_identity_l n) in Hj; [done|]. apply (perm_on_pow n sigma _ Hs).
  - intros [q ->]. by apply pow_mul.
Qed.

(** What [order] returns is the least exponent. *)
Lemma order_Ok_least n sigma fuel k :
  perm_on n sigma → order fuel sigma = Ok k →
  ∃ m, k = Z.of_nat m ∧ (1 ≤ m)%nat ∧ pow n sigma m = identity n ∧
       ∀ i, (1 ≤ i < m)%nat → pow n sigma i ≠ identity n.
Proof.
  intros Hs Hrun. destruct (order_exists n sigma Hs) as (m & Hm1 & Hm & Hmin & _).
  exists m. split; [|done].
  assert (order fuel sigma
            = order_loop fuel sigma (identity n) (pow n sigma 1) (Z.of_nat 1)) as Hord.
  { unfold order. by rewrite (identity_len n), pow_1. }
  rewrite Hord in Hrun. destruct (decide (m - 1 ≤ fuel)%nat) as [Hle|Hlt].
  - rewrite (order_loop_run n sigma m (m - 1) 1 fuel) in Hrun by (done || lia).
    by simplify_eq.
  - rewrite (order_loop_short n sigma m 1 fuel) in Hrun by (done || lia). done.
Qed.

(** X6: a power of a valid permutation of {1, ..., n} is the identity
    exactly for the exponents that its order divides, negative exponents
    included. *)
Theorem power_identity_iff_order_divides (n : Z) (sigma : dict) (fuel : nat) (m k : Z) :
  perm_on n sigma → order fuel sigma = Ok m →
  power sigma k = Ok (identity n) ↔ (m | k).
Proof.
  intros Hs Hrun.
  destruct (order_Ok_least n sigma fuel m Hs Hrun) as (m' & Heq & Hm1 & Hm & Hmin).
  subst m.
  clear Hrun. rewrite (power_zpow n) by done. unfold zpow.
  assert (∀ j, pow n sigma j = identity n ↔ (Z.of_nat m' | Z.of_nat j)) as Hdiv.
  { intros j. rewrite (pow_identity_iff_divide n sigma m' j) by done. split.
    - intros [q ->]. exists (Z.of_nat q). lia.
    - intros [q Hq]. exists (Z.to_nat q). nia. }
  case_decide as Hk.
  - split.
    + intros [= Hp]. apply Hdiv in Hp. by rewrite Z2Nat.id in Hp.
    + intros Hd. f_equal. apply Hdiv. by rewrite Z2Nat.id.
  - split.
    + intros [= Hp]. apply (pow_inverse_identity n sigma _ Hs) in Hp.
      apply Hdiv in Hp. rewrite Z2Nat.id in Hp by lia.
      destruct Hp as [q Hq]. exists (- q). lia.
    + intros Hd. f_equal. apply (pow_inverse_identity n sigma _ Hs). apply Hdiv.
      rewrite Z2Nat.id by lia. destruct Hd as [q Hq]. exists (- q). lia.
Qed.

Lemma power_identity_iff_order_divides_witness :
  perm_on 4 {[1 := 2; 2 := 3; 3 := 4; 4 := 1]} ∧
  order 3 {[1 := 2; 2 := 3; 3 := 4; 4 := 1]} = Ok 4 ∧
  (power {[1 := 2; 2 := 3; 3 := 4; 4 := 1]} (-8) = Ok (identity 4) ↔ (4 | -8)).
Proof.
  assert (perm_on 4 {[1 := 2; 2 := 3; 3 := 4; 4 := 1]}) as H1.
  { split; vm_compute; reflexivity. }
  assert (order 3 {[1 := 2; 2 := 3; 3 := 4; 4 := 1]} = Ok 4) as H2.
  { vm_compute. reflexivity. }
  split; [exact H1|]. split; [exact H2|].
  exact (power_identity_iff_order_divides 4 _ 3 4 (-8) H1 H2).
Defined.

(** X7: a valid permutation and its inverse have the same order: on every
    amount of fuel the loop of [order] answers the same for both. *)
Theorem order_inverse (n : Z) (sigma : dict) (fuel : nat) :
  perm_on n sigma → order fuel (inverse sigma) = order fuel sigma.
Proof.
  intros Hs. pose proof (perm_on_inverse n sigma Hs) as Hi.
  destruct (order_exists n sigma Hs) as (m & Hm1 & Hm & Hmin & _).
  assert (pow n (inverse sigma) m = identity n) as Hm' by (by apply pow_inverse_identity).
  assert (∀ i, (1 ≤ i < m)%nat → pow n (inverse sigma) i ≠ identity n) as Hmin'.
  { intros i Hi' Heq. apply (Hmin i Hi'). by apply pow_inverse_identity. }
  assert (∀ tau, perm_on n tau → order fuel tau
            = order_loop fuel tau (identity n) (pow n tau 1) (Z.of_nat 1)) as Hord.
  { intros tau Ht. unfold order. by rewrite (identity_len n), pow_1. }
  rewrite !Hord by done. destruct (decide (m - 1 ≤ fuel)%nat) as [Hle|Hlt].
  - rewrite (order_loop_run n sigma m (m - 1) 1 fuel) by (done || lia).
    by rewrite (order_loop_run n (inverse sigma) m (m - 1) 1 fuel) by (done || lia).
  - rewrite (order_loop_short n sigma m 1 fuel) by (done || lia).
    by rewrite (order_loop_short n (inverse sigma) m 1 fuel) by (done || lia).
Qed.

Lemma order_inverse_witness :
  perm_on 3 {[1 := 2; 2 := 3; 3 := 1]} ∧
  order 5 (inverse {[1 := 2; 2 := 3; 3 := 1]}) = order 5 {[1 := 2; 2 := 3; 3 := 1]}.
Proof.
  split; [split; vm_compute; reflexivity|].
  apply (order_inverse 3 {[1 := 2; 2 := 3; 3 := 1]} 5). split; vm_compute; reflexivity.
Defined.

(** ** [to_cycles] on arbitrary dicts *)

Lemma walk_Ok_closed sigma fuel visited cycle current V c :
  walk fuel sigma visited cycle current = Ok (V, c) →
  visited ⊆ V ∧ current ∈ V ∧
  ∀ x, x ∈ V → x ∉ visited → ∃ v, sigma !! x = Some v ∧ v ∈ V.
Proof.
  revert visited cycle current.
  induction fuel as [|fuel IH]; intros visited cycle current; simpl.
  - case_decide as Hcur; [done|]. intros [= <- <-]. set_solver.
  - case_decide as Hcur; [|intros [= <- <-]; set_solver].
    intros (nxt & Hn%getitem_Ok & Hw)%bind_Ok.
    destruct (IH _ _ _ Hw) as (Hsub & Hnxt & Hcl).
    split; [set_solver|]. split; [set_solver|].
    intros x Hx Hnew. destruct (decide (x = current)) as [->|Hne]; [eauto|].
    apply Hcl; set_solver.
Qed.

Lemma walk_Raise sigma fuel visited cycle current e :
  walk fuel sigma visited cycle current = Raise e →
  ∃ v, e = KeyError v ∧ sigma !! v = None ∧
       (v = current ∨ ∃ k, sigma !! k = Some v).
Proof.
  revert visited cycle current.
  induction fuel as [|fuel IH]; intros visited cycle current; simpl.
  - by case_decide.
  - case_decide as Hcur; [|done]. unfold getitem.
    destruct (sigma !! current) as [nxt|] eqn:Hn; simpl.
    + intros (v & Heq & Hv & [Hc|Hk])%IH; exists v; subst; eauto.
    + intros [= <-]. exists current. eauto.
Qed.

Lemma to_cycles_loop_Ok sigma l V cycles V' cycles' :
  for_each (to_cycles_step sigma) (V, cycles) l = Ok (V', cycles') →
  (∀ x, x ∈ V → ∃ v, sigma !! x = Some v ∧ v ∈ V) →
  (∀ x, x ∈ V' → ∃ v, sigma !! x = Some v ∧ v ∈ V') ∧
  V ⊆ V' ∧ ∀ s, s ∈ l → s ∈ V'.
Proof.
  revert V cycles. induction l as [|s l IH]; intros V cycles.
  - intros [= <- <-] Hcl. split; [done|]. split; [done|]. by intros ? ?%elem_of_nil.
  - cbn [for_each]. rewrite to_cycles_step_eq. case_decide as Hs.
    + cbn [mbind result_bind]. intros Hrun Hcl.
      destruct (IH _ _ Hrun Hcl) as (Hcl' & Hsub & Hall).
      split; [done|]. split; [done|].
      intros x [->|?]%elem_of_cons; [set_solver|auto].
    + intros (st & Hstep & Hrun)%bind_Ok Hcl.
      apply bind_Ok in Hstep as ([V1 c] & Hw & [= <-]). cbn [fst snd] in Hrun.
      destruct (walk_Ok_closed _ _ _ _ _ _ _ Hw) as (Hsub1 & Hs1 & Hcl1).
      destruct (IH _ _ Hrun) as (Hcl' & Hsub & Hall).
      { intros x Hx. destruct (decide (x ∈ V)) as [HxV|HxV]; [|by apply Hcl1].
        destruct (Hcl x HxV) as (v & Hv & HvV). exists v. split; [done|set_solver]. }
      split; [done|]. split; [set_solver|].
      intros x [->|?]%elem_of_cons; [set_solver|auto].
Qed.

Lemma to_cycles_loop_Raise sigma l V cycles e :
  (∀ s, s ∈ l → is_Some (sigma !! s)) →
  for_each (to_cycles_step sigma) (V, cycles) l = Raise e →
  ∃ v, e = KeyError v ∧ sigma !! v = None ∧ ∃ k, sigma !! k = Some v.
Proof.
  revert V cycles. induction l as [|s l IH]; intros V cycles Hl; [done|].
  cbn [for_each]. rewrite to_cycles_step_eq. case_decide as Hs.
  - cbn [mbind result_bind]. apply IH. intros; apply Hl. by right.
  - destruct (walk _ _ _ _ _) as [[V1 c]| e'|] eqn:Hw; cbn [mbind result_bind]; [| |done].
    + apply IH. intros; apply Hl. by right.
    + intros [= <-]. apply walk_Raise in Hw as (v & -> & Hv & [->|Hk]); [|eauto].
      destruct (Hl s) as [w Hw]; [left|]. congruence.
Qed.

(** X8: when [to_cycles] raises.  On a dict every value of which is a key,
    [to_cycles] returns (also when the dict is not one-to-one); on any
    other dict it raises the KeyError of a value that is not a key. *)
Theorem to_cycles_behaviour (sigma : dict) :
  ((∀ k v, sigma !! k = Some v → is_Some (sigma !! v)) → is_Ok (to_cycles sigma)) ∧
  ((∃ k v, sigma !! k = Some v ∧ sigma !! v = None) →
     ∃ v, to_cycles sigma = Raise (KeyError v) ∧ sigma !! v = None ∧
          ∃ k, sigma !! k = Some v).
Proof.
  destruct (sorted_keys_spec sigma) as (_ & _ & Hks).
  pose proof (to_cycles_no_fuel sigma) as Hfuel. unfold to_cycles in *.
  destruct (for_each _ _ _) as [[V cycles]|e|] eqn:Hrun; [| |done].
  - split; [intros _; by eexists|].
    intros (k & v & Hkv & Hv). exfalso.
    destruct (to_cycles_loop_Ok _ _ _ _ _ _ Hrun) as (Hcl & _ & Hall); [set_solver|].
    assert (k ∈ V) as Hk by (apply Hall, Hks, elem_of_dom; eauto).
    destruct (Hcl k Hk) as (v' & Hkv' & Hv').
    assert (v' = v) as -> by congruence.
    destruct (Hcl v Hv') as (w & Hw & _). congruence.
  - apply to_cycles_loop_Raise in Hrun as (v & -> & Hv & k & Hk).
    2:{ intros s Hs%Hks. by apply elem_of_dom. }
    split.
    + intros Hcl. destruct (Hcl k v Hk) as [w Hw]. congruence.
    + intros _. exists v. simpl. eauto.
Qed.

Example to_cycles_not_injective :
  to_cycles {[1 := 2; 2 := 2]} = Ok [[1; 2]] ∧
  to_cycles {[1 := 2; 2 := 3]} = Raise (KeyError 3).
Proof. split; vm_compute; reflexivity. Qed.

(** ** The cycles determine the permutation *)

Lemma to_cycles_lookup n sigma cycles x :
  perm_on n sigma → to_cycles sigma = Ok cycles →
  (∀ c j, c ∈ cycles → c !! j = Some x →
     sigma !! x = c !! (S j `mod` length c)%nat) ∧
  (x ∉ concat cycles → sigma !! x = if decide (1 ≤ x ≤ n) then Some x else None).
Proof.
  intros Hs Hrun. pose proof (perm_on_valid n sigma Hs) as Hv.
  destruct (to_cycles_valid sigma Hv) as (V & cycles' & Hrun' & Hinv).
  rewrite Hrun in Hrun'. injection Hrun' as <-.
  destruct (sorted_keys_spec sigma) as (_ & _ & Hks).
  destruct Hinv as [Icl Iscan Imv Ivis Igood Idis Iheads Isorted].
  rewrite Forall_forall in Igood. split.
  - intros c j Hc Hj. by destruct (good_cycle_next sigma c j x (Igood c Hc) Hj).
  - intros Hx. case_decide as Hr.
    + destruct (perm_on_lookup n sigma x Hs Hr) as (v & Hxv & _).
      destruct (decide (v = x)) as [->|Hne]; [done|].
      exfalso. apply Hx, Imv.
      * apply Iscan, Hks, elem_of_dom. eauto.
      * rewrite Hxv. by intros [= ?].
    + apply not_elem_of_dom. destruct Hs as [Hk _]. unfold keys in Hk.
      by rewrite Hk, elem_of_domain.
Qed.

Lemma join_cycles_not_e (c : list Z) (cs : list (list Z)) :
  join "" (cycle_str <$> c :: cs) ≠ "e".
Proof.
  assert (∀ (l : list string) s, ∃ rest,
    foldl (λ acc t, acc +:+ "" +:+ t) ("(" +:+ s) l = "(" +:+ rest) as Hpre.
  { induction l as [|t l IH]; intros s; [by exists s|].
    apply (IH (s +:+ "" +:+ t)). }
  rewrite fmap_cons. unfold join, cycle_str at 1.
  destruct (Hpre (cycle_str <$> cs) (join " " (pretty <$> c) +:+ ")")) as [rest Hrest].
  rewrite Hrest. discriminate.
Qed.

Lemma to_cycles_inj n s t :
  perm_on n s → perm_on n t → to_cycles s = to_cycles t → s = t.
Proof.
  intros Hs Ht Heq.
  destruct (to_cycles_valid s (perm_on_valid n s Hs)) as (_ & cycles & Hrun & _).
  pose proof Hrun as Hrun'. rewrite Heq in Hrun'.
  apply map_eq. intros x.
  destruct (to_cycles_lookup n s cycles x Hs Hrun) as [Hin Hout].
  destruct (to_cycles_lookup n t cycles x Ht Hrun') as [Hin' Hout'].
  destruct (decide (x ∈ concat cycles)) as [(c & Hx & Hc)%elem_of_concat|Hx].
  - apply list_elem_of_lookup_1 in Hx as [j Hj].
    by rewrite (Hin c j), (Hin' c j).
  - by rewrite Hout, Hout'.
Qed.

Lemma cycle_notation_str_e n sigma :
  perm_on n sigma → cycle_notation_str sigma = Ok "e" ↔ sigma = identity n.
Proof.
  intros Hs. split.
  - intros Hstr. apply (to_cycles_inj n); [done|apply perm_on_identity|].
    rewrite to_cycles_identity. unfold cycle_notation_str in Hstr.
    destruct (to_cycles sigma) as [[|c cs]| |]; simpl in Hstr; try done.
    injection Hstr as Hstr. by apply join_cycles_not_e in Hstr.
  - intros ->. unfold cycle_notation_str. by rewrite to_cycles_identity.
Qed.

(** X9: on the valid permutations of {1, ..., n}, the cycle decomposition
    determines the permutation: two permutations with the same cycles are
    equal, and the notation is "e" for the identity only. *)
Theorem to_cycles_injective (n : Z) (sigma tau : dict) :
  perm_on n sigma → perm_on n tau →
  (to_cycles sigma = to_cycles tau → sigma = tau) ∧
  (cycle_notation_str sigma = Ok "e" ↔ sigma = identity n).
Proof.
  intros Hs Ht. split.
  - by apply (to_cycles_inj n).
  - by apply cycle_notation_str_e.
Qed.

Lemma to_cycles_injective_witness :
  perm_on 3 {[1 := 2; 2 := 1; 3 := 3]} ∧ perm_on 3 {[1 := 1; 2 := 2; 3 := 3]} ∧
  (cycle_notation_str {[1 := 2; 2 := 1; 3 := 3]} = Ok "e" ↔
   {[1 := 2; 2 := 1; 3 := 3]} = identity 3).
Proof.
  assert (perm_on 3 {[1 := 2; 2 := 1; 3 := 3]}) as H1 by (split; vm_compute; reflexivity).
  assert (perm_on 3 {[1 := 1; 2 := 2; 3 := 3]}) as H2 by (split; vm_compute; reflexivity).
  split; [exact H1|]. split; [exact H2|].
  exact (proj2 (to_cycles_injective 3 _ _ H1 H2)).
Defined.

(** ** [is_subgroup] *)

(** X10: on a list of valid permutations of {1, ..., n}, [is_subgroup]
    never raises, and it returns True exactly when the list holds
    identity(n), holds compose(s, t) for all its members s and t, and holds
    inverse(s) for every member s. *)
Theorem is_subgroup_iff_axioms (n : Z) (subset : list dict) :
  Forall (perm_on n) subset →
  ∃ b, is_subgroup subset n = Ok b ∧
    (b = true ↔
       identity n ∈ subset ∧
       (∀ s t, s ∈ subset → t ∈ subset → ∃ st, compose s t = Ok st ∧ st ∈ subset) ∧
       (∀ s, s ∈ subset → inverse s ∈ subset)).
Proof.
  intros Hall. rewrite Forall_forall in Hall.
  destruct (is_subgroup_spec n subset Hall) as (b & Hb & Hiff).
  exists b. split; [done|]. rewrite Hiff. split.
  - intros (Hid & Hcl & Hinv). split; [done|]. split; [|done].
    intros s t Hs Ht. exists (comp s t). split; [|by apply Hcl].
    apply (compose_perm_on n); auto.
  - intros (Hid & Hcl & Hinv). split; [done|]. split; [|done].
    intros s t Hs Ht. destruct (Hcl s t Hs Ht) as (st & Hst & Hin).
    rewrite (compose_perm_on n) in Hst by auto. by simplify_eq.
Qed.

Lemma is_subgroup_iff_axioms_witness :
  Forall (perm_on 3) [identity 3; {[1 := 2; 2 := 1; 3 := 3]}] ∧
  ∃ b, is_subgroup [identity 3; {[1 := 2; 2 := 1; 3 := 3]}] 3 = Ok b.
Proof.
  assert (Forall (perm_on 3) [identity 3; {[1 := 2; 2 := 1; 3 := 3]}]) as H1.
  { apply (bool_decide_unpack _). vm_compute. exact I. }
  split; [exact H1|].
  destruct (is_subgroup_iff_axioms 3 _ H1) as (b & Hb & _). exists b. exact Hb.
Defined.

(** X11: the whole group passes the subgroup test, for every n. *)
Theorem is_subgroup_generate_Sn (n : Z) : is_subgroup (generate_Sn n) n = Ok true.
Proof.
  destruct (is_subgroup_spec n (generate_Sn n)) as (b & Hb & Hiff).
  { intros s. apply elem_of_generate_Sn. }
  rewrite Hb. f_equal. apply Hiff. split; [|split].
  - apply elem_of_generate_Sn, perm_on_identity.
  - intros s t Hs%elem_of_generate_Sn Ht%elem_of_generate_Sn.
    by apply elem_of_generate_Sn, perm_on_comp.
  - intros s Hs%elem_of_generate_Sn. by apply elem_of_generate_Sn, perm_on_inverse.
Qed.

(** X12: the answer of [is_subgroup] depends on the members of the list
    only, not on their order or on repetitions. *)
Theorem is_subgroup_members (n : Z) (G G' : list dict) :
  Forall (perm_on n) G → (∀ s, s ∈ G ↔ s ∈ G') →
  is_subgroup G n = is_subgroup G' n.
Proof.
  intros HG Hsame. rewrite Forall_forall in HG.
  assert (∀ s, s ∈ G' → perm_on n s) as HG' by (intros s Hs%Hsame; auto).
  destruct (is_subgroup_spec n G HG) as (b & -> & Hiff).
  destruct (is_subgroup_spec n G' HG') as (b' & -> & Hiff').
  f_equal. apply eq_true_iff_eq. rewrite Hiff, Hiff'.
  split; intros (Hid & Hcl & Hinv); (split; [by apply Hsame|]); split.
  - intros s t Hs%Hsame Ht%Hsame. by apply Hsame, Hcl.
  - intros s Hs%Hsame. by apply Hsame, Hinv.
  - intros s t Hs%Hsame Ht%Hsame. by apply Hsame, Hcl.
  - intros s Hs%Hsame. by apply Hsame, Hinv.
Qed.

Lemma is_subgroup_members_witness :
  Forall (perm_on 2) [identity 2; {[1 := 2; 2 := 1]}] ∧
  is_subgroup [identity 2; {[1 := 2; 2 := 1]}] 2
    = is_subgroup [{[1 := 2; 2 := 1]}; identity 2; identity 2] 2.
Proof.
  assert (Forall (perm_on 2) [identity 2; {[1 := 2; 2 := 1]}]) as H1.
  { apply (bool_decide_unpack _). vm_compute. exact I. }
  split; [exact H1|].
  apply (is_subgroup_members 2 _ _ H1).
  intros s. rewrite !elem_of_cons, !elem_of_nil. tauto.
Defined.

(** ** Stabilizer and orbit outside their preconditions *)

Lemma compute_stabilizer_missing_key (Sn : list dict) (fixed_point : Z) :
  (∃ sigma, sigma ∈ Sn ∧ sigma !! fixed_point = None) →
  compute_stabilizer Sn fixed_point = Raise (KeyError fixed_point).
Proof.
  induction Sn as [|sigma Sn IH].
  { by intros (? & ?%elem_of_nil & _). }
  intros (s & Hs & Hsx). simpl. unfold getitem.
  destruct (sigma !! fixed_point) as [v|] eqn:Hv; [|done]. simpl.
  apply elem_of_cons in Hs as [->|Hs]; [congruence|].
  rewrite IH by eauto. done.
Qed.

(** X13: [compute_stabilizer] on an arbitrary list of dicts: when every
    dict has the key [fixed_point], the result lists the members with
    sigma[fixed_point] = fixed_point in their order; when some dict lacks
    the key, the call raises KeyError(fixed_point). *)
Theorem compute_stabilizer_behaviour (Sn : list dict) (fixed_point : Z) :
  ((∀ sigma, sigma ∈ Sn → is_Some (sigma !! fixed_point)) →
     compute_stabilizer Sn fixed_point
       = Ok (filter (λ sigma, sigma !! fixed_point = Some fixed_point) Sn)) ∧
  ((∃ sigma, sigma ∈ Sn ∧ sigma !! fixed_point = None) →
     compute_stabilizer Sn fixed_point = Raise (KeyError fixed_point)).
Proof.
  split; [|apply compute_stabilizer_missing_key].
  induction Sn as [|sigma Sn IH]; [done|].
  intros Hall. simpl. destruct (Hall sigma) as [v Hv]; [left|].
  unfold getitem. rewrite Hv. simpl.
  rewrite IH by (intros; apply Hall; by right). simpl. f_equal.
  rewrite filter_cons, Hv. destruct (decide (v = fixed_point)) as [->|Hne].
  - by rewrite decide_True.
  - rewrite decide_False; [done|]. by intros [= ?].
Qed.

Lemma generate_Sn_nonempty n : ∃ sigma, sigma ∈ generate_Sn n.
Proof. exists (identity n). apply elem_of_generate_Sn, perm_on_identity. Qed.

Lemma compute_stabilizer_out_of_range n x :
  ¬ (1 ≤ x ≤ n) → compute_stabilizer (generate_Sn n) x = Raise (KeyError x).
Proof.
  intros Hx. apply compute_stabilizer_missing_key.
  exists (identity n). split; [apply elem_of_generate_Sn, perm_on_identity|].
  rewrite lookup_identity. by rewrite decide_False.
Qed.

(** X14: [verify_stabilizer] and [print_cosets] with a fixed point outside
    {1, ..., n} raise KeyError(fixed_point), for every n (also n ≤ 0,
    where no point is inside). *)
Theorem verify_stabilizer_out_of_range (n fixed_point : Z) (verbose : bool) :
  ¬ (1 ≤ fixed_point ≤ n) →
  verify_stabilizer n fixed_point verbose = Raise (KeyError fixed_point) ∧
  print_cosets n fixed_point = Raise (KeyError fixed_point).
Proof.
  intros Hx. unfold verify_stabilizer, print_cosets.
  by rewrite compute_stabilizer_out_of_range.
Qed.

Lemma verify_stabilizer_out_of_range_witness :
  ¬ (1 ≤ 1 ≤ 0) ∧ verify_stabilizer 0 1 true = Raise (KeyError 1).
Proof.
  split; [lia|]. apply (verify_stabilizer_out_of_range 0 1 true). lia.
Defined.

(** X15: the orbit of a point of {1, ..., n} under the whole group is
    {1, ..., n}, and under its own stabilizer it is the point alone; for a
    point outside {1, ..., n} [compute_orbit] raises KeyError(point). *)
Theorem compute_orbit_behaviour (n point : Z) :
  (1 ≤ point ≤ n →
     compute_orbit (generate_Sn n) point = Ok (domain n) ∧
     (stab ← compute_stabilizer (generate_Sn n) point; compute_orbit stab point)
       = Ok {[point]}) ∧
  (¬ (1 ≤ point ≤ n) →
     compute_orbit (generate_Sn n) point = Raise (KeyError point)).
Proof.
  split.
  - intros Hx. split; [by apply compute_orbit_Ok|].
    rewrite compute_stabilizer_Sn by done. cbn [mbind result_bind].
    unfold compute_orbit.
    rewrite (mapM_Ok_total _ (λ _, point)).
    + simpl. f_equal. apply set_eq. intros y.
      rewrite elem_of_list_to_set, list_elem_of_fmap, elem_of_singleton. split.
      * by intros (? & -> & _).
      * intros ->. exists (identity n). split; [done|].
        apply elem_of_fixing. split; [by apply lookup_identity_Some|].
        apply elem_of_generate_Sn, perm_on_identity.
    + intros sigma [Hfix _]%elem_of_fixing. by apply getitem_Ok.
  - intros Hx. unfold compute_orbit.
    destruct (mapM_first_failure (λ sigma : dict, getitem sigma point)
      (λ e, e = KeyError point) (generate_Sn n)) as (e & -> & ->); [| |done].
    + intros sigma _. unfold getitem. destruct (sigma !! point); [left; by eexists|].
      right. eauto.
    + exists (identity n). split; [apply elem_of_generate_Sn, perm_on_identity|].
      unfold getitem. rewrite lookup_identity, decide_False by done. by intros [? ?].
Qed.

(** ** The cosets of a stabilizer, as [print_cosets] labels them *)

Lemma coset_of_stabilizer n x tau sigma :
  1 ≤ x ≤ n → perm_on n tau →
  sigma ∈ comp tau <$> fixing x (generate_Sn n) ↔
  perm_on n sigma ∧ sigma !! x = tau !! x.
Proof.
  intros Hx Ht. pose proof (perm_on_inverse n tau Ht) as Hti.
  pose proof (perm_on_valid n tau Ht) as Hv.
  rewrite list_elem_of_fmap. split.
  - intros (h & -> & [Hfix Hh%elem_of_generate_Sn]%elem_of_fixing).
    split; [by apply perm_on_comp|]. by rewrite lookup_comp, Hfix.
  - intros [Hs Hsx]. exists (comp (inverse tau) sigma). split.
    + rewrite <-comp_assoc, (comp_inverse_r n) by done.
      symmetry. apply comp_identity_l, Hs.
    + apply elem_of_fixing. split; [|by apply elem_of_generate_Sn, perm_on_comp].
      rewrite lookup_comp, Hsx.
      destruct (perm_on_lookup n tau x Ht Hx) as (occ & Hocc & _).
      rewrite Hocc. simpl. by apply lookup_inverse.
Qed.

Lemma print_cosets_entry_Ok n x idx (c : list dict) rep :
  c !! 0%nat = Some rep → is_Some (rep !! x) → (∀ s, s ∈ c → perm_on n s) →
  print_cosets_entry x idx c = Ok tt.
Proof.
  intros Hrep [occ Hocc] Hperm. unfold print_cosets_entry, list_getitem.
  rewrite Hrep. cbn [mbind result_bind]. apply getitem_Ok in Hocc. rewrite Hocc.
  cbn [mbind result_bind].
  assert (∃ l, mapM cycle_notation_str c = Ok l) as [l Hl].
  { clear Hrep. induction c as [|s c IH]; [by eexists|].
    destruct IH as [l Hl]; [intros; apply Hperm; by right|].
    destruct (cycle_notation_str_valid s) as [str Hstr].
    { eapply perm_on_valid, Hperm. left. }
    exists (str :: l). apply mapM_Ok. constructor; [done|]. by apply mapM_Ok. }
  rewrite Hl. by case_decide.
Qed.

(** X16: the cosets of the stabilizer of a point x of {1, ..., n}, as
    [print_cosets] prints them.  The call does not raise; every coset is
    the set of all schedules that put one process, the occupant read off
    its first member, into slot x; and the occupant is x itself for the
    first coset only, so that every later coset is labelled a violation. *)
Theorem cosets_by_occupant (n fixed_point : Z) :
  1 ≤ fixed_point ≤ n →
  print_cosets n fixed_point = Ok tt ∧
  ∃ cosets,
    (stab ← compute_stabilizer (generate_Sn n) fixed_point;
     coset_decomposition (generate_Sn n) stab) = Ok cosets ∧
    ∀ idx c, cosets !! idx = Some c →
      ∃ rep occupant,
        list_getitem c 0 = Ok rep ∧ getitem rep fixed_point = Ok occupant ∧
        (∀ sigma, sigma ∈ c ↔
           sigma ∈ generate_Sn n ∧ sigma !! fixed_point = Some occupant) ∧
        (idx = 0%nat ↔ occupant = fixed_point).
Proof.
  intros Hx. set (H := fixing fixed_point (generate_Sn n)).
  destruct (stabilizer_subgroup n fixed_point Hx) as (Hperm & Hnd & Hid & Hcomp & Hinv).
  fold H in Hperm, Hnd, Hid, Hcomp, Hinv.
  assert (H ≠ []) as Hne.
  { intros Hnil. rewrite Hnil in Hid. by apply elem_of_nil in Hid. }
  destruct (coset_decomposition_spec n H Hne Hnd Hperm Hid Hcomp Hinv)
    as (cosets & Hrun & Hall & Hpart & c0 & Hc0 & Hfirst).
  rewrite Forall_forall in Hall.
  assert (NoDup (concat cosets)) as Hdis by (rewrite Hpart; apply NoDup_generate_Sn).
  assert (∀ idx c, cosets !! idx = Some c →
    ∃ rep occupant, c !! 0%nat = Some rep ∧ rep !! fixed_point = Some occupant ∧
      (∀ sigma, sigma ∈ c ↔ perm_on n sigma ∧ sigma !! fixed_point = Some occupant) ∧
      (idx = 0%nat ↔ occupant = fixed_point)) as Hkey.
  { intros idx c Hc.
    destruct (Hall c) as (tau & Ht & ->); [by eapply list_elem_of_lookup_2|].
    destruct (perm_on_lookup n tau fixed_point Ht Hx) as (occ & Hocc & _).
    assert (∀ sigma, sigma ∈ comp tau <$> H ↔
              perm_on n sigma ∧ sigma !! fixed_point = Some occ) as Hmem.
    { intros sigma. unfold H. rewrite (coset_of_stabilizer n) by done. by rewrite Hocc. }
    destruct (comp tau <$> H) as [|rep c'] eqn:Hlist; [by destruct H|].
    assert (perm_on n rep ∧ rep !! fixed_point = Some occ) as [Hrp Hrx]
      by (apply Hmem; left).
    exists rep, occ. split; [done|]. split; [done|]. split; [done|]. split.
    - intros ->. rewrite Hc0 in Hc. injection Hc as ->.
      assert (rep ∈ H) as [Hfix _]%elem_of_fixing by (apply Hfirst; left). congruence.
    - intros ->. destruct (decide (idx = 0%nat)) as [|Hidx]; [done|]. exfalso.
      assert (rep ∈ c0) as Hin0.
      { apply Hfirst, elem_of_fixing. split; [done|]. by apply elem_of_generate_Sn. }
      apply (concat_disjoint cosets idx 0%nat (rep :: c') c0 rep); (done || left). }
  split.
  - unfold print_cosets. rewrite compute_stabilizer_Sn by done.
    cbn [mbind result_bind]. fold H. rewrite Hrun. cbn [mbind result_bind].
    assert (∀ (l : list (Z * list dict)),
      (∀ ic, ic ∈ l → ic.2 ∈ cosets) →
      for_each (λ _ ic, print_cosets_entry fixed_point ic.1 ic.2) tt l = Ok tt) as Hloop.
    { induction l as [|[i c] l IH]; intros Hl; [done|]. cbn [for_each fst snd].
      assert (c ∈ cosets) as [idx Hidx]%list_elem_of_lookup_1 by (apply (Hl (i, c)); left).
      destruct (Hkey idx c Hidx) as (rep & occ & Hrep & Hocc & Hmem & _).
      rewrite (print_cosets_entry_Ok n fixed_point i c rep); [|done|by eexists|].
      - cbn [mbind result_bind]. apply IH. intros; apply Hl. by right.
      - intros s Hs. by apply Hmem. }
    apply Hloop. intros [i c] [j Hj]%list_elem_of_lookup_1.
    apply lookup_zip_with_Some in Hj as (? & ? & [= -> ->] & _ & Hc).
    by eapply list_elem_of_lookup_2.
  - exists cosets. rewrite compute_stabilizer_Sn by done. split; [done|].
    intros idx c Hc. destruct (Hkey idx c Hc) as (rep & occ & Hrep & Hocc & Hmem & Hidx).
    exists rep, occ. unfold list_getitem. rewrite Hrep. split; [done|].
    split; [by apply getitem_Ok|]. split; [|done].
    intros sigma. by rewrite Hmem, elem_of_generate_Sn.
Qed.

Lemma cosets_by_occupant_witness :
  1 ≤ 2 ≤ 3 ∧ print_cosets 3 2 = Ok tt.
Proof. split; [lia|]. apply (cosets_by_occupant 3 2). lia. Defined.

(** ** The first coset *)

Lemma arrangements_head {A} r (l : list A) :
  length l = r → ∃ rest, arrangements r l = l :: rest.
Proof.
  revert l. induction r as [|r IH]; intros l Hlen.
  - apply nil_length_inv in Hlen as ->. by exists [].
  - destruct l as [|x l]; [done|]. injection Hlen as Hlen.
    destruct (IH l Hlen) as [rest Hrest].
    cbn [arrangements selections]. rewrite bind_cons. cbn [fst snd].
    rewrite Hrest, fmap_cons. eauto.
Qed.

Lemma generate_Sn_head n : ∃ rest, generate_Sn n = identity n :: rest.
Proof.
  unfold generate_Sn, itertools_permutations.
  destruct (arrangements_head (length (seqZ 1 n)) (seqZ 1 n) eq_refl) as [rest ->].
  rewrite fmap_cons. eexists. f_equal. unfold identity. f_equal.
  induction (seqZ 1 n) as [|x l IH]; [done|]. simpl. by rewrite IH.
Qed.

Lemma fmap_comp_identity n (H : list dict) :
  (∀ h, h ∈ H → perm_on n h) → comp (identity n) <$> H = H.
Proof.
  induction H as [|h H IH]; intros Hperm; [done|].
  rewrite fmap_cons, IH by (intros; apply Hperm; by right).
  f_equal. apply comp_identity_l, Hperm. left.
Qed.

Lemma coset_loop_mono (H : list dict) rest covered cosets covered' cosets' :
  for_each (coset_step H) (covered, cosets) rest = Ok (covered', cosets') →
  ∃ more, cosets' = cosets ++ more.
Proof.
  revert covered cosets. induction rest as [|sigma rest IH]; intros covered cosets.
  - intros [= <- <-]. exists []. by rewrite app_nil_r.
  - cbn [for_each]. rewrite coset_step_eq. case_decide.
    + intros (st & (coset & _ & [= <-])%bind_Ok & [more ->]%IH)%bind_Ok.
      exists (coset :: more). by rewrite <-app_assoc.
    + cbn [mbind result_bind]. apply IH.
Qed.

Lemma coset_decomposition_Ok_inv (Sn H : list dict) cosets :
  coset_decomposition Sn H = Ok cosets →
  ∃ covered cosets0,
    for_each (coset_step H) (∅, []) Sn = Ok (covered, cosets0) ∧ cosets ≡ₚ cosets0.
Proof.
  unfold coset_decomposition.
  intros ([cov cosets0] & Hrun & (ks & Hks%mapM_Ok & [= <-])%bind_Ok)%bind_Ok.
  exists cov, cosets0. split; [done|]. cbn [snd] in *.
  rewrite stable_sort_keyed_Permutation, snd_zip; [done|].
  apply Forall2_length in Hks. lia.
Qed.

(** X17: [generate_Sn n] lists the identity first, and so the first coset
    that [coset_decomposition] returns for a duplicate-free subgroup list
    H of S_n is H itself, element for element and in the order of H. *)
Theorem first_coset_is_subgroup (n : Z) (H : list dict) :
  H ≠ [] → NoDup H →
  Forall (λ h, h ∈ generate_Sn n) H →
  is_subgroup H n = Ok true →
  (∃ rest, generate_Sn n = identity n :: rest) ∧
  ∃ rest, coset_decomposition (generate_Sn n) H = Ok (H :: rest).
Proof.
  intros Hne Hnd Hsub Hgrp. split; [apply generate_Sn_head|].
  assert (∀ h, h ∈ H → perm_on n h) as Hperm.
  { rewrite Forall_forall in Hsub. intros h Hh. by apply elem_of_generate_Sn, Hsub. }
  destruct (is_subgroup_axioms n H Hperm Hgrp) as (Hid & Hcomp & Hinv).
  destruct (coset_decomposition_spec n H Hne Hnd Hperm Hid Hcomp Hinv)
    as (cosets & Hrun & Hall & Hpart & c0 & Hc0 & Hfirst).
  destruct (coset_decomposition_Ok_inv _ _ _ Hrun) as (cov & cosets0 & Hloop & Hperm0).
  assert (H ∈ cosets) as [idx Hidx]%list_elem_of_lookup_1.
  { rewrite Hperm0. destruct (generate_Sn_head n) as [rest Hrest].
    rewrite Hrest in Hloop. cbn [for_each] in Hloop. rewrite coset_step_eq in Hloop.
    rewrite decide_True in Hloop by set_solver.
    rewrite (left_coset_Ok n H Hperm) in Hloop by apply perm_on_identity.
    cbn [mbind result_bind] in Hloop.
    apply coset_loop_mono in Hloop as [more ->].
    apply elem_of_app. left. apply list_elem_of_singleton.
    by rewrite (fmap_comp_identity n). }
  assert (idx = 0%nat) as ->.
  { destruct (decide (idx = 0%nat)) as [|Hne0]; [done|]. exfalso.
    apply (concat_disjoint cosets idx 0%nat H c0 (identity n)); try done.
    - rewrite Hpart. apply NoDup_generate_Sn.
    - by apply Hfirst. }
  destruct cosets as [|c rest]; [done|]. injection Hidx as ->. eauto.
Qed.

Lemma first_coset_is_subgroup_witness :
  [identity 3; {[1 := 1; 2 := 3; 3 := 2]}] ≠ [] ∧
  ∃ rest, coset_decomposition (generate_Sn 3) [identity 3; {[1 := 1; 2 := 3; 3 := 2]}]
            = Ok ([identity 3; {[1 := 1; 2 := 3; 3 := 2]}] :: rest).
Proof.
  assert ([identity 3; {[1 := 1; 2 := 3; 3 := 2]}] ≠ []) as H1 by done.
  assert (NoDup [identity 3; {[1 := 1; 2 := 3; 3 := 2]}]) as H2.
  { apply (bool_decide_unpack _). vm_compute. exact I. }
  assert (Forall (λ h, h ∈ generate_Sn 3) [identity 3; {[1 := 1; 2 := 3; 3 := 2]}])
    as H3.
  { apply (bool_decide_unpack _). vm_compute. exact I. }
  assert (is_subgroup [identity 3; {[1 := 1; 2 := 3; 3 := 2]}] 3 = Ok true) as H4.
  { vm_compute. reflexivity. }
  split; [exact H1|].
  exact (proj2 (first_coset_is_subgroup 3 _ H1 H2 H3 H4)).
Defined.

(** X18: multiplying a subgroup list by one of its members permutes it:
    for a duplicate-free list H of valid permutations of {1, ..., n} that
    passes the subgroup test and a member sigma of H, left_coset(sigma, H)
    is a rearrangement of H; and left_coset(identity(n), H) is H. *)
Theorem left_coset_of_member (n : Z) (H : list dict) (sigma : dict) :
  Forall (perm_on n) H → NoDup H → is_subgroup H n = Ok true → sigma ∈ H →
  (∃ l, left_coset sigma H = Ok l ∧ l ≡ₚ H) ∧
  left_coset (identity n) H = Ok H.
Proof.
  intros Hall Hnd Hgrp Hs. rewrite Forall_forall in Hall.
  destruct (is_subgroup_axioms n H Hall Hgrp) as (Hid & Hcomp & Hinv).
  split.
  - exists (comp sigma <$> H). split; [apply (left_coset_Ok n); auto|].
    apply NoDup_Permutation; [apply (coset_NoDup n); auto|done|].
    apply (coset_of_member n H Hall Hcomp Hinv sigma (identity n)); auto.
  - rewrite (left_coset_Ok n H Hall) by apply perm_on_identity.
    by rewrite (fmap_comp_identity n).
Qed.

Lemma left_coset_of_member_witness :
  Forall (perm_on 3) [identity 3; {[1 := 1; 2 := 3; 3 := 2]}] ∧
  left_coset (identity 3) [identity 3; {[1 := 1; 2 := 3; 3 := 2]}]
    = Ok [identity 3; {[1 := 1; 2 := 3; 3 := 2]}].
Proof.
  assert (Forall (perm_on 3) [identity 3; {[1 := 1; 2 := 3; 3 := 2]}]) as H1.
  { apply (bool_decide_unpack _). vm_compute. exact I. }
  assert (NoDup [identity 3; {[1 := 1; 2 := 3; 3 := 2]}]) as H2.
  { apply (bool_decide_unpack _). vm_compute. exact I. }
  assert (is_subgroup [identity 3; {[1 := 1; 2 := 3; 3 := 2]}] 3 = Ok true) as H3.
  { vm_compute. reflexivity. }
  assert ({[1 := 1; 2 := 3; 3 := 2]} ∈ [identity 3; {[1 := 1; 2 := 3; 3 := 2]}]) as H4.
  { apply (bool_decide_unpack _). vm_compute. exact I. }
  split; [exact H1|].
  exact (proj2 (left_coset_of_member 3 _ _ H1 H2 H3 H4)).
Defined.

(** ** The scheduler model *)

Lemma init_Ok_inv g n self :
  Scheduler.init g n = Ok self →
  2 ≤ n ∧ Scheduler.self_n self = n ∧
  Scheduler.self_Sn self = generate_Sn n ∧
  Scheduler.self_e self = identity n ∧
  Scheduler.self_stab self = fixing 1 (generate_Sn n) ∧
  g n = Ok (Scheduler.self_cyclic self).
Proof.
  unfold Scheduler.init. case_decide as Hn; [done|].
  rewrite compute_stabilizer_Sn by lia. cbn [mbind result_bind].
  intros (cyc & Hcyc & [= <-])%bind_Ok. simpl. repeat split; (done || lia).
Qed.

(** X19: constructing a [SchedulerModel].  The constructor raises the
    ValueError for n < 2; for n ≥ 2 it passes on what the cyclic-subgroup
    generator raises, and otherwise builds a model whose schedules are
    [generate_Sn n] (n! of them), whose deadlock state is identity(n) and
    whose stored mutex schedules are the (n-1)! schedules that
    [mutex_admissible_schedules] returns for slot 1. *)
Theorem init_behaviour (generate_cyclic_subgroup : Z → result (list dict)) (n : Z) :
  (n < 2 →
     Scheduler.init generate_cyclic_subgroup n
       = Raise (ValueError "Need at least 2 processes (n ≥ 2).")) ∧
  (2 ≤ n → ∀ e, generate_cyclic_subgroup n = Raise e →
     Scheduler.init generate_cyclic_subgroup n = Raise e) ∧
  (2 ≤ n → ∀ cyc, generate_cyclic_subgroup n = Ok cyc →
     ∃ self, Scheduler.init generate_cyclic_subgroup n = Ok self ∧
       Scheduler.all_schedules self = generate_Sn n ∧
       Scheduler.scheduling_space_size self = Z.of_nat (fact (Z.to_nat n)) ∧
       Scheduler.deadlock_state self = identity n ∧
       Scheduler.round_robin_schedules self = cyc ∧
       Scheduler.mutex_admissible_schedules self 1 = Ok (Scheduler.self_stab self) ∧
       len (Scheduler.self_stab self) = Z.of_nat (fact (Z.to_nat n - 1))).
Proof.
  unfold Scheduler.init. split; [|split].
  - intros Hn. by rewrite decide_True.
  - intros Hn e He. rewrite decide_False by lia.
    rewrite compute_stabilizer_Sn by lia. cbn [mbind result_bind]. by rewrite He.
  - intros Hn cyc Hcyc. rewrite decide_False by lia.
    rewrite compute_stabilizer_Sn by lia. cbn [mbind result_bind]. rewrite Hcyc.
    eexists. split; [done|]. cbn.
    unfold Scheduler.scheduling_space_size, Scheduler.mutex_admissible_schedules, len.
    cbn. rewrite length_generate_Sn, compute_stabilizer_Sn, length_stabilizer by lia.
    done.
Qed.

(** X20: the predicate and the list agree.  In a constructed model, for a
    schedule of the model and a slot of {1, ..., n},
    [is_mutex_admissible] answers True exactly for the members of
    [mutex_admissible_schedules]; for a slot outside {1, ..., n} it raises
    KeyError(slot). *)
Theorem mutex_predicate_agrees g (n : Z) (self : Scheduler.SchedulerModel)
    (sigma : dict) (critical_slot : Z) :
  Scheduler.init g n = Ok self → sigma ∈ Scheduler.all_schedules self →
  (1 ≤ critical_slot ≤ n →
     ∃ b l, Scheduler.is_mutex_admissible self sigma critical_slot = Ok b ∧
            Scheduler.mutex_admissible_schedules self critical_slot = Ok l ∧
            (b = true ↔ sigma ∈ l)) ∧
  (¬ (1 ≤ critical_slot ≤ n) →
     Scheduler.is_mutex_admissible self sigma critical_slot
       = Raise (KeyError critical_slot)).
Proof.
  intros (Hn & _ & HSn & _)%init_Ok_inv Hs.
  unfold Scheduler.all_schedules, Scheduler.is_mutex_admissible,
    Scheduler.mutex_admissible_schedules in *.
  rewrite HSn in *. apply elem_of_generate_Sn in Hs as Hp. split.
  - intros Hslot. destruct (perm_on_lookup n sigma critical_slot Hp Hslot) as (v & Hv & _).
    apply getitem_Ok in Hv as Hg. rewrite Hg. cbn [mbind result_bind].
    rewrite compute_stabilizer_Sn by done. eexists _, _. split; [done|]. split; [done|].
    rewrite bool_decide_eq_true, elem_of_fixing, Hv. split.
    + by intros ->.
    + by intros [[= ->] _].
  - intros Hslot. unfold getitem.
    destruct (sigma !! critical_slot) as [v|] eqn:Hv; [|done].
    by apply (perm_on_lookup_Some n) in Hv as [? _].
Qed.

Lemma mutex_predicate_agrees_witness :
  Scheduler.init (λ n, Ok [identity n]) 3
    = Ok (Scheduler.Build_SchedulerModel 3 (generate_Sn 3) (identity 3)
            (fixing 1 (generate_Sn 3)) [identity 3]) ∧
  {[1 := 2; 2 := 1; 3 := 3]} ∈ generate_Sn 3 ∧
  Scheduler.is_mutex_admissible
    (Scheduler.Build_SchedulerModel 3 (generate_Sn 3) (identity 3)
       (fixing 1 (generate_Sn 3)) [identity 3]) {[1 := 2; 2 := 1; 3 := 3]} 7
    = Raise (KeyError 7).
Proof.
  assert (Scheduler.init (λ n, Ok [identity n]) 3
    = Ok (Scheduler.Build_SchedulerModel 3 (generate_Sn 3) (identity 3)
            (fixing 1 (generate_Sn 3)) [identity 3])) as H1.
  { vm_compute. reflexivity. }
  assert ({[1 := 2; 2 := 1; 3 := 3]} ∈ generate_Sn 3) as H2.
  { apply (bool_decide_unpack _). vm_compute. exact I. }
  split; [exact H1|]. split; [exact H2|].
  apply (mutex_predicate_agrees _ 3 _ _ 7 H1 H2). lia.
Defined.

Lemma filter_eq_NoDup {A} `{!EqDecision A} (x : A) (l : list A) :
  NoDup l → x ∈ l → filter (λ y, y = x) l = [x].
Proof.
  induction l as [|y l IH]; intros Hnd Hx; [by apply elem_of_nil in Hx|].
  apply NoDup_cons in Hnd as [Hy Hnd]. rewrite filter_cons.
  destruct (decide (y = x)) as [->|Hne].
  - f_equal. clear IH Hx Hnd. induction l as [|z l IH]; [done|].
    apply not_elem_of_cons in Hy as [Hz Hy].
    rewrite filter_cons, decide_False by done. by apply IH.
  - apply elem_of_cons in Hx as [->|Hx]; [done|]. by apply IH.
Qed.

(** X21: the deadlock state of a constructed model is the identity, it is
    the only schedule of the model that [is_deadlock] accepts, and it is
    mutex-admissible for every slot of {1, ..., n}. *)
Theorem deadlock_unique g (n : Z) (self : Scheduler.SchedulerModel) :
  Scheduler.init g n = Ok self →
  filter (λ sigma, Scheduler.is_deadlock self sigma = true)
    (Scheduler.all_schedules self) = [identity n] ∧
  (∀ slot, 1 ≤ slot ≤ n →
     Scheduler.is_mutex_admissible self (Scheduler.deadlock_state self) slot = Ok true).
Proof.
  intros (Hn & _ & HSn & He & _)%init_Ok_inv.
  unfold Scheduler.all_schedules, Scheduler.is_deadlock, Scheduler.deadlock_state,
    Scheduler.is_mutex_admissible.
  rewrite HSn, He. split.
  - rewrite <-(filter_eq_NoDup (identity n) (generate_Sn n)).
    + apply list_filter_iff. intros sigma. by rewrite bool_decide_eq_true.
    + apply NoDup_generate_Sn.
    + apply elem_of_generate_Sn, perm_on_identity.
  - intros slot Hslot. unfold getitem. rewrite lookup_identity, decide_True by done.
    cbn [mbind result_bind]. by rewrite bool_decide_eq_true_2.
Qed.

Lemma deadlock_unique_witness :
  Scheduler.init (λ n, Ok [identity n]) 3
    = Ok (Scheduler.Build_SchedulerModel 3 (generate_Sn 3) (identity 3)
            (fixing 1 (generate_Sn 3)) [identity 3]) ∧
  filter (λ sigma, Scheduler.is_deadlock
            (Scheduler.Build_SchedulerModel 3 (generate_Sn 3) (identity 3)
               (fixing 1 (generate_Sn 3)) [identity 3]) sigma = true)
    (generate_Sn 3) = [identity 3].
Proof.
  assert (Scheduler.init (λ n, Ok [identity n]) 3
    = Ok (Scheduler.Build_SchedulerModel 3 (generate_Sn 3) (identity 3)
            (fixing 1 (generate_Sn 3)) [identity 3])) as H1.
  { vm_compute. reflexivity. }
  split; [exact H1|]. exact (proj1 (deadlock_unique _ 3 _ H1)).
Defined.

(** X22: [is_round_robin] compares sorted item tuples, and that is dict
    equality: it answers True exactly when sigma equals a member of the
    stored cyclic list, for every model and every dict. *)
Theorem is_round_robin_member (self : Scheduler.SchedulerModel) (sigma : dict) :
  Scheduler.is_round_robin self sigma = true ↔
  sigma ∈ Scheduler.round_robin_schedules self.
Proof.
  unfold Scheduler.is_round_robin, Scheduler.round_robin_schedules.
  rewrite bool_decide_eq_true. apply (elem_of_perm_keys sigma).
Qed.

Lemma classify_run g n self sigma :
  Scheduler.init g n = Ok self → sigma ∈ generate_Sn n →
  ∃ str v, cycle_notation_str sigma = Ok str ∧ sigma !! 1 = Some v ∧
    Scheduler.classify self sigma
      = Ok (Scheduler.Build_Classification str (bool_decide (sigma = identity n))
              (bool_decide (v = 1)) (Scheduler.is_round_robin self sigma)).
Proof.
  intros (Hn & _ & HSn & He & _)%init_Ok_inv Hp%elem_of_generate_Sn.
  destruct (cycle_notation_str_valid sigma (perm_on_valid n sigma Hp)) as [str Hstr].
  destruct (perm_on_lookup n sigma 1 Hp) as (v & Hv & _); [lia|].
  exists str, v. split; [done|]. split; [done|].
  unfold Scheduler.classify, Scheduler.is_mutex_admissible, Scheduler.is_deadlock.
  rewrite Hstr. cbn [mbind result_bind]. apply getitem_Ok in Hv as Hg. rewrite Hg.
  cbn [mbind result_bind]. by rewrite He.
Qed.

(** X23: classifying a schedule of a constructed model does not raise, and
    the flags are consistent: the deadlock flag is set exactly when the
    printed notation is "e", the mutex flag exactly when the schedule fixes
    slot 1, the round-robin flag exactly for the members of the cyclic
    list, and a deadlocked schedule is always flagged mutex-admissible. *)
Theorem classify_flags g (n : Z) (self : Scheduler.SchedulerModel) (sigma : dict) :
  Scheduler.init g n = Ok self → sigma ∈ Scheduler.all_schedules self →
  ∃ c, Scheduler.classify self sigma = Ok c ∧
    cycle_notation_str sigma = Ok (Scheduler.permutation c) ∧
    (Scheduler.is_deadlock_flag c = true ↔ Scheduler.permutation c = "e") ∧
    (Scheduler.is_mutex_flag c = true ↔ sigma !! 1 = Some 1) ∧
    (Scheduler.is_round_robin_flag c = true ↔ sigma ∈ Scheduler.self_cyclic self) ∧
    (Scheduler.is_deadlock_flag c = true → Scheduler.is_mutex_flag c = true).
Proof.
  intros Hinit Hs. pose proof Hinit as (Hn & _ & HSn & _)%init_Ok_inv.
  unfold Scheduler.all_schedules in Hs. rewrite HSn in Hs.
  apply elem_of_generate_Sn in Hs as Hp.
  destruct (classify_run g n self sigma Hinit Hs) as (str & v & Hstr & Hv & ->).
  pose proof (cycle_notation_str_e n sigma Hp) as He'.
  eexists. split; [done|]. cbn.
  rewrite !bool_decide_eq_true, Hv. split; [done|].
  assert (sigma = identity n ↔ str = "e") as Hde.
  { rewrite <-He', Hstr. split; congruence. }
  split; [done|]. split; [split; congruence|]. split.
  - unfold Scheduler.is_round_robin. rewrite bool_decide_eq_true.
    apply (elem_of_perm_keys sigma).
  - intros ->. rewrite lookup_identity, decide_True in Hv by lia. congruence.
Qed.

Lemma classify_flags_witness :
  Scheduler.init (λ n, Ok [identity n]) 3
    = Ok (Scheduler.Build_SchedulerModel 3 (generate_Sn 3) (identity 3)
            (fixing 1 (generate_Sn 3)) [identity 3]) ∧
  {[1 := 2; 2 := 1; 3 := 3]} ∈ generate_Sn 3 ∧
  ∃ c, Scheduler.classify
         (Scheduler.Build_SchedulerModel 3 (generate_Sn 3) (identity 3)
            (fixing 1 (generate_Sn 3)) [identity 3]) {[1 := 2; 2 := 1; 3 := 3]} = Ok c.
Proof.
  assert (Scheduler.init (λ n, Ok [identity n]) 3
    = Ok (Scheduler.Build_SchedulerModel 3 (generate_Sn 3) (identity 3)
            (fixing 1 (generate_Sn 3)) [identity 3])) as H1.
  { vm_compute. reflexivity. }
  assert ({[1 := 2; 2 := 1; 3 := 3]} ∈ generate_Sn 3) as H2.
  { apply (bool_decide_unpack _). vm_compute. exact I. }
  split; [exact H1|]. split; [exact H2|].
  destruct (classify_flags _ 3 _ _ H1 H2) as (c & Hc & _). exists c. exact Hc.
Defined.

Lemma Forall2_filter_length {A B} (R : A → B → Prop) (P : A → Prop) (Q : B → Prop)
    `{!∀ x, Decision (P x)} `{!∀ y, Decision (Q y)} l k :
  Forall2 R l k → (∀ x y, R x y → P x ↔ Q y) →
  length (filter P l) = length (filter Q k).
Proof.
  intros HR HPQ. induction HR as [|x y l k Hxy _ IH]; [done|].
  rewrite !filter_cons. pose proof (HPQ x y Hxy).
  destruct (decide (P x)), (decide (Q y)); simpl; (lia || tauto).
Qed.

(** X24: the classification table of a constructed model has one row per
    schedule, n! in all, of which exactly (n-1)! are flagged
    mutex-admissible and exactly one is flagged deadlock. *)
Theorem classify_all_counts g (n : Z) (self : Scheduler.SchedulerModel) :
  Scheduler.init g n = Ok self →
  ∃ rows, Scheduler.classify_all self = Ok rows ∧
    len rows = Z.of_nat (fact (Z.to_nat n)) ∧
    len (filter (λ c, Scheduler.is_mutex_flag c = true) rows)
      = Z.of_nat (fact (Z.to_nat n - 1)) ∧
    len (filter (λ c, Scheduler.is_deadlock_flag c = true) rows) = 1.
Proof.
  intros Hinit. pose proof Hinit as (Hn & _ & HSn & He & _)%init_Ok_inv.
  assert (∃ rows, Forall2 (λ sigma c, Scheduler.classify self sigma = Ok c)
            (generate_Sn n) rows) as [rows Hrows].
  { assert (∀ l, (∀ s, s ∈ l → s ∈ generate_Sn n) →
      ∃ rows, Forall2 (λ sigma c, Scheduler.classify self sigma = Ok c) l rows) as Hl.
    { induction l as [|s l IH]; intros Hsub; [by exists []|].
      destruct IH as [rows Hrows]; [intros; apply Hsub; by right|].
      destruct (classify_run g n self s Hinit) as (str & v & _ & _ & Hc).
      { apply Hsub. left. }
      eexists (_ :: rows). by constructor. }
    by apply Hl. }
  exists rows. split.
  { unfold Scheduler.classify_all. rewrite HSn. by apply mapM_Ok. }
  assert (∀ sigma c, sigma ∈ generate_Sn n → Scheduler.classify self sigma = Ok c →
    (sigma !! 1 = Some 1 ↔ Scheduler.is_mutex_flag c = true) ∧
    (sigma = identity n ↔ Scheduler.is_deadlock_flag c = true)) as Hflags.
  { intros sigma c Hs Hc.
    destruct (classify_run g n self sigma Hinit Hs) as (str & v & _ & Hv & Hc').
    rewrite Hc in Hc'. injection Hc' as ->. cbn.
    rewrite !bool_decide_eq_true, Hv. split; [split; congruence|done]. }
  assert (Forall2 (λ sigma c, sigma ∈ generate_Sn n ∧
            Scheduler.classify self sigma = Ok c) (generate_Sn n) rows) as Hrows'.
  { apply Forall2_same_length_lookup. split; [by eapply Forall2_length|].
    intros i sigma c Hi Hc. split; [by eapply list_elem_of_lookup_2|].
    by eapply (Forall2_lookup_lr _ _ _ _ _ _ Hrows). }
  unfold len. split; [|split].
  - by rewrite <-(Forall2_length _ _ _ Hrows), length_generate_Sn.
  - rewrite <-(length_stabilizer n 1) by lia. f_equal. symmetry. unfold fixing.
    apply (Forall2_filter_length _ _ _ _ _ Hrows').
    intros sigma c [Hs Hc]. by apply Hflags.
  - change 1 with (Z.of_nat (length [identity n])). f_equal.
    rewrite <-(filter_eq_NoDup (identity n) (generate_Sn n)).
    + symmetry. apply (Forall2_filter_length _ _ _ _ _ Hrows').
      intros sigma c [Hs Hc]. by apply Hflags.
    + apply NoDup_generate_Sn.
    + apply elem_of_generate_Sn, perm_on_identity.
Qed.

Lemma classify_all_counts_witness :
  Scheduler.init (λ n, Ok [identity n]) 3
    = Ok (Scheduler.Build_SchedulerModel 3 (generate_Sn 3) (identity 3)
            (fixing 1 (generate_Sn 3)) [identity 3]) ∧
  ∃ rows, Scheduler.classify_all
            (Scheduler.Build_SchedulerModel 3 (generate_Sn 3) (identity 3)
               (fixing 1 (generate_Sn 3)) [identity 3]) = Ok rows ∧
          len rows = Z.of_nat (fact (Z.to_nat 3)).
Proof.
  assert (Scheduler.init (λ n, Ok [identity n]) 3
    = Ok (Scheduler.Build_SchedulerModel 3 (generate_Sn 3) (identity 3)
            (fixing 1 (generate_Sn 3)) [identity 3])) as H1.
  { vm_compute. reflexivity. }
  split; [exact H1|].
  destruct (classify_all_counts _ 3 _ H1) as (rows & Hrows & Hlen & _).
  exists rows. split; [exact Hrows | exact Hlen].
Defined.

(** ** The verification suite *)

Lemma filter_result_Ok {A} (cond : A → result bool) (P : A → Prop)
    `{!∀ x, Decision (P x)} (l : list A) :
  (∀ x, x ∈ l → ∃ b, cond x = Ok b ∧ (b = true ↔ P x)) →
  filter_result cond l = Ok (filter P l).
Proof.
  induction l as [|x l IH]; intros Hc; [done|].
  simpl. destruct (Hc x) as (b & -> & Hb); [left|]. cbn [mbind result_bind].
  rewrite IH by (intros; apply Hc; by right). cbn [mbind result_bind]. f_equal.
  rewrite filter_cons. destruct b.
  - rewrite decide_True; [done|]. by apply Hb.
  - rewrite decide_False; [done|]. intros HP. by apply Hb in HP.
Qed.

Lemma fixes_all_spec n s :
  perm_on n s →
  ∃ b, Scheduler.fixes_all n s = Ok b ∧ (b = true ↔ s = identity n).
Proof.
  intros Hs. unfold Scheduler.fixes_all.
  destruct (all_pass_Ok (λ i, v ← getitem s i; Ok (bool_decide (v = i)))
              (λ i, s !! i = Some i) (seqZ 1 n)) as (b & Hb & Hiff).
  { intros i Hi%elem_of_seqZ.
    destruct (perm_on_lookup n s i Hs) as (v & Hv & _); [lia|].
    apply getitem_Ok in Hv as Hg. rewrite Hg. cbn [mbind result_bind].
    eexists. split; [done|]. rewrite bool_decide_eq_true, Hv. split; congruence. }
  exists b. split; [done|]. rewrite Hiff. split.
  - intros Hfix. apply map_eq. intros i. rewrite lookup_identity. case_decide as Hi.
    + apply Hfix, elem_of_seqZ. lia.
    + apply not_elem_of_dom. destruct Hs as [Hk _]. unfold keys in Hk.
      by rewrite Hk, elem_of_domain.
  - intros -> i Hi%elem_of_seqZ. apply lookup_identity_Some. lia.
Qed.

Lemma fixall_identity n :
  filter_result (Scheduler.fixes_all n) (generate_Sn n) = Ok [identity n].
Proof.
  rewrite (filter_result_Ok _ (λ s, s = identity n)).
  - f_equal. apply filter_eq_NoDup; [apply NoDup_generate_Sn|].
    apply elem_of_generate_Sn, perm_on_identity.
  - intros s Hs%elem_of_generate_Sn. by apply fixes_all_spec.
Qed.

Lemma run_full_verification_body_Ok v verbose all_passed n c3 :
  1 ≤ n → v n verbose = Ok c3 →
  Scheduler.run_full_verification_body v verbose all_passed n = Ok (all_passed && c3).
Proof.
  intros Hn Hv. unfold Scheduler.run_full_verification_body, math_factorial.
  rewrite decide_False by lia. cbn [mbind result_bind].
  rewrite verify_stabilizer_run by lia. cbn [mbind result_bind].
  rewrite Hv. cbn [mbind result_bind].
  rewrite fixall_identity. cbn [mbind result_bind].
  rewrite decide_True by done. cbn [mbind result_bind list_getitem lookup list_lookup].
  rewrite !bool_decide_eq_true_2; [|done|unfold len; by rewrite length_generate_Sn].
  destruct verbose; cbn [mbind result_bind]; by rewrite andb_true_r.
Qed.

(** X25: in the verification suite, the checks on |S_n| = n!, on the
    stabilizer and on the uniqueness of the identity pass for every
    n ≥ 1: the only permutation of S_n fixing every point is identity(n),
    and the running verdict after the loop is the conjunction of the
    answers of the cyclic-subgroup verifier.  The suite itself then
    returns without raising. *)
Theorem run_full_verification_verdict
    (verify_cyclic_subgroup : Z → bool → result bool) (c3 : Z → bool)
    (n_values : list Z) (verbose : bool) :
  Forall (λ n, 1 ≤ n) n_values →
  Forall (λ n, verify_cyclic_subgroup n verbose = Ok (c3 n)) n_values →
  Forall (λ n, filter_result (Scheduler.fixes_all n) (generate_Sn n)
                 = Ok [identity n]) n_values ∧
  for_each (Scheduler.run_full_verification_body verify_cyclic_subgroup verbose)
    true n_values = Ok (forallb c3 n_values) ∧
  Scheduler.run_full_verification verify_cyclic_subgroup (Some n_values) verbose
    = Ok tt.
Proof.
  intros Hpos Hv.
  assert (∀ acc, for_each
    (Scheduler.run_full_verification_body verify_cyclic_subgroup verbose) acc n_values
      = Ok (acc && forallb c3 n_values)) as Hloop.
  { induction n_values as [|n l IH]; intros acc; [by rewrite andb_true_r|].
    apply Forall_cons in Hpos as [Hn Hpos]. apply Forall_cons in Hv as [Hvn Hv].
    cbn [for_each]. rewrite (run_full_verification_body_Ok _ _ _ _ (c3 n)) by done.
    cbn [mbind result_bind]. rewrite IH by done. simpl. by rewrite andb_assoc. }
  split; [|split].
  - apply Forall_forall. intros n _. apply fixall_identity.
  - apply Hloop.
  - unfold Scheduler.run_full_verification, print. cbn [mbind result_bind].
    rewrite Hloop. cbn [mbind result_bind]. by destruct (forallb c3 n_values).
Qed.

Lemma run_full_verification_verdict_witness :
  Forall (λ n, 1 ≤ n) [2; 3] ∧
  Forall (λ n, (λ (n : Z) (_ : bool), Ok (bool_decide (n = 2))) n false
                 = Ok ((λ n : Z, bool_decide (n = 2)) n)) [2; 3] ∧
  for_each (Scheduler.run_full_verification_body
              (λ (n : Z) (_ : bool), Ok (bool_decide (n = 2))) false) true [2; 3]
    = Ok (forallb (λ n : Z, bool_decide (n = 2)) [2; 3]).
Proof.
  assert (Forall (λ n, 1 ≤ n) [2; 3]) as H1 by (repeat constructor; lia).
  assert (Forall (λ n, (λ (n : Z) (_ : bool), Ok (bool_decide (n = 2))) n false
                         = Ok ((λ n : Z, bool_decide (n = 2)) n)) [2; 3]) as H2
    by (repeat constructor).
  split; [exact H1|]. split; [exact H2|].
  exact (proj1 (proj2 (run_full_verification_verdict _ _ _ _ H1 H2))).
Defined.

(** X26: the suite raises on a first value below 1, before the cyclic
    verifier is asked: a negative n fails in math.factorial, and n = 0
    fails with KeyError(1) in the stabilizer check. *)
Theorem run_full_verification_small_n
    (verify_cyclic_subgroup : Z → bool → result bool)
    (n : Z) (rest : list Z) (verbose : bool) :
  (n < 0 →
     Scheduler.run_full_verification verify_cyclic_subgroup (Some (n :: rest)) verbose
       = Raise (ValueError "factorial() not defined for negative values")) ∧
  (n = 0 →
     Scheduler.run_full_verification verify_cyclic_subgroup (Some (n :: rest)) verbose
       = Raise (KeyError 1)).
Proof.
  unfold Scheduler.run_full_verification, print. cbn [mbind result_bind for_each].
  split.
  - intros Hn.
    assert (Scheduler.run_full_verification_body verify_cyclic_subgroup verbose true n
            = Raise (ValueError "factorial() not defined for negative values")) as ->; [|done].
    unfold Scheduler.run_full_verification_body, math_factorial.
    by rewrite decide_True.
  - intros ->.
    assert (Scheduler.run_full_verification_body verify_cyclic_subgroup verbose true 0
            = Raise (KeyError 1)) as ->; [|done].
    unfold Scheduler.run_full_verification_body, math_factorial.
    rewrite decide_False by lia. cbn [mbind result_bind].
    unfold verify_stabilizer. by rewrite compute_stabilizer_out_of_range by lia.
Qed.

(** ** Coset decomposition by an empty list *)

Lemma coset_loop_empty (Sn : list dict) cosets :
  for_each (coset_step []) (∅, cosets) Sn
    = Ok (∅, cosets ++ replicate (length Sn) []).
Proof.
  revert cosets. induction Sn as [|sigma Sn IH]; intros cosets.
  { simpl. by rewrite app_nil_r. }
  cbn [for_each]. rewrite coset_step_eq.
  rewrite decide_True by set_solver.
  cbn [left_coset mapM mbind result_bind mret result_ret foldl].
  rewrite IH. by rewrite <-app_assoc.
Qed.

(** X27: [coset_decomposition] by an empty subgroup list.  Every schedule
    of Sn then yields an empty coset and nothing is ever covered, so that
    the final sort, which reads the first member of each coset, raises
    IndexError as soon as Sn is not empty; on an empty Sn the result is the
    empty list, for every subgroup list. *)
Theorem coset_decomposition_empty_subgroup (Sn H : list dict) :
  coset_decomposition [] H = Ok [] ∧
  (Sn ≠ [] → coset_decomposition Sn [] = Raise IndexError).
Proof.
  split; [done|]. intros HSn. unfold coset_decomposition.
  rewrite coset_loop_empty. cbn [mbind result_bind snd app].
  destruct Sn as [|sigma Sn]; [done|]. done.
Qed.

(** * Totality *)

(** ** What each function needs of its inputs *)

Lemma valid_on_len sigma :
  valid sigma → keys sigma = domain (dict_len sigma) →
  perm_on (dict_len sigma) sigma.
Proof. intros Hv Hk. split; [done|]. unfold valid in Hv. congruence. Qed.

Lemma perm_on_len n sigma :
  perm_on n sigma → keys sigma = domain (dict_len sigma).
Proof.
  intros Hs. pose proof (identity_len n sigma Hs) as He.
  destruct Hs as [Hk _]. rewrite Hk, <-!dom_identity. by rewrite He.
Qed.

Lemma power_off_domain sigma k :
  valid sigma → k ≠ 0 → keys sigma ≠ domain (dict_len sigma) →
  power sigma k = Raise (ValueError "Permutations must be defined on the same set.").
Proof.
  intros Hv Hk Hdom. unfold power. rewrite decide_False by done.
  rewrite (seqZ_cons 0 (Z.abs k)) by lia. cbn [for_each].
  rewrite compose_mismatch; [done|].
  unfold keys at 1. rewrite dom_identity. intros Heq. apply Hdom.
  case_decide; [done|]. by destruct (valid_inverse sigma Hv) as [<- _].
Qed.

Lemma order_off_domain sigma fuel :
  valid sigma → keys sigma ≠ domain (dict_len sigma) →
  order fuel sigma = OutOfFuel.
Proof.
  intros Hv Hdom. unfold order.
  assert (∀ cur k, valid cur → keys cur = keys sigma →
    order_loop fuel sigma (identity (dict_len sigma)) cur k = OutOfFuel) as Hloop;
    [|by apply Hloop].
  induction fuel as [|fuel IH]; intros cur k Hc Hk; cbn [order_loop];
    (rewrite decide_True;
      [|intros ->; apply Hdom; rewrite <-Hk; apply dom_identity]); [done|].
  rewrite compose_valid by done. cbn [mbind result_bind].
  destruct (valid_comp cur sigma Hc Hv Hk) as [Hk' Hv'].
  apply IH; [unfold valid; congruence|done].
Qed.

Lemma order_total n sigma :
  perm_on n sigma → ∃ k, ∀ fuel, (k ≤ fuel)%nat → is_Ok (order fuel sigma).
Proof.
  intros Hs. destruct (order_exists n sigma Hs) as (m & Hm1 & Hm & Hmin & _).
  exists m. intros fuel Hfuel. exists (Z.of_nat m). unfold order.
  rewrite (identity_len n) by done. rewrite <-(pow_1 n sigma Hs) at 2.
  apply (order_loop_run n sigma m (m - 1) 1); (done || lia).
Qed.

Lemma is_subgroup_total (G : list dict) m :
  (∀ s, s ∈ G → valid s) → (∀ s t, s ∈ G → t ∈ G → keys s = keys t) →
  is_Ok (is_subgroup G m).
Proof.
  intros Hv Hk. destruct (decide (identity m ∈ G)) as [Hin|Hout].
  - destruct (is_subgroup_spec m G) as (b & Hb & _); [|by exists b].
    intros s Hs. pose proof (Hk s (identity m) Hs Hin) as Hks.
    unfold keys at 2 in Hks. rewrite dom_identity in Hks.
    split; [done|]. rewrite <-Hks. symmetry. by apply Hv.
  - exists false. unfold is_subgroup. rewrite decide_True; [done|].
    change canonical with perm_key. by rewrite elem_of_perm_keys.
Qed.

Lemma left_coset_valid sigma (H : list dict) :
  valid sigma → (∀ h, h ∈ H → valid h ∧ keys h = keys sigma) →
  left_coset sigma H = Ok (comp sigma <$> H).
Proof.
  intros Hs HH. unfold left_coset. apply mapM_Ok_total.
  intros h [Hh Hk]%HH. by apply compose_valid.
Qed.

Lemma coset_loop_total (H : list dict) rest covered cosets :
  H ≠ [] →
  (∀ sigma, sigma ∈ rest → left_coset sigma H = Ok (comp sigma <$> H)) →
  Forall (λ c, c ≠ []) cosets →
  ∃ covered' cosets',
    for_each (coset_step H) (covered, cosets) rest = Ok (covered', cosets') ∧
    Forall (λ c, c ≠ []) cosets'.
Proof.
  intros Hne. revert covered cosets.
  induction rest as [|sigma rest IH]; intros covered cosets Hrest Hall; [by eauto|].
  cbn [for_each]. rewrite coset_step_eq. case_decide.
  - rewrite Hrest by left. cbn [mbind result_bind].
    apply IH; [intros; apply Hrest; by right|].
    apply Forall_app. split; [done|]. apply Forall_singleton. by destruct H.
  - cbn [mbind result_bind]. apply IH; [intros; apply Hrest; by right|done].
Qed.

Lemma coset_decomposition_total (G H : list dict) :
  H ≠ [] ∨ G = [] →
  (∀ s, s ∈ G ++ H → valid s) →
  (∀ s t, s ∈ G ++ H → t ∈ G ++ H → keys s = keys t) →
  is_Ok (coset_decomposition G H).
Proof.
  intros [Hne| ->] Hv Hk; [|by exists []].
  destruct (coset_loop_total H G ∅ [] Hne) as (cov & cosets & Hrun & Hall);
    [|constructor|].
  { intros sigma Hs. apply left_coset_valid.
    - apply Hv, elem_of_app. by left.
    - intros h Hh. split; [apply Hv|apply Hk]; apply elem_of_app; auto. }
  unfold coset_decomposition. rewrite Hrun. cbn [mbind result_bind snd].
  set (ks := list_to_set (perm_key <$> H) : gset (list (Z * Z))).
  rewrite (mapM_Ok_total _ (λ c : list dict,
    match c with
    | [] => 0
    | c0 :: _ => if decide (perm_key c0 ∈ ks) then 0 else 1
    end)); [by eexists|].
  rewrite Forall_forall in Hall. intros c Hc%Hall. by destruct c.
Qed.

Lemma compute_stabilizer_total (G : list dict) x :
  (∀ s, s ∈ G → is_Some (s !! x)) → is_Ok (compute_stabilizer G x).
Proof.
  induction G as [|s G IH]; intros Hx; [by exists []|].
  destruct (Hx s) as [v Hv]; [left|].
  destruct IH as [l Hl]; [intros; apply Hx; by right|].
  cbn [compute_stabilizer]. apply getitem_Ok in Hv. rewrite Hv, Hl.
  cbn [mbind result_bind]. by eexists.
Qed.

Lemma compute_orbit_total (G : list dict) x :
  (∀ s, s ∈ G → is_Some (s !! x)) → is_Ok (compute_orbit G x).
Proof.
  intros Hx. unfold compute_orbit.
  rewrite (mapM_Ok_total _ (λ sigma, sigma !!! x)); [by eexists|].
  intros sigma [v Hv]%Hx. apply getitem_Ok.
  by rewrite lookup_total_alt, Hv.
Qed.

(** The mapping {5: 7, 7: 5} is accepted by [make_permutation]; on it
    [power] raises and the loop of [order] never stops. *)
Lemma order_diverges fuel : order fuel {[5 := 7; 7 := 5]} = OutOfFuel.
Proof.
  apply order_off_domain; [vm_compute; reflexivity|].
  apply (bool_decide_unpack _). vm_compute. exact I.
Qed.

(** C8, as stated, fails: being accepted by [make_permutation] does not
    make an input fit for every function.  The mapping {5: 7, 7: 5} is
    accepted, yet [power] raises on it (its accumulator starts from the
    identity on {1, 2}) and the loop of [order] runs forever.  A list of
    accepted mappings with two key sets makes [is_subgroup], [left_coset]
    and [coset_decomposition] raise the ValueError of [compose]; an empty
    subgroup list makes [coset_decomposition] raise IndexError; and a
    point that is no key makes [compute_stabilizer], [compute_orbit] and
    [verify_stabilizer] raise KeyError. *)
Lemma total_on_accepted_counterexample :
  make_permutation {[5 := 7; 7 := 5]} = Ok {[5 := 7; 7 := 5]} ∧
  power {[5 := 7; 7 := 5]} 1
    = Raise (ValueError "Permutations must be defined on the same set.") ∧
  (∀ fuel, order fuel {[5 := 7; 7 := 5]} = OutOfFuel) ∧
  ¬ (∀ sigma k, is_Ok (make_permutation sigma) → is_Ok (power sigma k)) ∧
  make_permutation (identity 2) = Ok (identity 2) ∧
  is_subgroup [identity 2; {[5 := 7; 7 := 5]}] 2
    = Raise (ValueError "Permutations must be defined on the same set.") ∧
  left_coset {[5 := 7; 7 := 5]} [identity 2]
    = Raise (ValueError "Permutations must be defined on the same set.") ∧
  coset_decomposition [{[5 := 7; 7 := 5]}] [identity 2]
    = Raise (ValueError "Permutations must be defined on the same set.") ∧
  coset_decomposition [identity 2] [] = Raise IndexError ∧
  compute_stabilizer [{[5 := 7; 7 := 5]}] 1 = Raise (KeyError 1) ∧
  compute_orbit [{[5 := 7; 7 := 5]}] 1 = Raise (KeyError 1) ∧
  verify_stabilizer 2 3 false = Raise (KeyError 3).
Proof.
  split; [vm_compute; reflexivity|]. split; [vm_compute; reflexivity|].
  split; [apply order_diverges|]. split.
  { intros Htotal. destruct (Htotal {[5 := 7; 7 := 5]} 1) as [r Hr].
    - eexists. vm_compute. reflexivity.
    - vm_compute in Hr. discriminate Hr. }
  repeat split; vm_compute; reflexivity.
Qed.

(** C8, amended: each function is total on the accepted mappings up to
    what it needs of them.  [inverse], [to_cycles] and [cycle_notation_str]
    return on every accepted mapping, and [generate_Sn] on every integer.
    [power] returns for every exponent, and the loop of [order] stops,
    exactly when the key set is {1, ..., len(sigma)}; the permutations of
    {1, ..., n} are of this kind for every n, the empty permutation
    included.  [is_subgroup], [left_coset] and [coset_decomposition] return
    on accepted mappings with one key set, [coset_decomposition] with a
    subgroup list that is not empty (or an empty group list).
    [compute_stabilizer] and [compute_orbit] return when the point is a
    key of every listed mapping, and [verify_stabilizer] returns exactly
    when 1 ≤ fixed_point ≤ n. *)
Theorem total_on_permutations (n : Z) (K : gset Z) (sigma : dict) (m : Z)
    (G H : list dict) (x : Z) (verbose : bool) :
  (valid sigma →
     valid (inverse sigma) ∧ keys (inverse sigma) = keys sigma ∧
     is_Ok (to_cycles sigma) ∧ is_Ok (cycle_notation_str sigma)) ∧
  Forall (perm_on n) (generate_Sn n) ∧
  (valid sigma →
     ((∀ k, is_Ok (power sigma k)) ↔ keys sigma = domain (dict_len sigma)) ∧
     ((∃ fuel, is_Ok (order fuel sigma)) ↔ keys sigma = domain (dict_len sigma)) ∧
     (keys sigma = domain (dict_len sigma) →
        ∃ k0, ∀ fuel, (k0 ≤ fuel)%nat → is_Ok (order fuel sigma))) ∧
  (perm_on n sigma → valid sigma ∧ keys sigma = domain (dict_len sigma)) ∧
  (Forall (λ s, valid s ∧ keys s = K) G → is_Ok (is_subgroup G m)) ∧
  (valid sigma → Forall (λ h, valid h ∧ keys h = keys sigma) H →
     is_Ok (left_coset sigma H)) ∧
  (Forall (λ s, valid s ∧ keys s = K) (G ++ H) → H ≠ [] ∨ G = [] →
     is_Ok (coset_decomposition G H)) ∧
  ((∀ s, s ∈ G → is_Some (s !! x)) →
     is_Ok (compute_stabilizer G x) ∧ is_Ok (compute_orbit G x)) ∧
  (is_Ok (verify_stabilizer n x verbose) ↔ 1 ≤ x ≤ n).
Proof.
  split.
  { intros Hv. destruct (valid_inverse sigma Hv) as [Hk Hi].
    split; [unfold valid; congruence|]. split; [done|].
    split; [|by apply cycle_notation_str_valid].
    destruct (to_cycles_valid sigma Hv) as (? & cycles & ? & _). by exists cycles. }
  split; [apply Forall_forall; intros s; apply elem_of_generate_Sn|].
  split.
  { intros Hv.
    assert (keys sigma = domain (dict_len sigma) →
      ∃ k0, ∀ fuel, (k0 ≤ fuel)%nat → is_Ok (order fuel sigma)) as Hord.
    { intros Hk. apply (order_total (dict_len sigma)). by apply valid_on_len. }
    split; [|split; [|done]].
    - split.
      + intros Hpow. destruct (decide (keys sigma = domain (dict_len sigma)))
          as [|Hne]; [done|].
        destruct (Hpow 1) as [r Hr].
        rewrite power_off_domain in Hr by done. discriminate Hr.
      + intros Hk k. eexists. by apply (power_zpow (dict_len sigma)), valid_on_len.
    - split.
      + intros [fuel [r Hr]].
        destruct (decide (keys sigma = domain (dict_len sigma))) as [|Hne]; [done|].
        rewrite order_off_domain in Hr by done. discriminate Hr.
      + intros (k0 & Hk0)%Hord. exists k0. by apply Hk0. }
  split.
  { intros Hs. split; [by apply (perm_on_valid n)|by apply (perm_on_len n)]. }
  split.
  { rewrite Forall_forall. intros HG. apply is_subgroup_total.
    - intros s Hs. by apply HG.
    - intros s t [_ ->]%HG [_ ->]%HG. done. }
  split.
  { rewrite Forall_forall. intros Hv HH. eexists. by apply left_coset_valid. }
  split.
  { rewrite Forall_forall. intros HGH Hne. apply coset_decomposition_total.
    - done.
    - intros s Hs. by apply HGH.
    - intros s t [_ ->]%HGH [_ ->]%HGH. done. }
  split.
  { intros Hx. split; [by apply compute_stabilizer_total|by apply compute_orbit_total]. }
  split.
  - intros [r Hr]. destruct (decide (1 ≤ x ≤ n)) as [|Hx]; [done|].
    unfold verify_stabilizer in Hr.
    rewrite compute_stabilizer_out_of_range in Hr by done. discriminate Hr.
  - intros Hx. eexists. by apply verify_stabilizer_run.
Qed.

Lemma total_on_permutations_witness :
  (valid {[5 := 7; 7 := 9; 9 := 5]} ∧ is_Ok (to_cycles {[5 := 7; 7 := 9; 9 := 5]})) ∧
  (valid (∅ : dict) ∧ ∀ k, is_Ok (power ∅ k)) ∧
  (Forall (λ s, valid s ∧ keys s = domain 3)
     (generate_Sn 3 ++ [identity 3; {[1 := 1; 2 := 3; 3 := 2]}]) ∧
   is_Ok (coset_decomposition (generate_Sn 3) [identity 3; {[1 := 1; 2 := 3; 3 := 2]}])) ∧
  is_Ok (verify_stabilizer 3 1 false).
Proof.
  assert (valid {[5 := 7; 7 := 9; 9 := 5]}) as H1 by (vm_compute; reflexivity).
  assert (valid (∅ : dict)) as H2 by (vm_compute; reflexivity).
  assert (Forall (λ s, valid s ∧ keys s = domain 3)
            (generate_Sn 3 ++ [identity 3; {[1 := 1; 2 := 3; 3 := 2]}])) as H3.
  { apply (bool_decide_unpack _). vm_compute. exact I. }
  pose proof (total_on_permutations 3 (domain 3) {[5 := 7; 7 := 9; 9 := 5]} 3
                (generate_Sn 3) [identity 3; {[1 := 1; 2 := 3; 3 := 2]}] 1 false)
    as (Hacc & _ & _ & _ & _ & _ & Hcos & _ & Hver).
  pose proof (total_on_permutations 0 ∅ ∅ 0 [] [] 1 false) as (_ & _ & Hpow & _).
  split; [split; [exact H1 | exact (proj1 (proj2 (proj2 (Hacc H1))))]|].
  split; [split; [exact H2|]|].
  { apply (proj1 (Hpow H2)). vm_compute. reflexivity. }
  split; [split; [exact H3 | apply (Hcos H3); left; discriminate]|].
  apply Hver. lia.
Defined.
